(** * vscode-textmate, [src/main.ts]: the registry's grammar resolution
      and the token metadata word

    A shallow embedding of [main.ts].  Two parts of the file carry logic:

    - the [MetadataConsts] enum, which fixes how five highlighting
      attributes share one 32-bit word (module [Metadata]);
    - the [Registry] class, whose [_loadGrammar] walks the include graph of
      the grammars breadth first while [_loadSingleGrammar] memoises the
      loader per scope name (module [Resolver]).

    JavaScript numbers that pass through [&], [|], [<<] and [>>>] are
    modelled as [Z] with the 32-bit conversions written out.  Maps and sets
    of the class are stdpp's [gmap] and [gset]. *)

From Stdlib Require Import ZArith Lia Bool.
From stdpp Require Import base gmap sets list strings.

Local Open Scope Z_scope.

(* ===================================================================== *)
(** * Part I: the metadata word                                           *)
(* ===================================================================== *)

Module Metadata.

(** ** ECMAScript 32-bit integer operators

    [ToInt32] and [ToUint32] are the conversions every bitwise operator of
    the language applies to its operands; the shift count is taken modulo
    32.  [&], [|] and [<<] produce a signed result, [>>>] an unsigned one. *)

Definition ToInt32 (x : Z) : Z := (x + 2 ^ 31) mod 2 ^ 32 - 2 ^ 31.
Definition ToUint32 (x : Z) : Z := x mod 2 ^ 32.

Definition js_and (a b : Z) : Z := Z.land (ToInt32 a) (ToInt32 b).
Definition js_or (a b : Z) : Z := Z.lor (ToInt32 a) (ToInt32 b).
Definition js_shl (a n : Z) : Z := ToInt32 (Z.shiftl (ToInt32 a) (ToUint32 n mod 32)).
Definition js_ushr (a n : Z) : Z := Z.shiftr (ToUint32 a) (ToUint32 n mod 32).

(** ** [const enum StandardTokenType] *)

Inductive StandardTokenType := Other | Comment | String | RegEx.

Definition StandardTokenType_value (t : StandardTokenType) : Z :=
  match t with
  | Other => 0
  | Comment => 1
  | String => 2
  | RegEx => 4
  end.

(** ** [const enum MetadataConsts]

    The source writes the masks as 32-digit binary literals; the same
    numbers are given here in hexadecimal. *)

Definition LANGUAGEID_MASK : Z := 0x000000FF.
Definition TOKEN_TYPE_MASK : Z := 0x00000700.
Definition FONT_STYLE_MASK : Z := 0x00003800.
Definition FOREGROUND_MASK : Z := 0x007FC000.
Definition BACKGROUND_MASK : Z := 0xFF800000.

Definition LANGUAGEID_OFFSET : Z := 0.
Definition TOKEN_TYPE_OFFSET : Z := 8.
Definition FONT_STYLE_OFFSET : Z := 11.
Definition FOREGROUND_OFFSET : Z := 14.
Definition BACKGROUND_OFFSET : Z := 23.

(** The five fields of a metadata word, by position. *)
Inductive Field := LanguageId | TokenType | FontStyle | Foreground | Background.

Definition mask_of (f : Field) : Z :=
  match f with
  | LanguageId => LANGUAGEID_MASK
  | TokenType => TOKEN_TYPE_MASK
  | FontStyle => FONT_STYLE_MASK
  | Foreground => FOREGROUND_MASK
  | Background => BACKGROUND_MASK
  end.

Definition offset_of (f : Field) : Z :=
  match f with
  | LanguageId => LANGUAGEID_OFFSET
  | TokenType => TOKEN_TYPE_OFFSET
  | FontStyle => FONT_STYLE_OFFSET
  | Foreground => FOREGROUND_OFFSET
  | Background => BACKGROUND_OFFSET
  end.

(** The width the layout table declares for each field. *)
Definition width_of (f : Field) : Z :=
  match f with
  | LanguageId => 8
  | TokenType => 3
  | FontStyle => 3
  | Foreground => 9
  | Background => 9
  end.

(** ** Reading a field

    The doc comment of [IGrammar.tokenizeLine2] gives the expression a
    consumer uses:
    [(metadata & MetadataConsts.LANGUAGEID_MASK) >>> MetadataConsts.LANGUAGEID_OFFSET]. *)

Definition get (f : Field) (metadata : Z) : Z :=
  js_ushr (js_and metadata (mask_of f)) (offset_of f).

Record Attributes := {
  languageId : Z;
  tokenType : Z;
  fontStyle : Z;
  foreground : Z;
  background : Z
}.

Definition field (f : Field) (x : Attributes) : Z :=
  match f with
  | LanguageId => languageId x
  | TokenType => tokenType x
  | FontStyle => fontStyle x
  | Foreground => foreground x
  | Background => background x
  end.

Definition unpack (metadata : Z) : Attributes :=
  {| languageId := get LanguageId metadata;
     tokenType := get TokenType metadata;
     fontStyle := get FontStyle metadata;
     foreground := get Foreground metadata;
     background := get Background metadata |}.

(** The mask of a field moved down to bit 0: as many ones as the field is
    wide. *)
Definition low_mask (f : Field) : Z := js_ushr (mask_of f) (offset_of f).

(** Modelled from the spec: the unpacking order of section 4.5, "unpacking
    shifts then masks" (the accessor class of [./grammar] is not part of
    [main.ts]).  The word is shifted down by the field's offset and then
    masked to the field's width. *)
Definition get_shift_then_mask (f : Field) (metadata : Z) : Z :=
  js_and (js_ushr metadata (offset_of f)) (low_mask f).

(** The other reading of "shift, then mask": masking the shifted word with
    the enum's mask itself, which still sits at the field's position. *)
Definition get_shift_then_enum_mask (f : Field) (metadata : Z) : Z :=
  js_and (js_ushr metadata (offset_of f)) (mask_of f).

(** Modelled from the spec: [pack] of section 4.5 (the packing function
    lives in [./grammar], which is not part of [main.ts]).  "Packing masks
    each field to its declared width before shifting"; the fields are then
    or-ed together and the result is made unsigned. *)
Definition place (f : Field) (v : Z) : Z :=
  js_shl (js_and v (low_mask f)) (offset_of f).

Definition pack (x : Attributes) : Z :=
  js_ushr
    (js_or (js_or (js_or (js_or
       (place LanguageId (languageId x))
       (place TokenType (tokenType x)))
       (place FontStyle (fontStyle x)))
       (place Foreground (foreground x)))
       (place Background (background x)))
    0.

(** The domain of the round-trip property. *)
Definition in_range (x : Attributes) : Prop :=
  0 <= languageId x <= 255 /\
  (tokenType x = 0 \/ tokenType x = 1 \/ tokenType x = 2 \/ tokenType x = 4) /\
  0 <= fontStyle x <= 7 /\
  0 <= foreground x <= 511 /\
  0 <= background x <= 511.

Definition set_field (f : Field) (v : Z) (x : Attributes) : Attributes :=
  match f with
  | LanguageId => {| languageId := v; tokenType := tokenType x; fontStyle := fontStyle x;
                     foreground := foreground x; background := background x |}
  | TokenType => {| languageId := languageId x; tokenType := v; fontStyle := fontStyle x;
                    foreground := foreground x; background := background x |}
  | FontStyle => {| languageId := languageId x; tokenType := tokenType x; fontStyle := v;
                    foreground := foreground x; background := background x |}
  | Foreground => {| languageId := languageId x; tokenType := tokenType x; fontStyle := fontStyle x;
                     foreground := v; background := background x |}
  | Background => {| languageId := languageId x; tokenType := tokenType x; fontStyle := fontStyle x;
                     foreground := foreground x; background := v |}
  end.

(** Bit [i] lies in field [f]. *)
Definition covers (f : Field) (i : Z) : bool :=
  (offset_of f <=? i) && (i <? offset_of f + width_of f).

End Metadata.

(* ===================================================================== *)
(** * Part II: the registry                                               *)
(* ===================================================================== *)

(** ** Promises and exceptions

    A [Thenable] is represented by what it settles to.  When it settles is
    not part of the value: the continuation that waits for it is a separate
    step of the scheduler below, which may run late or never. *)

Inductive Thenable (A : Type) : Type :=
| resolves (value : A)
| rejects (reason : string).
Arguments resolves {A} value.
Arguments rejects {A} reason.

(** The result of a synchronous call that may [throw]. *)
Inductive Completion (A : Type) : Type :=
| Return (value : A)
| Throw (message : string).
Arguments Return {A} value.
Arguments Throw {A} message.

(** ** The theme interfaces of [main.ts] *)

Record IRawThemeSetting := {
  setting_name : option string;
  setting_scope : option (string + list string);
  setting_fontStyle : option string;
  setting_foreground : option string;
  setting_background : option string
}.

Record IRawTheme := {
  theme_name : option string;
  theme_settings : list IRawThemeSetting
}.

Definition IEmbeddedLanguagesMap : Type := gmap string Z.
Definition ITokenTypeMap : Type := gmap string Metadata.StandardTokenType.

Record IGrammarConfiguration := {
  configuration_embeddedLanguages : option IEmbeddedLanguagesMap;
  configuration_tokenTypes : option ITokenTypeMap
}.

(** ** What [main.ts] imports from [./grammar] and [./types] *)

Module Grammar.

(** The two dependency classes.  [main.ts] reads [scopeName] of both,
    [include] and [toKey()] of a partial one, builds full ones with [new]
    and tells the two apart with [instanceof]. *)
Record FullScopeDependency := { full_scopeName : string }.
Record PartialScopeDependency := { partial_scopeName : string; include : string }.

Inductive ScopeDependency :=
| Full (dep : FullScopeDependency)
| Partial (dep : PartialScopeDependency).

Definition scopeName (dep : ScopeDependency) : string :=
  match dep with
  | Full d => full_scopeName d
  | Partial d => partial_scopeName d
  end.

#[global] Instance FullScopeDependency_eq_dec : EqDecision FullScopeDependency.
Proof. solve_decision. Defined.
#[global] Instance PartialScopeDependency_eq_dec : EqDecision PartialScopeDependency.
Proof. solve_decision. Defined.
#[global] Instance ScopeDependency_eq_dec : EqDecision ScopeDependency.
Proof. solve_decision. Defined.

(** The parts of the two modules that [main.ts] uses and that are not in
    it: the raw grammar type with its [scopeName] property, the key of a
    partial dependency, and the walk over a grammar's rule tree that finds
    the includes of other scopes (in the whole grammar, or below one named
    rule).  They are parameters of the development. *)
Class GrammarModule := {
  IRawGrammar : Type;
  rawScopeName : IRawGrammar -> string;
  toKey : PartialScopeDependency -> string;
  includesOf : IRawGrammar -> list ScopeDependency;
  includesFrom : IRawGrammar -> string -> list ScopeDependency
}.

(** Modelled from the spec: [ScopeDependencyCollector] of [./grammar]
    (sections 3 and 4.2): an accumulator of the full and the partial
    dependencies found by the scans of one iteration; it "performs no dedup
    itself". *)
Record ScopeDependencyCollector := {
  full : list FullScopeDependency;
  partial : list PartialScopeDependency
}.

Definition new_ScopeDependencyCollector : ScopeDependencyCollector :=
  {| full := []; partial := [] |}.

Definition add (result : ScopeDependencyCollector) (dep : ScopeDependency)
  : ScopeDependencyCollector :=
  match dep with
  | Full d => {| full := full result ++ [d]; partial := partial result |}
  | Partial d => {| full := full result; partial := partial result ++ [d] |}
  end.

(** Modelled from the spec: [collectDependencies] and
    [collectSpecificDependencies] of [./grammar] (the spec's [collectAll]
    and [collectFromRule], section 4.2): each records into the collector
    what the walk finds, the second one walking only what is reachable from
    the named rule. *)
Definition collectDependencies `{GrammarModule}
    (result : ScopeDependencyCollector) (grammar : IRawGrammar)
  : ScopeDependencyCollector :=
  foldl add result (includesOf grammar).

Definition collectSpecificDependencies `{GrammarModule}
    (result : ScopeDependencyCollector) (grammar : IRawGrammar) (include : string)
  : ScopeDependencyCollector :=
  foldl add result (includesFrom grammar include).

End Grammar.

Export Grammar.

(** ** The store: [SyncRegistry] of [./registry] *)

Module SyncRegistry.
Section Store.
Context `{GrammarModule}.

(** Modelled from the spec: the grammar and theme store of section 6.  It
    keeps the raw grammars and the injection lists by scope name and the
    current theme. *)
Record t := {
  _theme : option IRawTheme;
  _rawGrammars : gmap string IRawGrammar;
  _injectionGrammars : gmap string (list string)
}.

Definition create (theme : option IRawTheme) : t :=
  {| _theme := theme; _rawGrammars := ∅; _injectionGrammars := ∅ |}.

Definition setTheme (store : t) (theme : option IRawTheme) : t :=
  {| _theme := theme;
     _rawGrammars := _rawGrammars store;
     _injectionGrammars := _injectionGrammars store |}.

(** Modelled from the spec: [addGrammar(rawGrammar, injections)].  The
    grammar is filed under its own scope name; [main.ts] may pass [false]
    for the injections (here [None]), and then no list is recorded. *)
Definition addGrammar (store : t) (grammar : IRawGrammar)
    (injectionScopeNames : option (list string)) : t :=
  {| _theme := _theme store;
     _rawGrammars := <[rawScopeName grammar := grammar]> (_rawGrammars store);
     _injectionGrammars :=
       match injectionScopeNames with
       | Some l => <[rawScopeName grammar := l]> (_injectionGrammars store)
       | None => _injectionGrammars store
       end |}.

(** Modelled from the spec: [lookup(scopeName) -> GrammarHandle|absent]. *)
Definition lookup (store : t) (scopeName : string) : option IRawGrammar :=
  _rawGrammars store !! scopeName.

(** Modelled from the spec:
    [injections(scopeName) -> sequence<ScopeName>|absent]. *)
Definition injections (store : t) (scopeName : string) : option (list string) :=
  _injectionGrammars store !! scopeName.

(** The handle a caller gets: opaque to [main.ts].  It records the request
    it was built for and the raw grammar the store held for the scope. *)
Record IGrammar := {
  grammar_scopeName : string;
  grammar_rawGrammar : option IRawGrammar;
  grammar_initialLanguage : Z;
  grammar_embeddedLanguages : option IEmbeddedLanguagesMap;
  grammar_tokenTypes : option ITokenTypeMap
}.

(** Modelled from the spec: [grammarForScopeName(scopeName, languageId,
    embeddedLanguages, tokenTypes) -> Future<Grammar>]. *)
Definition grammarForScopeName (store : t) (scopeName : string)
    (initialLanguage : Z) (embeddedLanguages : option IEmbeddedLanguagesMap)
    (tokenTypes : option ITokenTypeMap) : Thenable IGrammar :=
  resolves {| grammar_scopeName := scopeName;
              grammar_rawGrammar := lookup store scopeName;
              grammar_initialLanguage := initialLanguage;
              grammar_embeddedLanguages := embeddedLanguages;
              grammar_tokenTypes := tokenTypes |}.

End Store.
End SyncRegistry.

(** ** [class Registry] *)

Module Registry.
Section Class.
Context `{GrammarModule}.

(** [interface RegistryOptions].  [getOnigLib] is only handed on to the
    store's constructor and is left out. *)
Record RegistryOptions := {
  theme : option IRawTheme;
  loadGrammar : string -> Thenable (option IRawGrammar);
  getInjections : option (string -> list string)
}.


(** The state of one promise made by [_doLoadSingleGrammar]: still waiting
    for the thenable the loader returned for [scopeName], or settled. *)
Inductive PromiseState :=
| pending (scopeName : string) (loading : Thenable (option IRawGrammar))
| fulfilled
| rejected (reason : string).

(** The fields of the class.  [_ensureGrammarCache] is the source's
    [Map<string, Promise<void>>]: a promise is named by its index in
    [promises], the list of the promises [_doLoadSingleGrammar] has made so
    far.  [fetches] is a ghost field: the arguments of the calls to
    [_locator.loadGrammar], oldest first. *)
Record t := {
  _locator : RegistryOptions;
  _syncRegistry : SyncRegistry.t;
  _ensureGrammarCache : gmap string nat;
  promises : list PromiseState;
  fetches : list string
}.

(** [constructor(locator)] *)
Definition new (locator : RegistryOptions) : t :=
  {| _locator := locator;
     _syncRegistry := SyncRegistry.create (theme locator);
     _ensureGrammarCache := ∅;
     promises := [];
     fetches := [] |}.

Definition with_syncRegistry (store : SyncRegistry.t) (r : t) : t :=
  {| _locator := _locator r; _syncRegistry := store;
     _ensureGrammarCache := _ensureGrammarCache r;
     promises := promises r; fetches := fetches r |}.

Definition with_ensureGrammarCache (cache : gmap string nat) (r : t) : t :=
  {| _locator := _locator r; _syncRegistry := _syncRegistry r;
     _ensureGrammarCache := cache;
     promises := promises r; fetches := fetches r |}.

Definition with_promises (ps : list PromiseState) (r : t) : t :=
  {| _locator := _locator r; _syncRegistry := _syncRegistry r;
     _ensureGrammarCache := _ensureGrammarCache r;
     promises := ps; fetches := fetches r |}.

(** [setTheme(theme)] *)
Definition setTheme (theme : IRawTheme) (r : t) : t :=
  with_syncRegistry (SyncRegistry.setTheme (_syncRegistry r) (Some theme)) r.

(** [grammarForScopeName(scopeName, initialLanguage = 0,
    embeddedLanguages = null, tokenTypes = null)] *)
Definition grammarForScopeName (scopeName : string) (initialLanguage : Z)
    (embeddedLanguages : option IEmbeddedLanguagesMap)
    (tokenTypes : option ITokenTypeMap) (r : t) : Thenable SyncRegistry.IGrammar :=
  SyncRegistry.grammarForScopeName (_syncRegistry r) scopeName initialLanguage
    embeddedLanguages tokenTypes.

(** [_doLoadSingleGrammar(scopeName)], up to its [await]: the loader is
    called and the promise of the async function is made. *)
Definition _doLoadSingleGrammar (scopeName : string) (r : t) : nat * t :=
  (length (promises r),
   {| _locator := _locator r; _syncRegistry := _syncRegistry r;
      _ensureGrammarCache := _ensureGrammarCache r;
      promises := promises r ++ [pending scopeName (loadGrammar (_locator r) scopeName)];
      fetches := fetches r ++ [scopeName] |}).

(** [_doLoadSingleGrammar], after its [await]: what runs once the loader's
    thenable of promise [p] has settled.  A grammar that is not [null] is
    registered with the injections of the locator ([false] when the locator
    has no [getInjections]); a rejection of the loader rejects [p]. *)
Definition _doLoadSingleGrammar_resume (p : nat) (r : t) : t :=
  match promises r !! p with
  | Some (pending scopeName (resolves (Some grammar))) =>
      let injections := (fun f => f scopeName) <$> getInjections (_locator r) in
      with_promises (<[p := fulfilled]> (promises r))
        (with_syncRegistry
           (SyncRegistry.addGrammar (_syncRegistry r) grammar injections) r)
  | Some (pending scopeName (resolves None)) =>
      with_promises (<[p := fulfilled]> (promises r)) r
  | Some (pending scopeName (rejects reason)) =>
      with_promises (<[p := rejected reason]> (promises r)) r
  | Some fulfilled | Some (rejected _) | None => r
  end.

(** [_loadSingleGrammar(scopeName)].  The result is the cached promise: the
    promise the [async] wrapper makes on each call only follows it. *)
Definition _loadSingleGrammar (scopeName : string) (r : t) : nat * t :=
  match _ensureGrammarCache r !! scopeName with
  | Some p => (p, r)
  | None =>
      let '(p, r1) := _doLoadSingleGrammar scopeName r in
      (p, with_ensureGrammarCache (<[scopeName := p]> (_ensureGrammarCache r1)) r1)
  end.

(** [q.map(request => this._loadSingleGrammar(request.scopeName))] *)
Fixpoint loadAll (q : list ScopeDependency) (r : t) : list nat * t :=
  match q with
  | [] => ([], r)
  | request :: rest =>
      let '(p, r1) := _loadSingleGrammar (scopeName request) r in
      let '(ps, r2) := loadAll rest r1 in
      (p :: ps, r2)
  end.

Definition no_grammar_message (initialScopeName : string) : string :=
  String.append "No grammar provided for <" (String.append initialScopeName ">").

(** [_collectDependenciesForDep(initialScopeName, result, dep)] *)
Definition _collectDependenciesForDep (store : SyncRegistry.t)
    (initialScopeName : string) (result : ScopeDependencyCollector)
    (dep : ScopeDependency) : Completion ScopeDependencyCollector :=
  match SyncRegistry.lookup store (scopeName dep) with
  | None =>
      if decide (scopeName dep = initialScopeName)
      then Throw (no_grammar_message initialScopeName)
      else Return result
  | Some grammar =>
      let result1 :=
        match dep with
        | Full _ => collectDependencies result grammar
        | Partial d => collectSpecificDependencies result grammar (include d)
        end in
      match SyncRegistry.injections store (scopeName dep) with
      | Some injections =>
          Return (foldl (fun res injection =>
                           add res (Full {| full_scopeName := injection |}))
                        result1 injections)
      | None => Return result1
      end
  end.

(** [for (const dep of q) this._collectDependenciesForDep(initialScopeName, deps, dep)] *)
Fixpoint collectBatch (store : SyncRegistry.t) (initialScopeName : string)
    (deps : ScopeDependencyCollector) (q : list ScopeDependency)
  : Completion ScopeDependencyCollector :=
  match q with
  | [] => Return deps
  | dep :: rest =>
      match _collectDependenciesForDep store initialScopeName deps dep with
      | Throw message => Throw message
      | Return deps1 => collectBatch store initialScopeName deps1 rest
      end
  end.

(** The body of [for (const dep of deps.full)]: the state is
    [seenFullScopeRequests] and [Q]. *)
Definition enqueueFull (st : gset string * list ScopeDependency)
    (dep : FullScopeDependency) : gset string * list ScopeDependency :=
  if decide (full_scopeName dep ∈ st.1) then st
  else ({[full_scopeName dep]} ∪ st.1, st.2 ++ [Full dep]).

(** The body of [for (const dep of deps.partial)]: the state is
    [seenPartialScopeRequests] and [Q]. *)
Definition enqueuePartial (seenFullScopeRequests : gset string)
    (st : gset string * list ScopeDependency)
    (dep : PartialScopeDependency) : gset string * list ScopeDependency :=
  if decide (partial_scopeName dep ∈ seenFullScopeRequests) then st
  else if decide (toKey dep ∈ st.1) then st
  else ({[toKey dep]} ∪ st.1, st.2 ++ [Partial dep]).

(** The local variables of one call of [_loadGrammar] that is suspended at
    its [await Promise.all(...)]; [awaited] are the promises given to
    [Promise.all].  [enqueued] is a ghost variable: every dependency that
    was ever put on [Q], oldest first. *)
Record Frame := {
  initialScopeName : string;
  initialLanguage : Z;
  embeddedLanguages : option IEmbeddedLanguagesMap;
  tokenTypes : option ITokenTypeMap;
  seenFullScopeRequests : gset string;
  seenPartialScopeRequests : gset string;
  q : list ScopeDependency;
  awaited : list nat;
  enqueued : list ScopeDependency
}.

(** One call of [_loadGrammar]: suspended in its loop, or finished with the
    state of the promise it returned (and, as a ghost, what it had put on
    [Q] during its life). *)
Inductive Activation :=
| Suspended (frame : Frame)
| Completed (result : Thenable SyncRegistry.IGrammar) (history : list ScopeDependency).

Definition history_of (a : Activation) : list ScopeDependency :=
  match a with
  | Suspended frame => enqueued frame
  | Completed _ history => history
  end.

(** The state of [Promise.all(awaited)]: [None] while it is pending. *)
Fixpoint promiseAll (heap : list PromiseState) (awaited : list nat)
  : option (Thenable unit) :=
  match awaited with
  | [] => Some (resolves tt)
  | p :: rest =>
      match heap !! p with
      | Some (rejected reason) => Some (rejects reason)
      | Some fulfilled => promiseAll heap rest
      | Some (pending _ _) | None =>
          match promiseAll heap rest with
          | Some (rejects reason) => Some (rejects reason)
          | _ => None
          end
      end
  end.

(** The loop test [while (Q.length > 0)] and what follows it: either the
    statements of the body up to the [await], or the [return]. *)
Definition enterLoop (initialScopeName : string) (initialLanguage : Z)
    (embeddedLanguages : option IEmbeddedLanguagesMap)
    (tokenTypes : option ITokenTypeMap)
    (seenFull seenPartial : gset string) (Q history : list ScopeDependency)
    (r : t) : t * Activation :=
  match Q with
  | [] =>
      (r, Completed (grammarForScopeName initialScopeName initialLanguage
                       embeddedLanguages tokenTypes r) history)
  | _ :: _ =>
      let '(ps, r1) := loadAll Q r in
      (r1, Suspended {| initialScopeName := initialScopeName;
                        initialLanguage := initialLanguage;
                        embeddedLanguages := embeddedLanguages;
                        tokenTypes := tokenTypes;
                        seenFullScopeRequests := seenFull;
                        seenPartialScopeRequests := seenPartial;
                        q := Q;
                        awaited := ps;
                        enqueued := history |})
  end.

(** [_loadGrammar], from its first statement to the first [await]. *)
Definition _loadGrammar (initialScopeName : string) (initialLanguage : Z)
    (embeddedLanguages : option IEmbeddedLanguagesMap)
    (tokenTypes : option ITokenTypeMap) (r : t) : t * Activation :=
  let seenFullScopeRequests : gset string := {[initialScopeName]} in
  let seenPartialScopeRequests : gset string := ∅ in
  let Q := [Full {| full_scopeName := initialScopeName |}] in
  enterLoop initialScopeName initialLanguage embeddedLanguages tokenTypes
    seenFullScopeRequests seenPartialScopeRequests Q Q r.

(** [_loadGrammar], from the [await] of one iteration to the [await] of the
    next one or to the end: it runs when [Promise.all] has settled to
    [settled].  A rejected load or a [throw] of
    [_collectDependenciesForDep] rejects the promise of [_loadGrammar]. *)
Definition _loadGrammar_resume (frame : Frame) (settled : Thenable unit) (r : t)
  : t * Activation :=
  match settled with
  | rejects reason => (r, Completed (rejects reason) (enqueued frame))
  | resolves _ =>
      match collectBatch (_syncRegistry r) (initialScopeName frame)
              new_ScopeDependencyCollector (q frame) with
      | Throw message => (r, Completed (rejects message) (enqueued frame))
      | Return deps =>
          let '(seenFull, Q1) :=
            foldl enqueueFull (seenFullScopeRequests frame, []) (full deps) in
          let '(seenPartial, Q2) :=
            foldl (enqueuePartial seenFull)
                  (seenPartialScopeRequests frame, Q1) (partial deps) in
          enterLoop (initialScopeName frame) (initialLanguage frame)
            (embeddedLanguages frame) (tokenTypes frame)
            seenFull seenPartial Q2 (enqueued frame ++ Q2) r
      end
  end.

(** [loadGrammarWithConfiguration], [loadGrammarWithEmbeddedLanguages] and
    [loadGrammar]. *)
Definition loadGrammarWithConfiguration (initialScopeName : string)
    (initialLanguage : Z) (configuration : IGrammarConfiguration) (r : t)
  : t * Activation :=
  _loadGrammar initialScopeName initialLanguage
    (configuration_embeddedLanguages configuration)
    (configuration_tokenTypes configuration) r.

Definition loadGrammarWithEmbeddedLanguages (initialScopeName : string)
    (initialLanguage : Z) (embeddedLanguages : IEmbeddedLanguagesMap) (r : t)
  : t * Activation :=
  loadGrammarWithConfiguration initialScopeName initialLanguage
    {| configuration_embeddedLanguages := Some embeddedLanguages;
       configuration_tokenTypes := None |} r.

Definition loadGrammar_public (initialScopeName : string) (r : t) : t * Activation :=
  _loadGrammar initialScopeName 0 None None r.

(** [addGrammar(rawGrammar, injections = [], initialLanguage = 0,
    embeddedLanguages = null)] *)
Definition addGrammar (rawGrammar : IRawGrammar) (injections : list string)
    (initialLanguage : Z) (embeddedLanguages : option IEmbeddedLanguagesMap)
    (r : t) : t * Thenable SyncRegistry.IGrammar :=
  let r1 := with_syncRegistry
              (SyncRegistry.addGrammar (_syncRegistry r) rawGrammar (Some injections)) r in
  (r1, grammarForScopeName (rawScopeName rawGrammar) initialLanguage
         embeddedLanguages None r1).

(** ** Running a resolution to its end

    One call of [_loadGrammar] with nothing else going on: whenever it
    waits, the loads it waits for settle in the order of the batch
    ([settleAll]), and it goes on.  [fuel] bounds the number of iterations
    of the [while] loop; when it runs out the call is returned as it is,
    still [Suspended]. *)
Definition settleAll (ps : list nat) (r : t) : t :=
  foldl (fun r p => _doLoadSingleGrammar_resume p r) r ps.

Fixpoint run (fuel : nat) (r : t) (a : Activation) : t * Activation :=
  match a with
  | Completed _ _ => (r, a)
  | Suspended frame =>
      match fuel with
      | O => (r, a)
      | S fuel' =>
          let r1 := settleAll (awaited frame) r in
          match promiseAll (promises r1) (awaited frame) with
          | None => (r1, a)
          | Some settled =>
              let '(r2, a') := _loadGrammar_resume frame settled r1 in
              run fuel' r2 a'
          end
      end
  end.

Definition resolve (fuel : nat) (initialScopeName : string) (initialLanguage : Z)
    (embeddedLanguages : option IEmbeddedLanguagesMap)
    (tokenTypes : option ITokenTypeMap) (r : t) : t * Activation :=
  let '(r1, a) := _loadGrammar initialScopeName initialLanguage
                    embeddedLanguages tokenTypes r in
  run fuel r1 a.

(** The public [loadGrammar(initialScopeName)] run to its end. *)
Definition loadGrammar_run (fuel : nat) (initialScopeName : string) (r : t)
  : t * Activation :=
  let '(r1, a) := loadGrammar_public initialScopeName r in
  run fuel r1 a.

End Class.
End Registry.

(** ** Interleaved use of one registry

    JavaScript runs one piece of code at a time and switches only at an
    [await].  A [World] is a registry with the calls of [_loadGrammar] made
    on it so far; an [Event] is one uninterrupted piece of code: a call of
    a public method (or of [_loadSingleGrammar] itself), the continuation of
    a [_doLoadSingleGrammar] whose loader has settled, or the continuation
    of a [_loadGrammar] whose [Promise.all] has settled.  Any order of
    events is allowed, so every schedule of the real event loop is among
    them. *)

Module Scheduler.
Section Worlds.
Context `{GrammarModule}.

Record World := {
  registry : Registry.t;
  activations : list Registry.Activation
}.

Inductive Event :=
| call_loadGrammar (initialScopeName : string) (initialLanguage : Z)
    (embeddedLanguages : option IEmbeddedLanguagesMap)
    (tokenTypes : option ITokenTypeMap)
| call_addGrammar (rawGrammar : IRawGrammar) (injections : list string)
    (initialLanguage : Z) (embeddedLanguages : option IEmbeddedLanguagesMap)
| call_setTheme (theme : IRawTheme)
| call_loadSingleGrammar (scopeName : string)
| loader_settled (p : nat)
| loads_settled (activation : nat).

Definition create (locator : Registry.RegistryOptions) : World :=
  {| registry := Registry.new locator; activations := [] |}.

Definition step (w : World) (e : Event) : World :=
  match e with
  | call_loadGrammar initialScopeName initialLanguage embeddedLanguages tokenTypes =>
      let '(r, a) := Registry._loadGrammar initialScopeName initialLanguage
                       embeddedLanguages tokenTypes (registry w) in
      {| registry := r; activations := activations w ++ [a] |}
  | call_addGrammar rawGrammar injections initialLanguage embeddedLanguages =>
      {| registry := (Registry.addGrammar rawGrammar injections initialLanguage
                        embeddedLanguages (registry w)).1;
         activations := activations w |}
  | call_setTheme theme =>
      {| registry := Registry.setTheme theme (registry w);
         activations := activations w |}
  | call_loadSingleGrammar scopeName =>
      {| registry := (Registry._loadSingleGrammar scopeName (registry w)).2;
         activations := activations w |}
  | loader_settled p =>
      {| registry := Registry._doLoadSingleGrammar_resume p (registry w);
         activations := activations w |}
  | loads_settled i =>
      match activations w !! i with
      | Some (Registry.Suspended frame) =>
          match Registry.promiseAll (Registry.promises (registry w))
                  (Registry.awaited frame) with
          | Some settled =>
              let '(r, a) := Registry._loadGrammar_resume frame settled (registry w) in
              {| registry := r; activations := <[i := a]> (activations w) |}
          | None => w
          end
      | Some (Registry.Completed _ _) | None => w
      end
  end.

Definition exec (w : World) (events : list Event) : World := foldl step w events.

End Worlds.
End Scheduler.

(** ** Predicates used in the statements below *)

Module Invariants.
Section Predicates.
Context `{GrammarModule}.

(** The cache names exactly the promises that were made, one per scope
    name that was fetched: promise [p] is the one made by the [p]-th call
    of the loader. *)
Definition cache_consistent (r : Registry.t) : Prop :=
  length (Registry.promises r) = length (Registry.fetches r) /\
  forall scope p,
    Registry._ensureGrammarCache r !! scope = Some p <->
    Registry.fetches r !! p = Some scope.

(** A promise that is no longer pending. *)
Definition settled (state : Registry.PromiseState) : Prop :=
  match state with
  | Registry.pending _ _ => False
  | Registry.fulfilled | Registry.rejected _ => True
  end.

(** What never goes away during the life of a registry: the locator, the
    entries of the cache, the calls of the loader already made, the state
    of a settled promise, and the presence of a grammar in the store. *)
Record extends (r r' : Registry.t) : Prop := {
  extends_locator : Registry._locator r' = Registry._locator r;
  extends_cache : forall scope p,
    Registry._ensureGrammarCache r !! scope = Some p ->
    Registry._ensureGrammarCache r' !! scope = Some p;
  extends_fetches : Registry.fetches r `prefix_of` Registry.fetches r';
  extends_promises : (length (Registry.promises r) <= length (Registry.promises r'))%nat;
  extends_settled : forall p state,
    Registry.promises r !! p = Some state -> settled state ->
    Registry.promises r' !! p = Some state;
  extends_store : forall scope,
    is_Some (SyncRegistry.lookup (Registry._syncRegistry r) scope) ->
    is_Some (SyncRegistry.lookup (Registry._syncRegistry r') scope)
}.

(** How the two seen-sets relate to what was put on [Q], oldest first:
    after a full dependency nothing of its scope follows; no two partial
    dependencies have the same key; the sets hold exactly the scopes of the
    full and the keys of the partial dependencies that were enqueued. *)
Record frontier_ok (seenFull seenPartial : gset string)
    (history : list ScopeDependency) : Prop := {
  full_never_again : forall i j d x,
    (i < j)%nat -> history !! i = Some (Full d) -> history !! j = Some x ->
    scopeName x <> full_scopeName d;
  partial_key_once : forall i j d d',
    (i < j)%nat -> history !! i = Some (Partial d) -> history !! j = Some (Partial d') ->
    toKey d' <> toKey d;
  seenFull_history : forall scope,
    scope ∈ seenFull <-> Full {| full_scopeName := scope |} ∈ history;
  seenPartial_history : forall key,
    key ∈ seenPartial <-> exists d, Partial d ∈ history /\ toKey d = key
}.

(** A suspended call and the registry it runs on. *)
Record frame_ok (r : Registry.t) (frame : Registry.Frame) : Prop := {
  frame_frontier :
    frontier_ok (Registry.seenFullScopeRequests frame)
      (Registry.seenPartialScopeRequests frame) (Registry.enqueued frame);
  frame_first :
    Registry.enqueued frame !! 0%nat
      = Some (Full {| full_scopeName := Registry.initialScopeName frame |});
  frame_batch : Registry.q frame `suffix_of` Registry.enqueued frame;
  frame_batch_nonempty : Registry.q frame <> [];
  frame_awaited :
    Forall2 (fun dep p => Registry._ensureGrammarCache r !! scopeName dep = Some p)
      (Registry.q frame) (Registry.awaited frame);
  frame_loaded : forall dep,
    dep ∈ Registry.enqueued frame ->
    is_Some (Registry._ensureGrammarCache r !! scopeName dep)
}.

(** A call, suspended or finished, and the registry it ran on. *)
Definition activation_ok (r : Registry.t) (a : Registry.Activation) : Prop :=
  match a with
  | Registry.Suspended frame => frame_ok r frame
  | Registry.Completed _ history =>
      (exists seenFull seenPartial, frontier_ok seenFull seenPartial history) /\
      forall dep, dep ∈ history ->
        is_Some (Registry._ensureGrammarCache r !! scopeName dep)
  end.

(** A finite universe of dependencies: [U] bounds a registry when the walk
    over any grammar the registry holds or its loader can supply finds
    only dependencies of [U], and every injection scope is in [U] as a
    full dependency. *)
Definition grammar_within (U : list ScopeDependency) (g : IRawGrammar) : Prop :=
  (forall d, d ∈ includesOf g -> d ∈ U) /\
  (forall rule d, d ∈ includesFrom g rule -> d ∈ U).

Definition injections_within (U : list ScopeDependency) (l : list string) : Prop :=
  forall scope, scope ∈ l -> Full {| full_scopeName := scope |} ∈ U.

Definition collector_within (U : list ScopeDependency) (c : ScopeDependencyCollector) : Prop :=
  (forall d, d ∈ full c -> Full d ∈ U) /\ (forall d, d ∈ partial c -> Partial d ∈ U).

Record bounded_by (U : list ScopeDependency) (r : Registry.t) : Prop := {
  bounded_store_grammars : forall scope g,
    SyncRegistry.lookup (Registry._syncRegistry r) scope = Some g -> grammar_within U g;
  bounded_store_injections : forall scope l,
    SyncRegistry.injections (Registry._syncRegistry r) scope = Some l ->
    injections_within U l;
  bounded_loader : forall scope g,
    Registry.loadGrammar (Registry._locator r) scope = resolves (Some g) ->
    grammar_within U g;
  bounded_getInjections : forall f scope,
    Registry.getInjections (Registry._locator r) = Some f ->
    injections_within U (f scope);
  bounded_pending : forall p scope g,
    Registry.promises r !! p = Some (Registry.pending scope (resolves (Some g))) ->
    grammar_within U g
}.



(** A loader whose thenables always resolve, and a registry none of whose
    promises is or will be rejected. *)
Definition never_rejects (locator : Registry.RegistryOptions) : Prop :=
  forall scope, exists value, Registry.loadGrammar locator scope = resolves value.

Definition no_rejection (r : Registry.t) : Prop :=
  never_rejects (Registry._locator r) /\
  forall p state,
    Registry.promises r !! p = Some state ->
    match state with
    | Registry.rejected _ | Registry.pending _ (rejects _) => False
    | Registry.fulfilled | Registry.pending _ (resolves _) => True
    end.


(** A world in which the cache and every call are in order. *)
Definition world_ok (w : Scheduler.World) : Prop :=
  cache_consistent (Scheduler.registry w) /\
  forall i a, Scheduler.activations w !! i = Some a ->
              activation_ok (Scheduler.registry w) a.

End Predicates.
End Invariants.

(** ** Test grammars

    A small concrete instance of the parameters, used to run the model: a
    grammar is its scope name, the includes of other scopes found in the
    whole grammar, and those found below each named rule. *)

Module Fixture.

Record TestGrammar := {
  test_scopeName : string;
  test_includes : list ScopeDependency;
  test_rules : list (string * list ScopeDependency)
}.

Definition test_includesFrom (g : TestGrammar) (rule : string) : list ScopeDependency :=
  match list_find (fun entry => entry.1 = rule) (test_rules g) with
  | Some (_, (_, deps)) => deps
  | None => []
  end.

Definition test_module : GrammarModule :=
  {| IRawGrammar := TestGrammar;
     rawScopeName := test_scopeName;
     toKey := fun dep => String.append (partial_scopeName dep)
                           (String.append "#" (include dep));
     includesOf := test_includes;
     includesFrom := test_includesFrom |}.

#[local] Existing Instance test_module.

Definition whole (scope : string) : ScopeDependency :=
  Full {| full_scopeName := scope |}.
Definition rule_of (scope rule : string) : ScopeDependency :=
  Partial {| partial_scopeName := scope; include := rule |}.

(** A locator over a finite list of grammars; [injections] lists the
    injection scopes per scope name. *)
Definition locator_of (grammars : list TestGrammar)
    (injections : option (list (string * list string))) : Registry.RegistryOptions :=
  {| Registry.theme := None;
     Registry.loadGrammar := fun scope =>
       resolves (snd <$> list_find (fun g => test_scopeName g = scope) grammars);
     Registry.getInjections :=
       (fun table scope =>
          match list_find (fun entry => entry.1 = scope) table with
          | Some (_, (_, l)) => l
          | None => []
          end) <$> injections |}.

(** The scenario of the specification's section 8. *)
Definition source_a : TestGrammar :=
  {| test_scopeName := "source.a";
     test_includes := [whole "source.b"; rule_of "source.c" "stringRule"];
     test_rules := [] |}.
Definition source_b : TestGrammar :=
  {| test_scopeName := "source.b"; test_includes := []; test_rules := [] |}.
Definition source_c : TestGrammar :=
  {| test_scopeName := "source.c"; test_includes := [];
     test_rules := [("stringRule", [])] |}.
Definition source_d : TestGrammar :=
  {| test_scopeName := "source.d"; test_includes := []; test_rules := [] |}.

Definition scenario_locator : Registry.RegistryOptions :=
  locator_of [source_a; source_b; source_c; source_d]
             (Some [("source.c", ["source.d"])]).

(** Two grammars that include each other. *)
Definition cycle_a : TestGrammar :=
  {| test_scopeName := "A"; test_includes := [whole "B"]; test_rules := [] |}.
Definition cycle_b : TestGrammar :=
  {| test_scopeName := "B"; test_includes := [whole "A"]; test_rules := [] |}.
Definition cycle_locator : Registry.RegistryOptions :=
  locator_of [cycle_a; cycle_b] None.

(** A checkable form of "the walk over [g] stays inside [U]". *)
Definition test_within (U : list ScopeDependency) (g : TestGrammar) : bool :=
  forallb (fun d => bool_decide (d ∈ U)) (test_includes g) &&
  forallb (fun entry => forallb (fun d => bool_decide (d ∈ U)) entry.2) (test_rules g).

Definition table_within (U : list ScopeDependency)
    (table : list (string * list string)) : bool :=
  forallb (fun entry =>
             forallb (fun scope => bool_decide (Full {| full_scopeName := scope |} ∈ U))
                     entry.2)
          table.

(** The universe of the two scenarios. *)
Definition scenario_universe : list ScopeDependency :=
  [whole "source.b"; rule_of "source.c" "stringRule"; whole "source.d"].

Definition cycle_universe : list ScopeDependency := [whole "A"; whole "B"].

(** A locator that knows [source.a] only: what it includes is missing. *)
Definition lonely_locator : Registry.RegistryOptions := locator_of [source_a] None.

(** Two grammars that declare the same injection scope. *)
Definition shared_injection_locator : Registry.RegistryOptions :=
  locator_of
    [ {| test_scopeName := "x"; test_includes := [whole "y"]; test_rules := [] |};
      {| test_scopeName := "y"; test_includes := []; test_rules := [] |};
      {| test_scopeName := "inj"; test_includes := []; test_rules := [] |} ]
    (Some [("x", ["inj"]); ("y", ["inj"])]).

(** Three overlapping calls on the scenario's registry, two of them for the
    same scope, with the continuations run in a mixed order. *)
Definition overlapping_calls : list Scheduler.Event :=
  [ Scheduler.call_loadGrammar "source.a" 0 None None;
    Scheduler.call_loadGrammar "source.a" 0 None None;
    Scheduler.call_loadSingleGrammar "source.a";
    Scheduler.call_loadGrammar "source.c" 0 None None;
    Scheduler.loader_settled 0; Scheduler.loads_settled 1;
    Scheduler.loader_settled 1; Scheduler.loads_settled 0;
    Scheduler.loads_settled 2; Scheduler.loader_settled 2;
    Scheduler.loads_settled 0; Scheduler.loads_settled 1;
    Scheduler.loads_settled 2; Scheduler.loader_settled 3;
    Scheduler.loads_settled 0; Scheduler.loads_settled 1;
    Scheduler.loads_settled 2 ].


End Fixture.

(** ** Further predicates and test data *)

Module Outcomes.
Section Definitions.
Context `{GrammarModule}.

(** The load of [scope] has finished without error: its cached promise is
    fulfilled. *)
Definition loaded (r : Registry.t) (scope : string) : Prop :=
  exists p,
    Registry._ensureGrammarCache r !! scope = Some p /\
    Registry.promises r !! p = Some Registry.fulfilled.

(** Two frames that agree on everything but the configuration
    ([initialLanguage], [embeddedLanguages], [tokenTypes]). *)
Definition same_frontier (f f' : Registry.Frame) : Prop :=
  Registry.initialScopeName f = Registry.initialScopeName f' /\
  Registry.seenFullScopeRequests f = Registry.seenFullScopeRequests f' /\
  Registry.seenPartialScopeRequests f = Registry.seenPartialScopeRequests f' /\
  Registry.q f = Registry.q f' /\
  Registry.awaited f = Registry.awaited f' /\
  Registry.enqueued f = Registry.enqueued f'.

(** Two results that agree on everything but the configuration the handle
    carries. *)
Definition same_result (res res' : Thenable SyncRegistry.IGrammar) : Prop :=
  match res, res' with
  | rejects reason, rejects reason' => reason = reason'
  | resolves g, resolves g' =>
      SyncRegistry.grammar_scopeName g = SyncRegistry.grammar_scopeName g' /\
      SyncRegistry.grammar_rawGrammar g = SyncRegistry.grammar_rawGrammar g'
  | _, _ => False
  end.

Definition same_up_to_configuration (a a' : Registry.Activation) : Prop :=
  match a, a' with
  | Registry.Suspended f, Registry.Suspended f' => same_frontier f f'
  | Registry.Completed res h, Registry.Completed res' h' =>
      same_result res res' /\ h = h'
  | _, _ => False
  end.

(** What a call has enqueued is loaded, except for the batch it is waiting
    for; a call that resolved has everything loaded. *)
Definition activation_loaded (r : Registry.t) (a : Registry.Activation) : Prop :=
  match a with
  | Registry.Suspended f =>
      forall dep, dep ∈ Registry.enqueued f ->
                  dep ∈ Registry.q f \/ loaded r (scopeName dep)
  | Registry.Completed (resolves _) history =>
      forall dep, dep ∈ history -> loaded r (scopeName dep)
  | Registry.Completed (rejects _) _ => True
  end.

(** Every promise is the promise of one call of the loader and shows what
    the loader's thenable settled to: a pending one waits for that
    thenable, a rejected one has the thenable's reason, and a fulfilled
    one belongs to a thenable that resolved, with the grammar it gave (if
    any) in the store under the grammar's own scope name. *)
Definition promise_faithful (r : Registry.t) : Prop :=
  length (Registry.promises r) = length (Registry.fetches r) /\
  forall p state,
    Registry.promises r !! p = Some state ->
    exists scope,
      Registry.fetches r !! p = Some scope /\
      match state with
      | Registry.pending scope' loading =>
          scope' = scope /\
          loading = Registry.loadGrammar (Registry._locator r) scope
      | Registry.fulfilled =>
          exists value,
            Registry.loadGrammar (Registry._locator r) scope = resolves value /\
            forall g, value = Some g ->
              is_Some (SyncRegistry.lookup (Registry._syncRegistry r) (rawScopeName g))
      | Registry.rejected reason =>
          Registry.loadGrammar (Registry._locator r) scope = rejects reason
      end.

(** Why a call was rejected: the load of one of the dependencies it had
    enqueued was rejected with that reason, or it is the message for a
    missing grammar of the scope it was called for. *)
Definition rejection_cause (r : Registry.t) (reason : string)
    (history : list ScopeDependency) : Prop :=
  (exists dep p,
     dep ∈ history /\
     Registry._ensureGrammarCache r !! scopeName dep = Some p /\
     Registry.promises r !! p = Some (Registry.rejected reason)) \/
  (exists init,
     history !! 0%nat = Some (Full {| full_scopeName := init |}) /\
     reason = Registry.no_grammar_message init).

Definition activation_explained (r : Registry.t) (a : Registry.Activation) : Prop :=
  match a with
  | Registry.Completed (rejects reason) history => rejection_cause r reason history
  | _ => True
  end.

(** The scope names given to [_loadSingleGrammar] directly, and the scope
    names a world's calls of [_loadGrammar] have asked for. *)
Definition direct_loads (events : list Scheduler.Event) : list string :=
  omap (fun e => match e with
                 | Scheduler.call_loadSingleGrammar scope => Some scope
                 | _ => None
                 end) events.

Definition requested (w : Scheduler.World) (scope : string) : Prop :=
  exists i a dep,
    Scheduler.activations w !! i = Some a /\
    dep ∈ Registry.history_of a /\ scopeName dep = scope.

(** The configuration a handle was made with. *)
Definition configured_with (handle : SyncRegistry.IGrammar) (initialLanguage : Z)
    (embeddedLanguages : option IEmbeddedLanguagesMap)
    (tokenTypes : option ITokenTypeMap) : Prop :=
  SyncRegistry.grammar_initialLanguage handle = initialLanguage /\
  SyncRegistry.grammar_embeddedLanguages handle = embeddedLanguages /\
  SyncRegistry.grammar_tokenTypes handle = tokenTypes.

(** The other two public entry points, run to their end. *)
Definition loadGrammarWithConfiguration_run (fuel : nat) (initialScopeName : string)
    (initialLanguage : Z) (configuration : IGrammarConfiguration) (r : Registry.t)
  : Registry.t * Registry.Activation :=
  let '(r1, a) := Registry.loadGrammarWithConfiguration initialScopeName initialLanguage
                    configuration r in
  Registry.run fuel r1 a.

Definition loadGrammarWithEmbeddedLanguages_run (fuel : nat) (initialScopeName : string)
    (initialLanguage : Z) (embeddedLanguages : IEmbeddedLanguagesMap) (r : Registry.t)
  : Registry.t * Registry.Activation :=
  let '(r1, a) := Registry.loadGrammarWithEmbeddedLanguages initialScopeName
                    initialLanguage embeddedLanguages r in
  Registry.run fuel r1 a.

End Definitions.
End Outcomes.

Module MoreFixture.
Import Fixture.
#[local] Existing Instance test_module.

(** A locator whose loader fails for every scope. *)
Definition failing_locator : Registry.RegistryOptions :=
  {| Registry.theme := None;
     Registry.loadGrammar := fun _ => rejects "network down";
     Registry.getInjections := None |}.

(** One call on it, run until it has failed. *)
Definition failed_once : list Scheduler.Event :=
  [ Scheduler.call_loadGrammar "source.a" 0 None None;
    Scheduler.loader_settled 0; Scheduler.loads_settled 0 ].

(** A locator whose loader answers every request with [source.b]. *)
Definition misnaming_locator : Registry.RegistryOptions :=
  {| Registry.theme := None;
     Registry.loadGrammar := fun _ => resolves (Some source_b);
     Registry.getInjections := None |}.



End MoreFixture.

(* ===================================================================== *)
(** * Part III: properties of the metadata word                           *)
(* ===================================================================== *)

Module MetadataFacts.
Import Metadata.

(** ** Bits of the 32-bit operators *)

Lemma ToInt32_mod (x : Z) : ToInt32 x mod 2 ^ 32 = x mod 2 ^ 32.
Proof.
  unfold ToInt32.
  rewrite Zminus_mod, Zmod_mod, <- Zminus_mod.
  replace (x + 2 ^ 31 - 2 ^ 31) with x by lia.
  reflexivity.
Qed.

Lemma ToInt32_testbit (x i : Z) :
  0 <= i < 32 -> Z.testbit (ToInt32 x) i = Z.testbit x i.
Proof.
  intros Hi.
  rewrite <- (Z.mod_pow2_bits_low (ToInt32 x) 32 i) by lia.
  rewrite ToInt32_mod.
  apply Z.mod_pow2_bits_low; lia.
Qed.

(** Above bit 31 a signed 32-bit value repeats its sign bit. *)
Lemma ToInt32_testbit_high (x i : Z) :
  31 <= i -> Z.testbit (ToInt32 x) i = Z.testbit x 31.
Proof.
  intros Hi.
  rewrite <- (Z.mod_pow2_bits_low x 32 31) by lia.
  unfold ToInt32.
  pose proof (Z.mod_pos_bound x (2 ^ 32) ltac:(lia)) as Hu.
  set (u := x mod 2 ^ 32) in *.
  destruct (Z.ltb_spec u (2 ^ 31)) as [Hlow | Hhigh].
  - replace ((x + 2 ^ 31) mod 2 ^ 32) with (u + 2 ^ 31).
    + replace (u + 2 ^ 31 - 2 ^ 31) with u by lia.
      destruct (Z.eq_dec u 0) as [-> | Hnz]; [now rewrite !Z.bits_0 |].
      assert (Hlog : Z.log2 u < 31) by (apply Z.log2_lt_pow2; lia).
      rewrite !Z.bits_above_log2 by lia. reflexivity.
    + subst u. rewrite Zplus_mod.
      rewrite (Z.mod_small (2 ^ 31) (2 ^ 32)) by lia.
      symmetry; apply Z.mod_small; lia.
  - replace ((x + 2 ^ 31) mod 2 ^ 32) with (u - 2 ^ 31).
    + rewrite Z.bits_above_log2_neg.
      * symmetry. rewrite Z.testbit_eqb by lia.
        replace (u / 2 ^ 31) with 1; [reflexivity |].
        apply Z.div_unique with (r := u - 2 ^ 31); lia.
      * lia.
      * destruct (Z.eq_dec (Z.pred (- (u - 2 ^ 31 - 2 ^ 31))) 0) as [E | Hnz].
        -- rewrite E. change (Z.log2 0) with 0. lia.
        -- apply Z.lt_le_trans with 31; [| lia].
           apply Z.log2_lt_pow2; lia.
    + subst u. rewrite Zplus_mod.
      rewrite (Z.mod_small (2 ^ 31) (2 ^ 32)) by lia.
      apply Z.mod_unique with (q := 1); lia.
Qed.

Lemma ToInt32_land (a b : Z) :
  Z.land (ToInt32 a) (ToInt32 b) = ToInt32 (Z.land a b).
Proof.
  apply Z.bits_inj'. intros i Hi.
  rewrite Z.land_spec.
  destruct (Z.ltb_spec i 31) as [Hlt | Hge].
  - rewrite !ToInt32_testbit, Z.land_spec by lia. reflexivity.
  - rewrite !ToInt32_testbit_high, Z.land_spec by lia. reflexivity.
Qed.

Lemma ToUint32_testbit (x i : Z) :
  Z.testbit (ToUint32 x) i = (i <? 32) && Z.testbit x i.
Proof. unfold ToUint32. apply Z.testbit_mod_pow2. lia. Qed.

Lemma ToUint32_range (x : Z) : 0 <= ToUint32 x < 2 ^ 32.
Proof. unfold ToUint32. apply Z.mod_pos_bound. lia. Qed.

Lemma shift_count (n : Z) : 0 <= n < 32 -> ToUint32 n mod 32 = n.
Proof.
  intros Hn. unfold ToUint32.
  rewrite (Z.mod_small n (2 ^ 32)) by lia.
  apply Z.mod_small; lia.
Qed.

Lemma js_and_testbit (a b i : Z) :
  0 <= i < 32 -> Z.testbit (js_and a b) i = Z.testbit a i && Z.testbit b i.
Proof.
  intros Hi. unfold js_and.
  rewrite Z.land_spec, !ToInt32_testbit by lia. reflexivity.
Qed.

Lemma js_or_testbit (a b i : Z) :
  0 <= i < 32 -> Z.testbit (js_or a b) i = Z.testbit a i || Z.testbit b i.
Proof.
  intros Hi. unfold js_or.
  rewrite Z.lor_spec, !ToInt32_testbit by lia. reflexivity.
Qed.

Lemma js_shl_testbit (a n i : Z) :
  0 <= n < 32 -> 0 <= i < 32 ->
  Z.testbit (js_shl a n) i = (n <=? i) && Z.testbit a (i - n).
Proof.
  intros Hn Hi. unfold js_shl.
  rewrite ToInt32_testbit, shift_count, Z.shiftl_spec by lia.
  destruct (Z.leb_spec n i) as [Hle | Hlt]; simpl.
  - apply ToInt32_testbit; lia.
  - apply Z.testbit_neg_r; lia.
Qed.

Lemma js_ushr_testbit (a n i : Z) :
  0 <= n < 32 -> 0 <= i ->
  Z.testbit (js_ushr a n) i = (i + n <? 32) && Z.testbit a (i + n).
Proof.
  intros Hn Hi. unfold js_ushr.
  rewrite shift_count, Z.shiftr_spec, ToUint32_testbit by lia.
  reflexivity.
Qed.

Lemma js_ushr_range (a n : Z) : 0 <= n < 32 -> 0 <= js_ushr a n < 2 ^ 32.
Proof.
  intros Hn. unfold js_ushr. rewrite shift_count by lia.
  pose proof (ToUint32_range a) as Ha.
  rewrite Z.shiftr_div_pow2 by lia.
  assert (Hp : 1 <= 2 ^ n) by (apply (Z.pow_le_mono_r 2 0 n); lia).
  split.
  - apply Z.div_pos; lia.
  - apply Z.div_lt_upper_bound; [lia |].
    apply Z.lt_le_trans with (1 * 2 ^ 32); [lia |].
    apply Z.mul_le_mono_nonneg_r; lia.
Qed.

(** ** The layout of the masks *)

Ltac unfold_layout :=
  unfold offset_of, width_of, LANGUAGEID_OFFSET, TOKEN_TYPE_OFFSET,
    FONT_STYLE_OFFSET, FOREGROUND_OFFSET, BACKGROUND_OFFSET in *.

Lemma offset_range (f : Field) : 0 <= offset_of f < 32.
Proof. destruct f; unfold_layout; lia. Qed.

Lemma width_range (f : Field) : 0 < width_of f /\ offset_of f + width_of f <= 32.
Proof. destruct f; unfold_layout; lia. Qed.

Lemma mask_shape (f : Field) :
  mask_of f = Z.shiftl (Z.ones (width_of f)) (offset_of f).
Proof. destruct f; reflexivity. Qed.

Lemma mask_testbit (f : Field) (i : Z) :
  Z.testbit (mask_of f) i = (offset_of f <=? i) && (i <? offset_of f + width_of f).
Proof.
  destruct (Z.ltb_spec i 0) as [Hneg | Hi].
  - rewrite Z.testbit_neg_r by assumption.
    pose proof (offset_range f).
    destruct (Z.leb_spec (offset_of f) i); [lia | reflexivity].
  - rewrite mask_shape, Z.shiftl_spec by assumption.
    pose proof (offset_range f). pose proof (width_range f).
    rewrite Z.testbit_ones by lia.
    destruct (Z.leb_spec (offset_of f) i), (Z.leb_spec 0 (i - offset_of f)),
      (Z.ltb_spec (i - offset_of f) (width_of f)),
      (Z.ltb_spec i (offset_of f + width_of f)); simpl; try reflexivity; lia.
Qed.

Lemma low_mask_ones (f : Field) : low_mask f = Z.ones (width_of f).
Proof. destruct f; reflexivity. Qed.

(** Case analysis on every comparison of bit positions in the goal. *)
Ltac split_positions :=
  repeat match goal with
  | |- context [Z.leb ?a ?b] => destruct (Z.leb_spec a b)
  | |- context [Z.ltb ?a ?b] => destruct (Z.ltb_spec a b)
  end;
  simpl; rewrite ?andb_false_r, ?orb_false_r, ?andb_true_r; simpl;
  try lia; try reflexivity; try (f_equal; lia).

(** ** Bits of a packed word *)

Lemma place_testbit (f : Field) (v i : Z) :
  0 <= i < 32 ->
  Z.testbit (place f v) i = covers f i && Z.testbit v (i - offset_of f).
Proof.
  intros Hi. unfold place, covers.
  pose proof (offset_range f). pose proof (width_range f).
  rewrite js_shl_testbit by lia.
  destruct (Z.leb_spec (offset_of f) i) as [Hle | Hlt]; simpl; [| reflexivity].
  rewrite js_and_testbit, low_mask_ones, Z.testbit_ones by lia.
  split_positions.
Qed.

Lemma pack_testbit (x : Attributes) (i : Z) :
  0 <= i ->
  Z.testbit (pack x) i =
    (i <? 32) &&
    (covers LanguageId i && Z.testbit (languageId x) (i - offset_of LanguageId)
     || covers TokenType i && Z.testbit (tokenType x) (i - offset_of TokenType)
     || covers FontStyle i && Z.testbit (fontStyle x) (i - offset_of FontStyle)
     || covers Foreground i && Z.testbit (foreground x) (i - offset_of Foreground)
     || covers Background i && Z.testbit (background x) (i - offset_of Background)).
Proof.
  intros Hi. unfold pack.
  rewrite js_ushr_testbit by lia.
  replace (i + 0) with i by lia.
  destruct (Z.ltb_spec i 32) as [Hlt | Hge]; simpl; [| reflexivity].
  rewrite !js_or_testbit, !place_testbit by lia.
  reflexivity.
Qed.

Lemma pack_range (x : Attributes) : 0 <= pack x < 2 ^ 32.
Proof. unfold pack. apply js_ushr_range. lia. Qed.

Lemma get_testbit (f : Field) (w i : Z) :
  0 <= i ->
  Z.testbit (get f w) i = (i <? width_of f) && Z.testbit w (i + offset_of f).
Proof.
  intros Hi. unfold get.
  pose proof (offset_range f). pose proof (width_range f).
  rewrite js_ushr_testbit by lia.
  destruct (Z.ltb_spec (i + offset_of f) 32) as [Hlt | Hge]; simpl.
  - rewrite js_and_testbit, mask_testbit by lia.
    split_positions.
  - split_positions.
Qed.

Lemma get_shift_then_mask_testbit (f : Field) (w i : Z) :
  0 <= i ->
  Z.testbit (get_shift_then_mask f w) i =
    (i <? width_of f) && Z.testbit w (i + offset_of f).
Proof.
  intros Hi. unfold get_shift_then_mask.
  pose proof (offset_range f). pose proof (width_range f).
  destruct (Z.ltb_spec i 32) as [Hlt | Hge].
  - rewrite js_and_testbit, js_ushr_testbit, low_mask_ones, Z.testbit_ones by lia.
    split_positions.
  - unfold js_and. rewrite Z.land_spec.
    replace (Z.testbit (ToInt32 (low_mask f)) i) with false.
    + split_positions.
    + replace (ToInt32 (low_mask f)) with (Z.ones (width_of f))
        by (destruct f; reflexivity).
      symmetry; apply Z.ones_spec_high; lia.
Qed.

(** Both readings of a field agree on every word. *)
Lemma get_shift_then_mask_eq (f : Field) (w : Z) :
  get_shift_then_mask f w = get f w.
Proof.
  apply Z.bits_inj'. intros i Hi.
  rewrite get_shift_then_mask_testbit, get_testbit by lia. reflexivity.
Qed.

(** What a field of a packed word reads: the input reduced to the field's
    width, whatever the other four inputs are. *)
Lemma get_pack (f : Field) (x : Attributes) :
  get f (pack x) = field f x mod 2 ^ width_of f.
Proof.
  apply Z.bits_inj'. intros i Hi.
  pose proof (width_range f) as [Hw _].
  rewrite get_testbit, Z.testbit_mod_pow2 by lia.
  destruct (Z.ltb_spec i (width_of f)) as [Hlt | Hge]; simpl; [| reflexivity].
  pose proof (offset_range f).
  rewrite pack_testbit by lia.
  unfold covers.
  destruct f; unfold field; unfold_layout; split_positions.
Qed.

Lemma land_pack_set_field (f g : Field) (v : Z) (x : Attributes) :
  f <> g ->
  Z.land (pack (set_field f v x)) (mask_of g) = Z.land (pack x) (mask_of g).
Proof.
  intros Hfg. apply Z.bits_inj'. intros i Hi.
  rewrite !Z.land_spec, !pack_testbit, mask_testbit by lia.
  unfold covers.
  destruct f, g; try congruence; unfold set_field; cbn [languageId tokenType
    fontStyle foreground background]; unfold_layout; split_positions.
Qed.

Lemma mod_small_le (v n : Z) : 0 <= v <= 2 ^ n - 1 -> v mod 2 ^ n = v.
Proof. intros Hv. apply Z.mod_small. lia. Qed.

(** A literal reading of "shift by the offset, then mask with the enum's
    mask" does not read the token type back: the mask sits at bits 8-10
    while the shifted field sits at bits 0-2. *)
Example get_shift_then_enum_mask_loses_token_type :
  get_shift_then_enum_mask TokenType
    (pack {| languageId := 1; tokenType := 2; fontStyle := 0;
             foreground := 1; background := 2 |}) = 0.
Proof. reflexivity. Qed.

(** C6.  The enum fixes the layout of the word: the five masks and offsets
    have the stated values; the set bits of each mask are exactly bits 0-7
    (language id), 8-10 (token type), 11-13 (font style), 14-22 (foreground)
    and 23-31 (background), that is 8, 3, 3, 9 and 9 bits starting at the
    field's offset; two different masks share no bit, and together the five
    masks are the 32 bits of the word. *)
Theorem metadata_consts_layout :
  (LANGUAGEID_MASK = 0xFF /\ TOKEN_TYPE_MASK = 0x700 /\ FONT_STYLE_MASK = 0x3800 /\
   FOREGROUND_MASK = 0x7FC000 /\ BACKGROUND_MASK = 0xFF800000) /\
  (LANGUAGEID_OFFSET = 0 /\ TOKEN_TYPE_OFFSET = 8 /\ FONT_STYLE_OFFSET = 11 /\
   FOREGROUND_OFFSET = 14 /\ BACKGROUND_OFFSET = 23) /\
  (forall i, Z.testbit LANGUAGEID_MASK i = true <-> 0 <= i <= 7) /\
  (forall i, Z.testbit TOKEN_TYPE_MASK i = true <-> 8 <= i <= 10) /\
  (forall i, Z.testbit FONT_STYLE_MASK i = true <-> 11 <= i <= 13) /\
  (forall i, Z.testbit FOREGROUND_MASK i = true <-> 14 <= i <= 22) /\
  (forall i, Z.testbit BACKGROUND_MASK i = true <-> 23 <= i <= 31) /\
  (forall f, mask_of f = Z.shiftl (2 ^ width_of f - 1) (offset_of f)) /\
  (forall f g, f <> g -> Z.land (mask_of f) (mask_of g) = 0) /\
  Z.lor LANGUAGEID_MASK
    (Z.lor TOKEN_TYPE_MASK
       (Z.lor FONT_STYLE_MASK (Z.lor FOREGROUND_MASK BACKGROUND_MASK))) = 2 ^ 32 - 1.
Proof.
  assert (Hbits : forall f i,
    Z.testbit (mask_of f) i = true <->
    offset_of f <= i <= offset_of f + width_of f - 1).
  { intros f i. rewrite mask_testbit.
    rewrite andb_true_iff, Z.leb_le, Z.ltb_lt. lia. }
  split; [repeat split |].
  split; [repeat split |].
  split; [exact (Hbits LanguageId) |].
  split; [exact (Hbits TokenType) |].
  split; [exact (Hbits FontStyle) |].
  split; [exact (Hbits Foreground) |].
  split; [exact (Hbits Background) |].
  split; [intros f; destruct f; reflexivity |].
  split; [| reflexivity].
  intros f g Hfg. destruct f, g; try congruence; reflexivity.
Qed.

(** C5.  Round trip.  For a language id in 0..255, a token type among 0, 1,
    2 and 4, a font style in 0..7 and colour indices in 0..511, reading the
    five fields of the packed word gives the five inputs back; this holds
    for the accessor of the source ([(w & MASK) >>> OFFSET]) and for the
    shift-then-mask order alike.  The packed word is an unsigned 32-bit
    number. *)
Theorem metadata_round_trip (x : Attributes) :
  in_range x ->
  unpack (pack x) = x /\
  (forall f, get_shift_then_mask f (pack x) = field f x) /\
  0 <= pack x < 2 ^ 32.
Proof.
  intros (Hl & Ht & Hf & Hfg & Hbg).
  assert (Hget : forall f, get f (pack x) = field f x).
  { intros f. rewrite get_pack.
    destruct f; unfold field, width_of; apply Z.mod_small; lia. }
  split; [| split].
  - unfold unpack. rewrite !Hget. destruct x; reflexivity.
  - intros f. rewrite get_shift_then_mask_eq. apply Hget.
  - apply pack_range.
Qed.

Lemma metadata_round_trip_witness :
  let x := {| languageId := 200; tokenType := 4; fontStyle := 5;
              foreground := 300; background := 511 |} in
  in_range x /\ unpack (pack x) = x.
Proof.
  intros x. split.
  - unfold in_range, x; cbn; lia.
  - apply (metadata_round_trip x). unfold in_range, x; cbn; lia.
Defined.

(** C7.  Packing keeps an input inside its own field.  Replacing the value
    of one field [f] by any integer [v], in range or not, leaves the bits of
    the word under the mask of every other field [g] as they were; the
    field [f] itself reads [v] reduced to its width. *)
Theorem pack_field_isolated (f g : Field) (v : Z) (x : Attributes) :
  f <> g ->
  js_and (pack (set_field f v x)) (mask_of g) = js_and (pack x) (mask_of g) /\
  get g (pack (set_field f v x)) = get g (pack x) /\
  get f (pack (set_field f v x)) = v mod 2 ^ width_of f.
Proof.
  intros Hfg.
  assert (Hand : js_and (pack (set_field f v x)) (mask_of g)
                 = js_and (pack x) (mask_of g)).
  { unfold js_and. rewrite !ToInt32_land. f_equal.
    apply land_pack_set_field, Hfg. }
  split; [exact Hand |].
  split.
  - unfold get. rewrite Hand. reflexivity.
  - rewrite get_pack. destruct f; reflexivity.
Qed.

(** The example of the specification: a language id of 300. *)
Lemma pack_field_isolated_witness :
  let x := {| languageId := 44; tokenType := 2; fontStyle := 7;
              foreground := 511; background := 256 |} in
  LanguageId <> TokenType /\
  js_and (pack (set_field LanguageId 300 x)) (mask_of TokenType)
    = js_and (pack x) (mask_of TokenType) /\
  get TokenType (pack (set_field LanguageId 300 x)) = get TokenType (pack x) /\
  get LanguageId (pack (set_field LanguageId 300 x)) = 300 mod 2 ^ width_of LanguageId.
Proof.
  intros x.
  assert (Hne : LanguageId <> TokenType) by discriminate.
  split; [exact Hne |].
  exact (pack_field_isolated LanguageId TokenType 300 x Hne).
Defined.

End MetadataFacts.

(* ===================================================================== *)
(** * Part IV: properties of the registry                                 *)
(* ===================================================================== *)

Module RegistryFacts.
Import Invariants.
Section Facts.
Context `{GrammarModule}.

Implicit Types (r : Registry.t) (scope : string) (p : nat).

(** ** The load cache *)

Lemma cache_consistent_new locator : cache_consistent (Registry.new locator).
Proof.
  split; [reflexivity |].
  intros scope p. cbn. rewrite lookup_empty, lookup_nil. split; discriminate.
Qed.

Lemma cache_consistent_lt r scope p :
  cache_consistent r ->
  Registry._ensureGrammarCache r !! scope = Some p ->
  (p < length (Registry.promises r))%nat.
Proof.
  intros [Hlen Hiff] Hp. rewrite Hlen.
  apply lookup_lt_is_Some. exists scope. by apply Hiff.
Qed.

(** A hit: nothing changes. *)
Lemma _loadSingleGrammar_hit r scope p :
  Registry._ensureGrammarCache r !! scope = Some p ->
  Registry._loadSingleGrammar scope r = (p, r).
Proof. intros Hp. unfold Registry._loadSingleGrammar. by rewrite Hp. Qed.

(** A miss: the loader is called once, and its pending promise is in the
    cache when the call returns. *)
Lemma _loadSingleGrammar_miss r scope :
  Registry._ensureGrammarCache r !! scope = None ->
  Registry._loadSingleGrammar scope r =
    (length (Registry.promises r),
     {| Registry._locator := Registry._locator r;
        Registry._syncRegistry := Registry._syncRegistry r;
        Registry._ensureGrammarCache :=
          <[scope := length (Registry.promises r)]> (Registry._ensureGrammarCache r);
        Registry.promises :=
          Registry.promises r ++
            [Registry.pending scope (Registry.loadGrammar (Registry._locator r) scope)];
        Registry.fetches := Registry.fetches r ++ [scope] |}).
Proof. intros Hp. unfold Registry._loadSingleGrammar. by rewrite Hp. Qed.

Lemma cache_consistent_loadSingleGrammar r scope :
  cache_consistent r ->
  cache_consistent (Registry._loadSingleGrammar scope r).2.
Proof.
  intros Hc.
  destruct (Registry._ensureGrammarCache r !! scope) as [p |] eqn:Hp.
  - by rewrite (_loadSingleGrammar_hit _ _ _ Hp).
  - rewrite (_loadSingleGrammar_miss _ _ Hp). cbn.
    destruct Hc as [Hlen Hiff]. split; cbn.
    + rewrite !length_app. cbn. lia.
    + intros s q. rewrite Hlen.
      destruct (decide (scope = s)) as [<- | Hne].
      * rewrite lookup_insert_eq. split.
        -- intros [= <-]. by rewrite lookup_app_r, Nat.sub_diag.
        -- intros Hq. f_equal.
           destruct (decide (q < length (Registry.fetches r))%nat) as [Hlt | Hge].
           ++ rewrite lookup_app_l in Hq by done.
              apply Hiff in Hq. congruence.
           ++ apply lookup_lt_Some in Hq. rewrite length_app in Hq. cbn in Hq. lia.
      * rewrite lookup_insert_ne by done. rewrite Hiff. split.
        -- intros Hq. rewrite lookup_app_l; [done | by eapply lookup_lt_Some].
        -- intros Hq.
           destruct (decide (q < length (Registry.fetches r))%nat) as [Hlt | Hge].
           ++ by rewrite lookup_app_l in Hq.
           ++ rewrite lookup_app_r in Hq by lia.
              apply list_lookup_singleton_Some in Hq as [_ ?]. congruence.
Qed.

(** ** What a step keeps *)

Lemma extends_refl r : extends r r.
Proof. by split. Qed.

Lemma extends_trans r1 r2 r3 : extends r1 r2 -> extends r2 r3 -> extends r1 r3.
Proof.
  intros [] []. split; try (etrans; eassumption); eauto.
Qed.

Lemma extends_loadSingleGrammar r scope :
  cache_consistent r -> extends r (Registry._loadSingleGrammar scope r).2.
Proof.
  intros Hc.
  destruct (Registry._ensureGrammarCache r !! scope) as [p |] eqn:Hp.
  - rewrite (_loadSingleGrammar_hit _ _ _ Hp). apply extends_refl.
  - rewrite (_loadSingleGrammar_miss _ _ Hp). split; cbn; try done.
    + intros s q Hq. rewrite lookup_insert_ne; [done | congruence].
    + by apply prefix_app_r.
    + rewrite length_app. lia.
    + intros q state Hq _. rewrite lookup_app_l; [done | by eapply lookup_lt_Some].
Qed.

Lemma _doLoadSingleGrammar_resume_fields p r :
  let r' := Registry._doLoadSingleGrammar_resume p r in
  Registry._locator r' = Registry._locator r /\
  Registry._ensureGrammarCache r' = Registry._ensureGrammarCache r /\
  Registry.fetches r' = Registry.fetches r /\
  length (Registry.promises r') = length (Registry.promises r).
Proof.
  unfold Registry._doLoadSingleGrammar_resume.
  destruct (Registry.promises r !! p) as [[s [[g |] | e] | | e] |];
    cbn; rewrite ?length_insert; done.
Qed.

Lemma cache_consistent_resume p r :
  cache_consistent r -> cache_consistent (Registry._doLoadSingleGrammar_resume p r).
Proof.
  intros [Hlen Hiff].
  destruct (_doLoadSingleGrammar_resume_fields p r) as (_ & Hcache & Hf & Hl).
  split.
  - by rewrite Hl, Hf.
  - intros s q. by rewrite Hcache, Hf.
Qed.

Lemma lookup_addGrammar_is_Some (store : SyncRegistry.t) g inj scope :
  is_Some (SyncRegistry.lookup store scope) ->
  is_Some (SyncRegistry.lookup (SyncRegistry.addGrammar store g inj) scope).
Proof.
  unfold SyncRegistry.lookup. cbn. intros Hs.
  destruct (decide (rawScopeName g = scope)) as [<- | Hne].
  - rewrite lookup_insert_eq. eauto.
  - by rewrite lookup_insert_ne.
Qed.

Lemma extends_resume p r : extends r (Registry._doLoadSingleGrammar_resume p r).
Proof.
  destruct (_doLoadSingleGrammar_resume_fields p r) as (Hloc & Hcache & Hf & Hl).
  split.
  - done.
  - intros s q. by rewrite Hcache.
  - by rewrite Hf.
  - by rewrite Hl.
  - intros q state Hq Hset. unfold Registry._doLoadSingleGrammar_resume.
    destruct (Registry.promises r !! p) as [[s [[g |] | e] | | e] |] eqn:Hp; cbn; try done.
    all: destruct (decide (p = q)) as [-> | Hne];
      [rewrite Hp in Hq; injection Hq as <-; done
      | by rewrite list_lookup_insert_ne].
  - intros s Hs. unfold Registry._doLoadSingleGrammar_resume.
    destruct (Registry.promises r !! p) as [[s' [[g |] | e] | | e] |]; cbn; try done.
    by apply lookup_addGrammar_is_Some.
Qed.

(** After its continuation has run, a promise is settled. *)
Lemma resume_settles p r :
  (p < length (Registry.promises r))%nat ->
  exists state,
    Registry.promises (Registry._doLoadSingleGrammar_resume p r) !! p = Some state /\
    settled state.
Proof.
  intros Hlt. unfold Registry._doLoadSingleGrammar_resume.
  destruct (lookup_lt_is_Some_2 _ _ Hlt) as [state Hstate]. rewrite Hstate.
  destruct state as [s [[g |] | e] | | e]; cbn.
  - exists Registry.fulfilled. by rewrite list_lookup_insert_eq.
  - exists Registry.fulfilled. by rewrite list_lookup_insert_eq.
  - exists (Registry.rejected e). by rewrite list_lookup_insert_eq.
  - exists Registry.fulfilled. done.
  - exists (Registry.rejected e). done.
Qed.

Lemma cache_consistent_settleAll ps r :
  cache_consistent r -> cache_consistent (Registry.settleAll ps r).
Proof.
  revert r. induction ps as [| p ps IH]; intros r Hc; [done |].
  cbn. apply IH. by apply cache_consistent_resume.
Qed.

Lemma extends_settleAll ps r : extends r (Registry.settleAll ps r).
Proof.
  revert r. induction ps as [| p ps IH]; intros r; [apply extends_refl |].
  cbn. eapply extends_trans; [apply extends_resume | apply IH].
Qed.

Lemma settleAll_settles ps r p :
  p ∈ ps -> (p < length (Registry.promises r))%nat ->
  exists state,
    Registry.promises (Registry.settleAll ps r) !! p = Some state /\ settled state.
Proof.
  revert r. induction ps as [| q ps IH]; intros r Hin Hlt; [by apply elem_of_nil in Hin |].
  cbn. destruct (decide (p = q)) as [-> | Hne].
  - destruct (resume_settles q r Hlt) as (state & Hstate & Hset).
    exists state. split; [| done].
    by apply (extends_settled _ _ (extends_settleAll ps _)).
  - apply elem_of_cons in Hin as [? | Hin]; [done |].
    apply IH; [done |].
    by destruct (_doLoadSingleGrammar_resume_fields q r) as (_ & _ & _ & ->).
Qed.

(** ** A batch of loads *)

Lemma loadAll_spec (q : list ScopeDependency) r :
  cache_consistent r ->
  cache_consistent (Registry.loadAll q r).2 /\
  extends r (Registry.loadAll q r).2 /\
  Registry._syncRegistry (Registry.loadAll q r).2 = Registry._syncRegistry r /\
  Forall2 (fun dep p =>
             Registry._ensureGrammarCache (Registry.loadAll q r).2 !! scopeName dep = Some p)
          q (Registry.loadAll q r).1.
Proof.
  revert r. induction q as [| dep q IH]; intros r Hc; cbn.
  - split; [done |]. split; [apply extends_refl |]. split; [done | constructor].
  - pose proof (cache_consistent_loadSingleGrammar r (scopeName dep) Hc) as Hc1.
    pose proof (extends_loadSingleGrammar r (scopeName dep) Hc) as He1.
    assert (Hstore1 : Registry._syncRegistry (Registry._loadSingleGrammar (scopeName dep) r).2
                      = Registry._syncRegistry r).
    { unfold Registry._loadSingleGrammar.
      by destruct (Registry._ensureGrammarCache r !! scopeName dep). }
    assert (Hp1 : Registry._ensureGrammarCache
                    (Registry._loadSingleGrammar (scopeName dep) r).2 !! scopeName dep
                  = Some (Registry._loadSingleGrammar (scopeName dep) r).1).
    { unfold Registry._loadSingleGrammar.
      destruct (Registry._ensureGrammarCache r !! scopeName dep) eqn:E; cbn; [done |].
      by rewrite lookup_insert_eq. }
    destruct (Registry._loadSingleGrammar (scopeName dep) r) as [p r1]. cbn in *.
    destruct (IH r1 Hc1) as (Hc2 & He2 & Hstore2 & Hall).
    destruct (Registry.loadAll q r1) as [ps r2]. cbn in *.
    split; [done |]. split; [by eapply extends_trans |].
    split; [congruence |].
    constructor; [| done]. by apply (extends_cache _ _ He2).
Qed.

Lemma loadAll_awaited_lt (q : list ScopeDependency) r p :
  cache_consistent r ->
  p ∈ (Registry.loadAll q r).1 ->
  (p < length (Registry.promises (Registry.loadAll q r).2))%nat.
Proof.
  intros Hc Hin.
  destruct (loadAll_spec q r Hc) as (Hc' & _ & _ & Hall).
  apply list_elem_of_lookup in Hin as [i Hi].
  destruct (Forall2_lookup_r _ _ _ _ _ Hall Hi) as (dep & _ & Hdep).
  by eapply cache_consistent_lt.
Qed.

(** ** [Promise.all] *)

Lemma promiseAll_settled (heap : list Registry.PromiseState) (ps : list nat) :
  (forall p, p ∈ ps -> exists state, heap !! p = Some state /\ settled state) ->
  is_Some (Registry.promiseAll heap ps).
Proof.
  induction ps as [| p ps IH]; intros Hall; cbn; [eauto |].
  destruct (Hall p) as (state & -> & Hset); [left |].
  destruct state as [| |e]; [done | | eauto].
  apply IH. intros p' Hp'. apply Hall. by right.
Qed.

Lemma promiseAll_rejects (heap : list Registry.PromiseState) (ps : list nat) reason :
  Registry.promiseAll heap ps = Some (rejects reason) ->
  exists p, p ∈ ps /\ heap !! p = Some (Registry.rejected reason).
Proof.
  induction ps as [| p ps IH]; cbn; [done |].
  destruct (heap !! p) as [[| |e] |] eqn:Hp.
  - destruct (Registry.promiseAll heap ps) as [[|e] |]; [done | | done].
    intros [= ->]. destruct IH as (p' & ? & ?); [done |]. exists p'. split; [by right | done].
  - intros Hr. destruct (IH Hr) as (p' & ? & ?). exists p'. split; [by right | done].
  - intros [= ->]. exists p. split; [left | done].
  - destruct (Registry.promiseAll heap ps) as [[|e] |]; [done | | done].
    intros [= ->]. destruct IH as (p' & ? & ?); [done |]. exists p'. split; [by right | done].
Qed.

(** ** The steps of [_loadGrammar] *)

Lemma enterLoop_spec init lang emb tt (seenFull seenPartial : gset string)
    (Q history : list ScopeDependency) r :
  cache_consistent r ->
  let r' := (Registry.enterLoop init lang emb tt seenFull seenPartial Q history r).1 in
  cache_consistent r' /\ extends r r' /\
  Registry._syncRegistry r' = Registry._syncRegistry r.
Proof.
  intros Hc. unfold Registry.enterLoop.
  destruct Q as [| dep Q]; cbn.
  - split; [done |]. split; [apply extends_refl | done].
  - destruct (loadAll_spec (dep :: Q) r Hc) as (Hc' & He & Hs & _).
    cbn in Hc', He, Hs.
    destruct (Registry._loadSingleGrammar (scopeName dep) r) as [p r1].
    destruct (Registry.loadAll Q r1) as [ps r2]. done.
Qed.

Lemma _loadGrammar_spec init lang emb tt r :
  cache_consistent r ->
  let r' := (Registry._loadGrammar init lang emb tt r).1 in
  cache_consistent r' /\ extends r r' /\
  Registry._syncRegistry r' = Registry._syncRegistry r.
Proof. intros Hc. by apply enterLoop_spec. Qed.

Lemma _loadGrammar_resume_spec frame outcome r :
  cache_consistent r ->
  let r' := (Registry._loadGrammar_resume frame outcome r).1 in
  cache_consistent r' /\ extends r r' /\
  Registry._syncRegistry r' = Registry._syncRegistry r.
Proof.
  intros Hc. unfold Registry._loadGrammar_resume.
  destruct outcome as [[] | e]; cbn.
  2: { split; [done |]. split; [apply extends_refl | done]. }
  destruct (Registry.collectBatch _ _ _ _) as [deps | msg]; cbn.
  2: { split; [done |]. split; [apply extends_refl | done]. }
  destruct (foldl Registry.enqueueFull _ _) as [seenFull Q1].
  destruct (foldl (Registry.enqueuePartial seenFull) _ _) as [seenPartial Q2].
  by apply enterLoop_spec.
Qed.

Lemma addGrammar_spec g inj lang emb r :
  cache_consistent r ->
  cache_consistent (Registry.addGrammar g inj lang emb r).1 /\
  extends r (Registry.addGrammar g inj lang emb r).1.
Proof.
  intros Hc. split; [done |].
  split; cbn; try done.
  intros s Hs. by apply lookup_addGrammar_is_Some.
Qed.

Lemma setTheme_spec theme r :
  cache_consistent r ->
  cache_consistent (Registry.setTheme theme r) /\ extends r (Registry.setTheme theme r).
Proof. intros Hc. split; [done |]. by split. Qed.

(** ** Every schedule keeps the cache consistent *)

Lemma step_spec (w : Scheduler.World) (e : Scheduler.Event) :
  cache_consistent (Scheduler.registry w) ->
  cache_consistent (Scheduler.registry (Scheduler.step w e)) /\
  extends (Scheduler.registry w) (Scheduler.registry (Scheduler.step w e)).
Proof.
  intros Hc.
  destruct e as [init lang emb tt | g inj lang emb | theme | scope | p | i];
    unfold Scheduler.step.
  - destruct (_loadGrammar_spec init lang emb tt _ Hc) as (? & ? & _).
    by destruct (Registry._loadGrammar init lang emb tt (Scheduler.registry w)).
  - by apply addGrammar_spec.
  - by apply setTheme_spec.
  - split; [by apply cache_consistent_loadSingleGrammar | by apply extends_loadSingleGrammar].
  - split; [by apply cache_consistent_resume | apply extends_resume].
  - destruct (Scheduler.activations w !! i) as [[frame | result history] |];
      [| split; [done | apply extends_refl] ..].
    destruct (Registry.promiseAll _ _) as [outcome |];
      [| split; [done | apply extends_refl]].
    destruct (_loadGrammar_resume_spec frame outcome _ Hc) as (? & ? & _).
    by destruct (Registry._loadGrammar_resume frame outcome (Scheduler.registry w)).
Qed.

Lemma exec_spec (w : Scheduler.World) (events : list Scheduler.Event) :
  cache_consistent (Scheduler.registry w) ->
  cache_consistent (Scheduler.registry (Scheduler.exec w events)) /\
  extends (Scheduler.registry w) (Scheduler.registry (Scheduler.exec w events)).
Proof.
  revert w. induction events as [| e events IH]; intros w Hc; cbn.
  - split; [done | apply extends_refl].
  - destruct (step_spec w e Hc) as [Hc1 He1].
    destruct (IH _ Hc1) as [Hc2 He2].
    split; [done | by eapply extends_trans].
Qed.

Lemma exec_app (w : Scheduler.World) (events more : list Scheduler.Event) :
  Scheduler.exec w (events ++ more) = Scheduler.exec (Scheduler.exec w events) more.
Proof. unfold Scheduler.exec. apply foldl_app. Qed.

Lemma cache_consistent_NoDup r : cache_consistent r -> NoDup (Registry.fetches r).
Proof.
  intros [_ Hiff]. apply NoDup_alt. intros i j scope Hi Hj.
  apply Hiff in Hi, Hj. congruence.
Qed.

Lemma reachable_spec locator (events : list Scheduler.Event) :
  let r := Scheduler.registry (Scheduler.exec (Scheduler.create locator) events) in
  cache_consistent r /\ Registry._locator r = locator.
Proof.
  destruct (exec_spec (Scheduler.create locator) events (cache_consistent_new locator))
    as [Hc He].
  split; [done |]. by rewrite (extends_locator _ _ He).
Qed.

(** C1.  On a registry made by [new Registry(locator)] and used in any way
    (any number of calls of the public methods and of [_loadSingleGrammar],
    their continuations interleaved in any order), for every scope name:
    the loader has been called for it at most once; the cache holds a
    promise for it exactly when it was fetched, and it is the promise of
    that fetch; from then on every call of [_loadSingleGrammar] returns
    that same promise and changes nothing, however much happens in
    between; the first call calls the loader once and returns with the
    still pending promise already in the cache and the store untouched;
    and a promise that has settled keeps its state. *)
Theorem loader_called_at_most_once
    (locator : Registry.RegistryOptions) (events : list Scheduler.Event)
    (scope : string) :
  let w := Scheduler.exec (Scheduler.create locator) events in
  let r := Scheduler.registry w in
  (forall i j,
     Registry.fetches r !! i = Some scope ->
     Registry.fetches r !! j = Some scope -> i = j) /\
  (forall p,
     Registry._ensureGrammarCache r !! scope = Some p <->
     Registry.fetches r !! p = Some scope) /\
  (forall p,
     Registry._ensureGrammarCache r !! scope = Some p ->
     forall more,
       let r' := Scheduler.registry (Scheduler.exec w more) in
       Registry._loadSingleGrammar scope r' = (p, r')) /\
  (Registry._ensureGrammarCache r !! scope = None ->
     let p := (Registry._loadSingleGrammar scope r).1 in
     let r1 := (Registry._loadSingleGrammar scope r).2 in
     Registry.fetches r1 = Registry.fetches r ++ [scope] /\
     Registry._ensureGrammarCache r1 !! scope = Some p /\
     Registry.promises r1 !! p
       = Some (Registry.pending scope (Registry.loadGrammar locator scope)) /\
     Registry._syncRegistry r1 = Registry._syncRegistry r) /\
  (forall p state,
     Registry.promises r !! p = Some state -> settled state ->
     forall more,
       Registry.promises (Scheduler.registry (Scheduler.exec w more)) !! p = Some state).
Proof.
  intros w r.
  destruct (reachable_spec locator events) as [Hc Hloc]. fold w r in Hc, Hloc.
  split; [| split; [| split; [| split]]].
  - intros i j Hi Hj.
    by apply (proj1 (NoDup_alt _) (cache_consistent_NoDup r Hc) i j scope).
  - intros p. apply Hc.
  - intros p Hp more r'.
    destruct (exec_spec w more Hc) as [_ He].
    apply _loadSingleGrammar_hit. by apply (extends_cache _ _ He).
  - intros Hmiss p r1. subst p r1.
    rewrite (_loadSingleGrammar_miss r scope Hmiss). cbn.
    split; [done |]. split; [by rewrite lookup_insert_eq |].
    split; [| done].
    rewrite lookup_app_r, Nat.sub_diag by done. cbn. by rewrite Hloc.
  - intros p state Hp Hset more.
    destruct (exec_spec w more Hc) as [_ He].
    by apply (extends_settled _ _ He).
Qed.

(** ** The two filtering loops *)

Lemma frontier_ok_snoc_full (seenFull seenPartial : gset string)
    (history : list ScopeDependency) (d : FullScopeDependency) :
  frontier_ok seenFull seenPartial history ->
  full_scopeName d ∉ seenFull ->
  frontier_ok ({[full_scopeName d]} ∪ seenFull) seenPartial (history ++ [Full d]).
Proof.
  intros [Hfull Hpart HseenF HseenP] Hnew. split.
  - intros i j d0 x Hij Hi Hj.
    destruct (decide (j < length history)%nat) as [Hlt | Hge].
    + rewrite lookup_app_l in Hi by lia. rewrite lookup_app_l in Hj by lia. eauto.
    + assert (Hi' : history !! i = Some (Full d0)).
      { apply lookup_lt_Some in Hj. rewrite length_app in Hj. cbn in Hj.
        rewrite lookup_app_l in Hi by lia. done. }
      rewrite lookup_app_r in Hj by lia.
      apply list_lookup_singleton_Some in Hj as [_ <-]. cbn.
      intros Heq. apply Hnew. apply HseenF. rewrite Heq.
      destruct d0. by eapply list_elem_of_lookup_2.
  - intros i j d0 d' Hij Hi Hj.
    destruct (decide (j < length history)%nat) as [Hlt | Hge].
    + rewrite lookup_app_l in Hi by lia. rewrite lookup_app_l in Hj by lia. eauto.
    + rewrite lookup_app_r in Hj by lia.
      by apply list_lookup_singleton_Some in Hj as [_ ?].
  - intros scope. rewrite elem_of_union, elem_of_singleton, elem_of_app, list_elem_of_singleton.
    rewrite HseenF. destruct d as [s]. cbn. split.
    + intros [-> | ?]; [by right | by left].
    + intros [? | [= ->]]; [by right | by left].
  - intros key. rewrite HseenP. split.
    + intros (d0 & Hd0 & Hk). exists d0. split; [| done]. apply elem_of_app. by left.
    + intros (d0 & Hd0 & Hk). exists d0. split; [| done].
      apply elem_of_app in Hd0 as [? | Hd0]; [done |].
      by apply list_elem_of_singleton in Hd0.
Qed.

Lemma frontier_ok_snoc_partial (seenFull seenPartial : gset string)
    (history : list ScopeDependency) (d : PartialScopeDependency) :
  frontier_ok seenFull seenPartial history ->
  partial_scopeName d ∉ seenFull ->
  toKey d ∉ seenPartial ->
  frontier_ok seenFull ({[toKey d]} ∪ seenPartial) (history ++ [Partial d]).
Proof.
  intros [Hfull Hpart HseenF HseenP] HnewF HnewP. split.
  - intros i j d0 x Hij Hi Hj.
    destruct (decide (j < length history)%nat) as [Hlt | Hge].
    + rewrite lookup_app_l in Hi by lia. rewrite lookup_app_l in Hj by lia. eauto.
    + assert (Hi' : history !! i = Some (Full d0)).
      { apply lookup_lt_Some in Hj. rewrite length_app in Hj. cbn in Hj.
        rewrite lookup_app_l in Hi by lia. done. }
      rewrite lookup_app_r in Hj by lia.
      apply list_lookup_singleton_Some in Hj as [_ <-]. cbn.
      intros Heq. apply HnewF. apply HseenF. rewrite Heq.
      destruct d0. by eapply list_elem_of_lookup_2.
  - intros i j d0 d' Hij Hi Hj.
    destruct (decide (j < length history)%nat) as [Hlt | Hge].
    + rewrite lookup_app_l in Hi by lia. rewrite lookup_app_l in Hj by lia. eauto.
    + assert (Hi' : history !! i = Some (Partial d0)).
      { apply lookup_lt_Some in Hj. rewrite length_app in Hj. cbn in Hj.
        rewrite lookup_app_l in Hi by lia. done. }
      rewrite lookup_app_r in Hj by lia.
      apply list_lookup_singleton_Some in Hj as [_ [= <-]].
      intros Heq. apply HnewP. apply HseenP. exists d0.
      split; [by eapply list_elem_of_lookup_2 | done].
  - intros scope. rewrite HseenF, elem_of_app, list_elem_of_singleton. split.
    + by left.
    + by intros [? | ?].
  - intros key. rewrite elem_of_union, elem_of_singleton, HseenP. split.
    + intros [-> | (d0 & Hd0 & Hk)].
      * exists d. split; [| done]. apply elem_of_app. right. by apply list_elem_of_singleton.
      * exists d0. split; [| done]. apply elem_of_app. by left.
    + intros (d0 & Hd0 & Hk).
      apply elem_of_app in Hd0 as [Hd0 | Hd0].
      * right. by exists d0.
      * apply list_elem_of_singleton in Hd0 as [= <-]. by left.
Qed.

Lemma foldl_enqueueFull_spec (h : list ScopeDependency) (seenPartial seen0 : gset string)
    (l : list FullScopeDependency) :
  forall (seen : gset string) (Q : list ScopeDependency),
    frontier_ok seen seenPartial (h ++ Q) ->
    seen0 ⊆ seen ->
    (forall x, x ∈ Q -> exists d, x = Full d /\ full_scopeName d ∉ seen0) ->
    let res := foldl Registry.enqueueFull (seen, Q) l in
    frontier_ok res.1 seenPartial (h ++ (res.2)) /\
    seen ⊆ res.1 /\
    (forall x, x ∈ res.2 ->
       exists d, x = Full d /\ (full_scopeName d ∉ seen0) /\ (x ∈ Q \/ d ∈ l)) /\
    (forall d, d ∈ l -> full_scopeName d ∈ res.1).
Proof.
  induction l as [| d l IH]; intros seen Q Hok Hsub HQ; cbn.
  - split; [done |]. split; [done |]. split.
    + intros x Hx. destruct (HQ x Hx) as (d & -> & ?). exists d. auto.
    + intros d Hd. by apply elem_of_nil in Hd.
  - destruct (decide (full_scopeName d ∈ seen)) as [Hseen | Hnew].
    + assert (E : Registry.enqueueFull (seen, Q) d = (seen, Q))
        by (unfold Registry.enqueueFull; cbn; by rewrite decide_True).
      rewrite E.
      destruct (IH seen Q Hok Hsub HQ) as (Hok' & Hsub' & HQ' & Hl').
      split; [done |]. split; [done |]. split.
      * intros x Hx. destruct (HQ' x Hx) as (d0 & -> & ? & Hor).
        exists d0. split; [done |]. split; [done |].
        destruct Hor as [? | ?]; [by left | right; by right].
      * intros d0 Hd0. apply elem_of_cons in Hd0 as [-> | Hd0]; [| by apply Hl'].
        by apply Hsub'.
    + assert (E : Registry.enqueueFull (seen, Q) d
                  = ({[full_scopeName d]} ∪ seen, Q ++ [Full d]))
        by (unfold Registry.enqueueFull; cbn; by rewrite decide_False).
      rewrite E.
      assert (Hok1 : frontier_ok ({[full_scopeName d]} ∪ seen) seenPartial
                       (h ++ (Q ++ [Full d]))).
      { rewrite app_assoc. by apply frontier_ok_snoc_full. }
      assert (Hsub1 : seen0 ⊆ ({[full_scopeName d]} ∪ seen)) by (intros y Hy; apply elem_of_union; right; by apply Hsub).
      assert (HQ1 : forall x, x ∈ Q ++ [Full d] ->
                      exists d0, x = Full d0 /\ full_scopeName d0 ∉ seen0).
      { intros x Hx. apply elem_of_app in Hx as [Hx | Hx]; [by apply HQ |].
        apply list_elem_of_singleton in Hx as ->. exists d. split; [done | intros Hy; apply Hnew; by apply Hsub]. }
      destruct (IH _ _ Hok1 Hsub1 HQ1) as (Hok' & Hsub' & HQ' & Hl').
      split; [done |]. split; [intros y Hy; apply Hsub', elem_of_union; by right |]. split.
      * intros x Hx. destruct (HQ' x Hx) as (d0 & -> & ? & Hor).
        exists d0. split; [done |]. split; [done |].
        destruct Hor as [Hor | ?]; [| right; by right].
        apply elem_of_app in Hor as [? | Hor]; [by left |].
        apply list_elem_of_singleton in Hor as [= ->]. right. by left.
      * intros d0 Hd0. apply elem_of_cons in Hd0 as [-> | Hd0]; [| by apply Hl'].
        apply Hsub', elem_of_union. left. by apply elem_of_singleton.
Qed.

Lemma foldl_enqueuePartial_spec (h : list ScopeDependency) (seenFull seen0 : gset string)
    (l : list PartialScopeDependency) :
  forall (seen : gset string) (Q : list ScopeDependency),
    frontier_ok seenFull seen (h ++ Q) ->
    seen0 ⊆ seen ->
    let res := foldl (Registry.enqueuePartial seenFull) (seen, Q) l in
    frontier_ok seenFull res.1 (h ++ (res.2)) /\
    seen ⊆ res.1 /\
    (forall x, x ∈ res.2 ->
       x ∈ Q \/
       exists d, x = Partial d /\ d ∈ l /\
                 (partial_scopeName d ∉ seenFull) /\ (toKey d ∉ seen0)) /\
    (forall d, d ∈ l -> partial_scopeName d ∈ seenFull \/ toKey d ∈ res.1).
Proof.
  induction l as [| d l IH]; intros seen Q Hok Hsub; cbn.
  - split; [done |]. split; [done |]. split; [by left |].
    intros d Hd. by apply elem_of_nil in Hd.
  - destruct (decide (partial_scopeName d ∈ seenFull)) as [HseenF | HnewF];
      [| destruct (decide (toKey d ∈ seen)) as [HseenP | HnewP]].
    + assert (E : Registry.enqueuePartial seenFull (seen, Q) d = (seen, Q))
        by (unfold Registry.enqueuePartial; cbn; by rewrite decide_True).
      rewrite E.
      destruct (IH seen Q Hok Hsub) as (Hok' & Hsub' & HQ' & Hl').
      split; [done |]. split; [done |]. split.
      * intros x Hx. destruct (HQ' x Hx) as [? | (d0 & -> & ? & ? & ?)]; [by left |].
        right. exists d0. split; [done |]. split; [by right | done].
      * intros d0 Hd0. apply elem_of_cons in Hd0 as [-> | Hd0]; [by left | by apply Hl'].
    + assert (E : Registry.enqueuePartial seenFull (seen, Q) d = (seen, Q))
        by (unfold Registry.enqueuePartial; cbn;
            by rewrite decide_False, decide_True).
      rewrite E.
      destruct (IH seen Q Hok Hsub) as (Hok' & Hsub' & HQ' & Hl').
      split; [done |]. split; [done |]. split.
      * intros x Hx. destruct (HQ' x Hx) as [? | (d0 & -> & ? & ? & ?)]; [by left |].
        right. exists d0. split; [done |]. split; [by right | done].
      * intros d0 Hd0. apply elem_of_cons in Hd0 as [-> | Hd0]; [| by apply Hl'].
        right. by apply Hsub'.
    + assert (E : Registry.enqueuePartial seenFull (seen, Q) d
                  = ({[toKey d]} ∪ seen, Q ++ [Partial d]))
        by (unfold Registry.enqueuePartial; cbn; by rewrite !decide_False).
      rewrite E.
      assert (Hok1 : frontier_ok seenFull ({[toKey d]} ∪ seen) (h ++ (Q ++ [Partial d]))).
      { rewrite app_assoc. by apply frontier_ok_snoc_partial. }
      assert (Hsub1 : seen0 ⊆ ({[toKey d]} ∪ seen)) by (intros y Hy; apply elem_of_union; right; by apply Hsub).
      destruct (IH _ _ Hok1 Hsub1) as (Hok' & Hsub' & HQ' & Hl').
      split; [done |]. split; [intros y Hy; apply Hsub', elem_of_union; by right |]. split.
      * intros x Hx. destruct (HQ' x Hx) as [Hx' | (d0 & -> & ? & ? & ?)].
        -- apply elem_of_app in Hx' as [? | Hx']; [by left |].
           apply list_elem_of_singleton in Hx' as ->. right.
           exists d. split; [done |]. split; [by left |]. split; [done | intros Hy; apply HnewP; by apply Hsub].
        -- right. exists d0. split; [done |]. split; [by right | done].
      * intros d0 Hd0. apply elem_of_cons in Hd0 as [-> | Hd0]; [| by apply Hl'].
        right. apply Hsub', elem_of_union. left. by apply elem_of_singleton.
Qed.

(** ** Every call keeps its frontier in order *)

Lemma activation_ok_extends r r' (a : Registry.Activation) :
  extends r r' -> activation_ok r a -> activation_ok r' a.
Proof.
  intros He. destruct a as [frame | result history]; cbn.
  - intros [Hfr Hfirst Hsuf Hne Haw Hld]. split; try done.
    + eapply Forall2_impl; [exact Haw |]. intros dep p Hp. by apply (extends_cache _ _ He).
    + intros dep Hdep. destruct (Hld dep Hdep) as [p Hp].
      exists p. by apply (extends_cache _ _ He).
  - intros [Hfr Hld]. split; [done |].
    intros dep Hdep. destruct (Hld dep Hdep) as [p Hp].
    exists p. by apply (extends_cache _ _ He).
Qed.

Lemma frontier_ok_start (init : string) :
  frontier_ok {[init]} ∅ [Full {| full_scopeName := init |}].
Proof.
  split.
  - intros i j d x Hij Hi Hj.
    apply lookup_lt_Some in Hj. cbn in Hj. lia.
  - intros i j d d' Hij Hi Hj.
    apply lookup_lt_Some in Hj. cbn in Hj. lia.
  - intros scope. rewrite elem_of_singleton, list_elem_of_singleton. split.
    + by intros ->.
    + by intros [= ->].
  - intros key. split; [by intros ?%not_elem_of_empty |].
    intros (d & Hd & _). by apply list_elem_of_singleton in Hd.
Qed.

Lemma enterLoop_ok init lang emb tt (seenFull seenPartial : gset string)
    (Q history : list ScopeDependency) r :
  cache_consistent r ->
  frontier_ok seenFull seenPartial history ->
  history !! 0%nat = Some (Full {| full_scopeName := init |}) ->
  Q `suffix_of` history ->
  (forall dep, dep ∈ history ->
     dep ∈ Q \/ is_Some (Registry._ensureGrammarCache r !! scopeName dep)) ->
  let res := Registry.enterLoop init lang emb tt seenFull seenPartial Q history r in
  activation_ok res.1 res.2 /\ Registry.history_of res.2 = history.
Proof.
  intros Hc Hok Hfirst Hsuf Hld. unfold Registry.enterLoop.
  destruct Q as [| dep Q].
  - cbn. split; [| done]. split; [eauto |].
    intros dep Hdep. destruct (Hld dep Hdep) as [Hin | ?]; [| done].
    by apply elem_of_nil in Hin.
  - destruct (loadAll_spec (dep :: Q) r Hc) as (Hc' & He & Hs & Hall).
    destruct (Registry.loadAll (dep :: Q) r) as [ps r1]. cbn in *.
    split; [| done]. split; cbn; try done.
    intros dep' Hdep'. destruct (Hld dep' Hdep') as [Hin | [p Hp]].
    + apply list_elem_of_lookup in Hin as [i Hi].
      destruct (Forall2_lookup_l _ _ _ _ _ Hall Hi) as (p & _ & Hp). eauto.
    + exists p. by apply (extends_cache _ _ He).
Qed.

Lemma _loadGrammar_ok init lang emb tt r :
  cache_consistent r ->
  let res := Registry._loadGrammar init lang emb tt r in
  activation_ok res.1 res.2.
Proof.
  intros Hc. unfold Registry._loadGrammar.
  apply enterLoop_ok; try done.
  - apply frontier_ok_start.
  - by left.
Qed.

(** The two loops of one iteration together. *)
Lemma frontier_step (h : list ScopeDependency) (seenFull seenPartial : gset string)
    (deps : ScopeDependencyCollector) :
  frontier_ok seenFull seenPartial h ->
  let s1 := foldl Registry.enqueueFull (seenFull, []) (full deps) in
  let s2 := foldl (Registry.enqueuePartial s1.1) (seenPartial, s1.2) (partial deps) in
  frontier_ok s1.1 s2.1 (h ++ (s2.2)) /\
  seenFull ⊆ s1.1 /\
  seenPartial ⊆ s2.1 /\
  (forall x, x ∈ s2.2 ->
     (exists d, x = Full d /\ d ∈ full deps /\ (full_scopeName d ∉ seenFull)) \/
     (exists d, x = Partial d /\ d ∈ partial deps /\
                (partial_scopeName d ∉ s1.1) /\ (toKey d ∉ seenPartial))) /\
  (forall d, d ∈ full deps -> full_scopeName d ∈ s1.1) /\
  (forall d, d ∈ partial deps -> partial_scopeName d ∈ s1.1 \/ toKey d ∈ s2.1).
Proof.
  intros Hok s1 s2.
  destruct (foldl_enqueueFull_spec h seenPartial seenFull (full deps) seenFull [])
    as (Hok1 & Hsub1 & HQ1 & Hl1).
  { by rewrite app_nil_r. }
  { done. }
  { intros x Hx. by apply elem_of_nil in Hx. }
  fold s1 in Hok1, Hsub1, HQ1, Hl1.
  destruct (foldl_enqueuePartial_spec h s1.1 seenPartial (partial deps) seenPartial (s1.2))
    as (Hok2 & Hsub2 & HQ2 & Hl2); [done | done |].
  fold s2 in Hok2, Hsub2, HQ2, Hl2.
  split; [done |]. split; [done |]. split; [done |]. split; [| done].
  intros x Hx. destruct (HQ2 x Hx) as [Hx1 | (d & -> & ? & ? & ?)].
  - left. destruct (HQ1 x Hx1) as (d & -> & ? & [Hnil | ?]).
    + by apply elem_of_nil in Hnil.
    + by exists d.
  - right. by exists d.
Qed.

(** What an iteration does to the frame when the call goes on. *)
Lemma _loadGrammar_resume_step frame r r' frame' :
  frontier_ok (Registry.seenFullScopeRequests frame)
    (Registry.seenPartialScopeRequests frame) (Registry.enqueued frame) ->
  Registry._loadGrammar_resume frame (resolves tt) r = (r', Registry.Suspended frame') ->
  Registry.initialScopeName frame' = Registry.initialScopeName frame /\
  Registry.seenFullScopeRequests frame ⊆ Registry.seenFullScopeRequests frame' /\
  Registry.seenPartialScopeRequests frame ⊆ Registry.seenPartialScopeRequests frame' /\
  Registry.enqueued frame' = Registry.enqueued frame ++ Registry.q frame' /\
  (forall x, x ∈ Registry.q frame' ->
     (exists d, x = Full d /\
                (full_scopeName d ∉ Registry.seenFullScopeRequests frame) /\
                full_scopeName d ∈ Registry.seenFullScopeRequests frame') \/
     (exists d, x = Partial d /\
                (partial_scopeName d ∉ Registry.seenFullScopeRequests frame') /\
                (toKey d ∉ Registry.seenPartialScopeRequests frame) /\
                toKey d ∈ Registry.seenPartialScopeRequests frame')).
Proof.
  intros Hok. unfold Registry._loadGrammar_resume.
  destruct (Registry.collectBatch _ _ _ _) as [deps | msg]; [| done].
  pose proof (frontier_step _ _ _ deps Hok) as Hstep. cbn zeta in Hstep.
  destruct (foldl Registry.enqueueFull _ _) as [seenFull Q1]. cbn [fst snd] in Hstep.
  destruct (foldl (Registry.enqueuePartial seenFull) _ _) as [seenPartial Q2].
  cbn [fst snd] in Hstep.
  destruct Hstep as (Hok' & HsubF & HsubP & HQ & _ & _).
  unfold Registry.enterLoop. destruct Q2 as [| x Q2]; [done |].
  destruct (Registry.loadAll (x :: Q2) r) as [ps r1].
  intros [= <- <-]. cbn.
  split; [done |]. split; [done |]. split; [done |]. split; [done |].
  intros y Hy. destruct (HQ y Hy) as [(d & -> & _ & Hnew) | (d & -> & _ & HnewF & HnewP)].
  - left. exists d. split; [done |]. split; [done |].
    apply (seenFull_history _ _ _ Hok'). destruct d as [s]. cbn.
    apply elem_of_app. by right.
  - right. exists d. split; [done |]. split; [done |]. split; [done |].
    apply (seenPartial_history _ _ _ Hok'). exists d. split; [| done].
    apply elem_of_app. by right.
Qed.

(** One iteration keeps the call in order, whatever [Promise.all] gave. *)
Lemma _loadGrammar_resume_ok frame outcome r :
  cache_consistent r -> frame_ok r frame ->
  let res := Registry._loadGrammar_resume frame outcome r in
  activation_ok res.1 res.2 /\
  Registry.enqueued frame `prefix_of` Registry.history_of res.2.
Proof.
  intros Hc [Hok Hfirst Hsuf Hne Haw Hld]. unfold Registry._loadGrammar_resume.
  destruct outcome as [[] | reason].
  2: { cbn. split; [| done]. split; [eauto | done]. }
  destruct (Registry.collectBatch _ _ _ _) as [deps | msg].
  2: { cbn. split; [| done]. split; [eauto | done]. }
  pose proof (frontier_step _ _ _ deps Hok) as Hstep. cbn zeta in Hstep.
  destruct (foldl Registry.enqueueFull _ _) as [seenFull Q1]. cbn [fst snd] in Hstep.
  destruct (foldl (Registry.enqueuePartial seenFull) _ _) as [seenPartial Q2].
  cbn [fst snd] in Hstep.
  destruct Hstep as (Hok' & _).
  destruct (enterLoop_ok (Registry.initialScopeName frame) (Registry.initialLanguage frame)
              (Registry.embeddedLanguages frame) (Registry.tokenTypes frame)
              seenFull seenPartial Q2 (Registry.enqueued frame ++ Q2) r)
    as [Hact Hhist]; try done.
  - rewrite lookup_app_l; [done | by eapply lookup_lt_Some].
  - by apply suffix_app_r.
  - intros dep Hdep. apply elem_of_app in Hdep as [Hdep | Hdep]; [right | by left].
    by apply Hld.
  - split; [done |]. rewrite Hhist. by apply prefix_app_r.
Qed.

(** ** Every schedule keeps every call in order *)

Lemma world_ok_create locator : world_ok (Scheduler.create locator).
Proof.
  split; [apply cache_consistent_new |].
  intros i a Hi. cbn in Hi. by rewrite lookup_nil in Hi.
Qed.

Lemma world_ok_step (w : Scheduler.World) (e : Scheduler.Event) :
  world_ok w -> world_ok (Scheduler.step w e).
Proof.
  intros [Hc Hacts].
  destruct (step_spec w e Hc) as [Hc' He]. split; [done |].
  assert (Hold : forall i a, Scheduler.activations w !! i = Some a ->
                   activation_ok (Scheduler.registry (Scheduler.step w e)) a).
  { intros i a Hi. eapply activation_ok_extends; [exact He | by eapply Hacts]. }
  destruct e as [init lang emb tt | g inj lang emb | theme | scope | p | k];
    unfold Scheduler.step in *; try exact Hold.
  - pose proof (_loadGrammar_ok init lang emb tt _ Hc) as Hnew. cbn zeta in Hnew.
    destruct (Registry._loadGrammar init lang emb tt (Scheduler.registry w)) as [r' a'].
    cbn in *. intros i a Hi.
    apply lookup_app_Some in Hi as [Hi | [_ Hi]]; [by eapply Hold |].
    by apply list_lookup_singleton_Some in Hi as [_ <-].
  - destruct (Scheduler.activations w !! k) as [[frame | result history] |] eqn:Hk;
      try exact Hold.
    destruct (Registry.promiseAll _ _) as [outcome |]; [| exact Hold].
    pose proof (_loadGrammar_resume_ok frame outcome _ Hc (Hacts _ _ Hk)) as [Hnew _].
    destruct (Registry._loadGrammar_resume frame outcome (Scheduler.registry w)) as [r' a'].
    cbn in *. intros i a Hi.
    destruct (decide (k = i)) as [<- | Hne].
    + rewrite list_lookup_insert_eq in Hi by (by eapply lookup_lt_Some).
      by injection Hi as <-.
    + rewrite list_lookup_insert_ne in Hi by done. by eapply Hold.
Qed.

Lemma world_ok_exec (w : Scheduler.World) (events : list Scheduler.Event) :
  world_ok w -> world_ok (Scheduler.exec w events).
Proof.
  revert w. induction events as [| e events IH]; intros w Hw; [done |].
  cbn. apply IH. by apply world_ok_step.
Qed.

Lemma reachable_world_ok locator (events : list Scheduler.Event) :
  world_ok (Scheduler.exec (Scheduler.create locator) events).
Proof. apply world_ok_exec, world_ok_create. Qed.

(** C4.  The frontier of [_loadGrammar].
    (1) A call starts with [seenFullScopeRequests = {initialScopeName}], an
    empty [seenPartialScopeRequests] and the frontier
    [[Full initialScopeName]].
    (2) At every [await] of every call, in every schedule: the scopes in
    [seenFullScopeRequests] are exactly the scopes of the full dependencies
    enqueued so far, and the keys in [seenPartialScopeRequests] exactly the
    keys of the partial ones; after a full dependency was enqueued, no
    dependency of that scope, full or partial, was enqueued again (the
    initial scope is the first); no two enqueued partial dependencies have
    the same key.
    (3) In the iteration that follows, a full dependency enters the next
    frontier only if its scope was not in [seenFullScopeRequests], and a
    partial one only if its scope is not in [seenFullScopeRequests] (as it
    is after the full ones of this iteration were added) and its key was
    not in [seenPartialScopeRequests]; both sets only grow. *)
Theorem frontier_invariant
    (locator : Registry.RegistryOptions) (events : list Scheduler.Event) :
  let w := Scheduler.exec (Scheduler.create locator) events in
  (forall init lang emb types r,
     exists ps r',
       Registry._loadGrammar init lang emb types r =
         (r', Registry.Suspended
                {| Registry.initialScopeName := init;
                   Registry.initialLanguage := lang;
                   Registry.embeddedLanguages := emb;
                   Registry.tokenTypes := types;
                   Registry.seenFullScopeRequests := {[init]};
                   Registry.seenPartialScopeRequests := ∅;
                   Registry.q := [Full {| full_scopeName := init |}];
                   Registry.awaited := ps;
                   Registry.enqueued := [Full {| full_scopeName := init |}] |})) /\
  (forall i frame,
     Scheduler.activations w !! i = Some (Registry.Suspended frame) ->
     let seenFull := Registry.seenFullScopeRequests frame in
     let seenPartial := Registry.seenPartialScopeRequests frame in
     let history := Registry.enqueued frame in
     (history !! 0%nat = Some (Full {| full_scopeName := Registry.initialScopeName frame |}) /\
      Registry.q frame `suffix_of` history /\
      (forall scope, scope ∈ seenFull <-> Full {| full_scopeName := scope |} ∈ history) /\
      (forall key, key ∈ seenPartial <-> exists d, Partial d ∈ history /\ toKey d = key) /\
      (forall n m d x,
         (n < m)%nat -> history !! n = Some (Full d) -> history !! m = Some x ->
         scopeName x <> full_scopeName d) /\
      (forall n m d d',
         (n < m)%nat -> history !! n = Some (Partial d) ->
         history !! m = Some (Partial d') -> toKey d' <> toKey d)) /\
     (forall r r' frame',
        Registry._loadGrammar_resume frame (resolves tt) r
          = (r', Registry.Suspended frame') ->
        seenFull ⊆ Registry.seenFullScopeRequests frame' /\
        seenPartial ⊆ Registry.seenPartialScopeRequests frame' /\
        Registry.enqueued frame' = history ++ Registry.q frame' /\
        (forall x, x ∈ Registry.q frame' ->
           (exists d, x = Full d /\ (full_scopeName d ∉ seenFull)) \/
           (exists d, x = Partial d /\
              (partial_scopeName d ∉ seenFull) /\
              (partial_scopeName d ∉ Registry.seenFullScopeRequests frame') /\
              (toKey d ∉ seenPartial))))).
Proof.
  intros w. split.
  - intros init lang emb types r. unfold Registry._loadGrammar, Registry.enterLoop.
    destruct (Registry.loadAll _ r) as [ps r']. by exists ps, r'.
  - intros i frame Hi seenFull seenPartial history.
    destruct (reachable_world_ok locator events) as [_ Hacts].
    destruct (Hacts i _ Hi) as [Hok Hfirst Hsuf _ _ _].
    split.
    + split; [done |]. split; [done |].
      destruct Hok as [Hfull Hpart HseenF HseenP]. done.
    + intros r r' frame' Hres.
      destruct (_loadGrammar_resume_step frame r r' frame' Hok Hres)
        as (_ & HsubF & HsubP & Hhist & HQ).
      split; [done |]. split; [done |]. split; [done |].
      intros x Hx. destruct (HQ x Hx) as [(d & -> & ? & ?) | (d & -> & ? & ? & ?)].
      * left. by exists d.
      * right. exists d. split; [done |]. split; [| done].
        intros Hin. by apply HsubF in Hin.
Qed.

(** ** A finite universe of dependencies *)

Lemma bounded_by_loadSingleGrammar U r scope :
  bounded_by U r -> bounded_by U (Registry._loadSingleGrammar scope r).2.
Proof.
  intros Hb.
  destruct (Registry._ensureGrammarCache r !! scope) as [p |] eqn:Hp.
  - by rewrite (_loadSingleGrammar_hit _ _ _ Hp).
  - rewrite (_loadSingleGrammar_miss _ _ Hp).
    destruct Hb as [Hsg Hsi Hl Hgi Hpe]. split; cbn; try done.
    intros q s g Hq.
    apply lookup_app_Some in Hq as [Hq | [_ Hq]]; [by eapply Hpe |].
    apply list_lookup_singleton_Some in Hq as [_ [= <- Hload]]. by eapply Hl.
Qed.

Lemma bounded_by_loadAll U (q : list ScopeDependency) r :
  bounded_by U r -> bounded_by U (Registry.loadAll q r).2.
Proof.
  revert r. induction q as [| dep q IH]; intros r Hb; cbn; [done |].
  pose proof (bounded_by_loadSingleGrammar U r (scopeName dep) Hb) as Hb1.
  destruct (Registry._loadSingleGrammar (scopeName dep) r) as [p r1].
  specialize (IH r1 Hb1).
  by destruct (Registry.loadAll q r1) as [ps r2].
Qed.

Lemma bounded_by_resume U p r :
  bounded_by U r -> bounded_by U (Registry._doLoadSingleGrammar_resume p r).
Proof.
  intros [Hsg Hsi Hl Hgi Hpe]. unfold Registry._doLoadSingleGrammar_resume.
  destruct (Registry.promises r !! p) as [[s [[g |] | e] | | e] |] eqn:Hp; try done.
  - split; cbn; try done.
    + intros scope g'. unfold SyncRegistry.lookup. cbn.
      destruct (decide (rawScopeName g = scope)) as [<- | Hne].
      * rewrite lookup_insert_eq. intros [= <-]. by eapply Hpe.
      * rewrite lookup_insert_ne by done. apply Hsg.
    + intros scope l. unfold SyncRegistry.injections. cbn.
      destruct (Registry.getInjections (Registry._locator r)) as [f |] eqn:Hf; cbn;
        [| apply Hsi].
      destruct (decide (rawScopeName g = scope)) as [<- | Hne].
      * rewrite lookup_insert_eq. intros [= <-]. by eapply Hgi.
      * rewrite lookup_insert_ne by done. apply Hsi.
    + intros q s' g' Hq.
      destruct (decide (p = q)) as [<- | Hne].
      * rewrite list_lookup_insert_eq in Hq by (by eapply lookup_lt_Some). done.
      * rewrite list_lookup_insert_ne in Hq by done. by eapply Hpe.
  - split; cbn; try done.
    intros q s' g' Hq.
    destruct (decide (p = q)) as [<- | Hne].
    + rewrite list_lookup_insert_eq in Hq by (by eapply lookup_lt_Some). done.
    + rewrite list_lookup_insert_ne in Hq by done. by eapply Hpe.
  - split; cbn; try done.
    intros q s' g' Hq.
    destruct (decide (p = q)) as [<- | Hne].
    + rewrite list_lookup_insert_eq in Hq by (by eapply lookup_lt_Some). done.
    + rewrite list_lookup_insert_ne in Hq by done. by eapply Hpe.
Qed.

Lemma bounded_by_settleAll U ps r :
  bounded_by U r -> bounded_by U (Registry.settleAll ps r).
Proof.
  revert r. induction ps as [| p ps IH]; intros r Hb; [done |].
  cbn. apply IH. by apply bounded_by_resume.
Qed.

Lemma bounded_by_enterLoop U init lang emb tt (seenFull seenPartial : gset string)
    (Q history : list ScopeDependency) r :
  bounded_by U r ->
  bounded_by U (Registry.enterLoop init lang emb tt seenFull seenPartial Q history r).1.
Proof.
  intros Hb. unfold Registry.enterLoop. destruct Q as [| dep Q]; [done |].
  pose proof (bounded_by_loadAll U (dep :: Q) r Hb) as Hb'.
  by destruct (Registry.loadAll (dep :: Q) r) as [ps r1].
Qed.

(** What the scans put into the collector. *)
Lemma elem_of_full_foldl_add (l : list ScopeDependency) (c : ScopeDependencyCollector)
    (d : FullScopeDependency) :
  d ∈ full (foldl add c l) <-> d ∈ full c \/ Full d ∈ l.
Proof.
  revert c. induction l as [| x l IH]; intros c; cbn.
  - split; [by left | intros [? | ?%elem_of_nil]; done].
  - rewrite IH, elem_of_cons. destruct x as [d' | d']; cbn.
    + rewrite elem_of_app, list_elem_of_singleton. split.
      * intros [[? | ->] | ?]; auto.
      * intros [? | [[= ->] | ?]]; auto.
    + split.
      * intros [? | ?]; auto.
      * intros [? | [? | ?]]; [auto | done | auto].
Qed.

Lemma elem_of_partial_foldl_add (l : list ScopeDependency) (c : ScopeDependencyCollector)
    (d : PartialScopeDependency) :
  d ∈ partial (foldl add c l) <-> d ∈ partial c \/ Partial d ∈ l.
Proof.
  revert c. induction l as [| x l IH]; intros c; cbn.
  - split; [by left | intros [? | ?%elem_of_nil]; done].
  - rewrite IH, elem_of_cons. destruct x as [d' | d']; cbn.
    + split.
      * intros [? | ?]; auto.
      * intros [? | [? | ?]]; [auto | done | auto].
    + rewrite elem_of_app, list_elem_of_singleton. split.
      * intros [[? | ->] | ?]; auto.
      * intros [? | [[= ->] | ?]]; auto.
Qed.

Lemma elem_of_full_add_injections (l : list string) (c : ScopeDependencyCollector)
    (d : FullScopeDependency) :
  d ∈ full (foldl (fun res injection => add res (Full {| full_scopeName := injection |})) c l)
  <-> d ∈ full c \/ full_scopeName d ∈ l.
Proof.
  revert c. induction l as [| x l IH]; intros c; cbn.
  - split; [by left | intros [? | ?%elem_of_nil]; done].
  - rewrite IH. cbn. rewrite elem_of_cons, elem_of_app, list_elem_of_singleton.
    destruct d as [s]. cbn. split.
    + intros [[? | [= ->]] | ?]; auto.
    + intros [? | [-> | ?]]; auto.
Qed.

Lemma partial_add_injections (l : list string) (c : ScopeDependencyCollector) :
  partial (foldl (fun res injection => add res (Full {| full_scopeName := injection |})) c l)
  = partial c.
Proof. revert c. induction l as [| x l IH]; intros c; cbn; [done |]. by rewrite IH. Qed.

Lemma _collectDependenciesForDep_within U r init c dep c' :
  bounded_by U r -> collector_within U c ->
  Registry._collectDependenciesForDep (Registry._syncRegistry r) init c dep = Return c' ->
  collector_within U c'.
Proof.
  intros Hb [HcF HcP]. unfold Registry._collectDependenciesForDep.
  destruct (SyncRegistry.lookup _ _) as [g |] eqn:Hg.
  2: { destruct (decide _); [done |]. by intros [= <-]. }
  destruct (bounded_store_grammars _ _ Hb _ _ Hg) as [Hall Hrule].
  set (c1 := match dep with
             | Full _ => collectDependencies c g
             | Partial d => collectSpecificDependencies c g (include d)
             end).
  assert (Hc1 : collector_within U c1).
  { subst c1. destruct dep as [d | d];
      unfold collectDependencies, collectSpecificDependencies; split; intros d0.
    - rewrite elem_of_full_foldl_add. intros [? | ?]; auto.
    - rewrite elem_of_partial_foldl_add. intros [? | ?]; auto.
    - rewrite elem_of_full_foldl_add. intros [? | ?]; eauto.
    - rewrite elem_of_partial_foldl_add. intros [? | ?]; eauto. }
  destruct (SyncRegistry.injections _ _) as [l |] eqn:Hl; intros [= <-]; [| done].
  destruct Hc1 as [Hc1F Hc1P]. split; intros d0.
  - rewrite elem_of_full_add_injections. intros [? | Hin]; [auto |].
    pose proof (bounded_store_injections _ _ Hb _ _ Hl _ Hin) as HU. by destruct d0.
  - rewrite partial_add_injections. auto.
Qed.

Lemma collectBatch_within U r init (q : list ScopeDependency) c c' :
  bounded_by U r -> collector_within U c ->
  Registry.collectBatch (Registry._syncRegistry r) init c q = Return c' ->
  collector_within U c'.
Proof.
  intros Hb. revert c. induction q as [| dep q IH]; intros c Hc; cbn.
  - by intros [= <-].
  - destruct (Registry._collectDependenciesForDep _ _ _ _) as [c1 | msg] eqn:E; [| done].
    apply IH. by eapply _collectDependenciesForDep_within.
Qed.

Lemma _loadGrammar_resume_unfold frame r :
  Registry._loadGrammar_resume frame (resolves tt) r =
    match Registry.collectBatch (Registry._syncRegistry r) (Registry.initialScopeName frame)
            new_ScopeDependencyCollector (Registry.q frame) with
    | Throw message => (r, Registry.Completed (rejects message) (Registry.enqueued frame))
    | Return deps =>
        let s1 := foldl Registry.enqueueFull
                    (Registry.seenFullScopeRequests frame, []) (full deps) in
        let s2 := foldl (Registry.enqueuePartial s1.1)
                    (Registry.seenPartialScopeRequests frame, s1.2) (partial deps) in
        Registry.enterLoop (Registry.initialScopeName frame) (Registry.initialLanguage frame)
          (Registry.embeddedLanguages frame) (Registry.tokenTypes frame)
          s1.1 s2.1 s2.2 (Registry.enqueued frame ++ s2.2) r
    end.
Proof.
  unfold Registry._loadGrammar_resume.
  destruct (Registry.collectBatch _ _ _ _) as [deps | msg]; [| done].
  destruct (foldl Registry.enqueueFull _ _) as [seenFull Q1]. cbn.
  by destruct (foldl (Registry.enqueuePartial seenFull) _ _) as [seenPartial Q2].
Qed.

Lemma bounded_by_loadGrammar_resume U frame outcome r :
  bounded_by U r -> bounded_by U (Registry._loadGrammar_resume frame outcome r).1.
Proof.
  intros Hb. destruct outcome as [[] | reason]; [| done].
  rewrite _loadGrammar_resume_unfold.
  destruct (Registry.collectBatch _ _ _ _) as [deps | msg]; [| done].
  by apply bounded_by_enterLoop.
Qed.

(** What enters the next frontier was found by a scan or is an injection. *)
Lemma _loadGrammar_resume_within U frame r r' frame' :
  frontier_ok (Registry.seenFullScopeRequests frame)
    (Registry.seenPartialScopeRequests frame) (Registry.enqueued frame) ->
  bounded_by U r ->
  Registry._loadGrammar_resume frame (resolves tt) r = (r', Registry.Suspended frame') ->
  forall x, x ∈ Registry.q frame' -> x ∈ U.
Proof.
  intros Hok Hb. rewrite _loadGrammar_resume_unfold.
  destruct (Registry.collectBatch _ _ _ _) as [deps | msg] eqn:Hdeps; [| done].
  assert (Hw : collector_within U deps).
  { eapply collectBatch_within; [exact Hb | | exact Hdeps].
    split; intros d Hd; by apply elem_of_nil in Hd. }
  pose proof (frontier_step _ _ _ deps Hok) as Hstep.
  cbv zeta in Hstep |- *.
  set (s1 := foldl Registry.enqueueFull _ _) in *.
  set (s2 := foldl (Registry.enqueuePartial _) _ _) in *.
  destruct Hstep as (_ & _ & _ & HQ & _).
  unfold Registry.enterLoop.
  destruct (s2.2) as [| y Q2] eqn:HQ2; [done |].
  destruct (Registry.loadAll (y :: Q2) r) as [ps r1].
  intros [= <- <-] x Hx. cbn in Hx.
  destruct Hw as [HwF HwP].
  destruct (HQ x Hx) as [(d & -> & ? & _) | (d & -> & ? & _)]; auto.
Qed.

Lemma frontier_ok_NoDup (seenFull seenPartial : gset string) (history : list ScopeDependency) :
  frontier_ok seenFull seenPartial history -> NoDup history.
Proof.
  intros [Hfull Hpart _ _].
  assert (Hlt : forall i j x, (i < j)%nat -> history !! i = Some x -> history !! j = Some x -> False).
  { intros i j [d | d] Hij Hi Hj.
    - by apply (Hfull i j d (Full d) Hij Hi Hj).
    - by apply (Hpart i j d d Hij Hi Hj). }
  apply NoDup_alt. intros i j x Hi Hj.
  destruct (Nat.lt_trichotomy i j) as [Hij | [-> | Hji]]; [| done |].
  - by destruct (Hlt i j x).
  - by destruct (Hlt j i x).
Qed.

Lemma history_length_bound U init (seenFull seenPartial : gset string)
    (history : list ScopeDependency) :
  frontier_ok seenFull seenPartial history ->
  (forall x, x ∈ history -> x ∈ Full {| full_scopeName := init |} :: U) ->
  (length history <= S (length U))%nat.
Proof.
  intros Hok Hsub.
  change (S (length U)) with (length (Full {| full_scopeName := init |} :: U)).
  apply submseteq_length, NoDup_submseteq; [| done].
  by eapply frontier_ok_NoDup.
Qed.

(** ** Termination of the loop *)

Lemma run_completed fuel r result history :
  Registry.run fuel r (Registry.Completed result history)
  = (r, Registry.Completed result history).
Proof. by destruct fuel. Qed.

Lemma frame_awaited_settle r frame :
  cache_consistent r -> frame_ok r frame ->
  is_Some (Registry.promiseAll
             (Registry.promises (Registry.settleAll (Registry.awaited frame) r))
             (Registry.awaited frame)).
Proof.
  intros Hc Hf. apply promiseAll_settled. intros p Hp.
  apply settleAll_settles; [done |].
  apply list_elem_of_lookup in Hp as [i Hi].
  destruct (Forall2_lookup_r _ _ _ _ _ (frame_awaited _ _ Hf) Hi) as (dep & _ & Hdep).
  by eapply cache_consistent_lt.
Qed.

Lemma run_terminates U (fuel : nat) :
  forall r frame,
    cache_consistent r -> frame_ok r frame -> bounded_by U r ->
    (forall x, x ∈ Registry.enqueued frame ->
       x ∈ Full {| full_scopeName := Registry.initialScopeName frame |} :: U) ->
    (S (length U) - length (Registry.enqueued frame) < fuel)%nat ->
    exists r' result history,
      Registry.run fuel r (Registry.Suspended frame)
      = (r', Registry.Completed result history) /\
      (length history <= S (length U))%nat.
Proof.
  induction fuel as [| fuel IH]; intros r frame Hc Hf Hb Hsub Hfuel; [lia |].
  cbn [Registry.run].
  set (r1 := Registry.settleAll (Registry.awaited frame) r).
  assert (Hc1 : cache_consistent r1) by by apply cache_consistent_settleAll.
  assert (Hf1 : frame_ok r1 frame).
  { apply (activation_ok_extends r r1 (Registry.Suspended frame));
      [apply extends_settleAll | done]. }
  assert (Hb1 : bounded_by U r1) by by apply bounded_by_settleAll.
  destruct (frame_awaited_settle r frame Hc Hf) as [outcome Hout].
  fold r1 in Hout. rewrite Hout.
  pose proof (_loadGrammar_resume_ok frame outcome r1 Hc1 Hf1) as [Hact Hpre].
  pose proof (_loadGrammar_resume_spec frame outcome r1 Hc1) as (Hc2 & _ & _).
  pose proof (bounded_by_loadGrammar_resume U frame outcome r1 Hb1) as Hb2.
  destruct (Registry._loadGrammar_resume frame outcome r1) as [r2 a'] eqn:Hres.
  cbn [fst snd] in *.
  destruct a' as [frame' | result history].
  - destruct outcome as [[] | reason]; [| done].
    destruct (_loadGrammar_resume_step frame r1 r2 frame' (frame_frontier _ _ Hf) Hres)
      as (Hinit & _ & _ & Hhist & _).
    pose proof (_loadGrammar_resume_within U frame r1 r2 frame'
                  (frame_frontier _ _ Hf) Hb1 Hres) as HQ.
    assert (Hsub' : forall x, x ∈ Registry.enqueued frame' ->
              x ∈ Full {| full_scopeName := Registry.initialScopeName frame' |} :: U).
    { intros x. rewrite Hhist, Hinit, elem_of_app. intros [? | ?]; [auto |].
      right. auto. }
    pose proof (history_length_bound U _ _ _ _ (frame_frontier _ _ Hact) Hsub') as Hlen.
    assert (Hgrow : (length (Registry.enqueued frame)
                     < length (Registry.enqueued frame'))%nat).
    { rewrite Hhist, length_app.
      pose proof (frame_batch_nonempty _ _ Hact) as Hne.
      destruct (Registry.q frame'); [done | cbn; lia]. }
    apply IH; try done. lia.
  - rewrite run_completed. exists r2, result, history. split; [done |].
    cbn in Hact. destruct Hact as [(sF & sP & Hok') _].
    assert (Hsubh : forall x, x ∈ history ->
              x ∈ Full {| full_scopeName := Registry.initialScopeName frame |} :: U).
    { destruct outcome as [[] | reason].
      - rewrite _loadGrammar_resume_unfold in Hres.
        destruct (Registry.collectBatch _ _ _ _) as [deps | msg] eqn:Hdeps.
        + cbv zeta in Hres. unfold Registry.enterLoop in Hres.
          set (s1 := foldl Registry.enqueueFull _ _) in *.
          set (s2 := foldl (Registry.enqueuePartial _) _ _) in *.
          destruct (s2.2) as [| y Q2] eqn:HQ2.
          * injection Hres as <- <- <-. rewrite app_nil_r. done.
          * by destruct (Registry.loadAll (y :: Q2) r1).
        + by injection Hres as <- <- <-.
      - cbn in Hres. by injection Hres as <- <- <-. }
    by eapply history_length_bound.
Qed.

Lemma _loadGrammar_suspended init lang emb tt r :
  exists frame,
    (Registry._loadGrammar init lang emb tt r).2 = Registry.Suspended frame /\
    Registry.initialScopeName frame = init /\
    Registry.initialLanguage frame = lang /\
    Registry.embeddedLanguages frame = emb /\
    Registry.tokenTypes frame = tt /\
    Registry.q frame = [Full {| full_scopeName := init |}] /\
    Registry.enqueued frame = [Full {| full_scopeName := init |}].
Proof.
  unfold Registry._loadGrammar, Registry.enterLoop.
  destruct (Registry.loadAll _ r) as [ps r']. cbn. eauto 10.
Qed.

(** The loop ends: the measure is the number of dependencies of [U] not yet
    enqueued. *)
Lemma resolve_completes
    (U : list ScopeDependency)
    (locator : Registry.RegistryOptions) (events : list Scheduler.Event)
    (init : string) (lang : Z) (emb : option IEmbeddedLanguagesMap)
    (types : option ITokenTypeMap) (fuel : nat) :
  let r := Scheduler.registry (Scheduler.exec (Scheduler.create locator) events) in
  bounded_by U r ->
  (length U + 1 < fuel)%nat ->
  exists r' result history,
    Registry.resolve fuel init lang emb types r = (r', Registry.Completed result history) /\
    (length history <= length U + 1)%nat.
Proof.
  intros r Hb Hfuel.
  destruct (reachable_spec locator events) as [Hc _]. fold r in Hc.
  unfold Registry.resolve.
  pose proof (_loadGrammar_ok init lang emb types r Hc) as Hact.
  pose proof (_loadGrammar_spec init lang emb types r Hc) as (Hc1 & _ & _).
  pose proof (bounded_by_enterLoop U init lang emb types {[init]} ∅
                [Full {| full_scopeName := init |}] [Full {| full_scopeName := init |}]
                r Hb) as Hb1.
  destruct (_loadGrammar_suspended init lang emb types r)
    as (frame & Hframe & Hinit & _ & _ & _ & _ & Henq).
  change (Registry.enterLoop init lang emb types {[init]} ∅
            [Full {| full_scopeName := init |}] [Full {| full_scopeName := init |}] r)
    with (Registry._loadGrammar init lang emb types r) in Hb1.
  destruct (Registry._loadGrammar init lang emb types r) as [r1 a]. cbn in *. subst a.
  destruct (run_terminates U fuel r1 frame Hc1 Hact Hb1) as (r' & result & history & Hrun & Hlen).
  - intros x. rewrite Henq, Hinit. intros Hx%list_elem_of_singleton. subst x. by left.
  - rewrite Henq. cbn. lia.
  - exists r', result, history. split; [done | lia].
Qed.

(** C3.  Termination.  Take a registry in any state it can reach and a
    finite list [U] of dependencies that bounds it: every grammar it holds
    or its loader can supply includes only dependencies of [U], and every
    injection scope is in [U].  Cycles among the grammars are allowed.
    Then the [while] loop of [_loadGrammar] ends for every initial scope:
    with enough fuel, more than [length U + 1] iterations, the call is
    [Completed]; and all in all it put at most [length U + 1] dependencies
    on [Q]. *)
Theorem resolution_terminates
    (U : list ScopeDependency)
    (locator : Registry.RegistryOptions) (events : list Scheduler.Event)
    (init : string) (lang : Z) (emb : option IEmbeddedLanguagesMap)
    (types : option ITokenTypeMap) (fuel : nat) :
  let r := Scheduler.registry (Scheduler.exec (Scheduler.create locator) events) in
  bounded_by U r ->
  (length U + 1 < fuel)%nat ->
  exists r' result history,
    Registry.resolve fuel init lang emb types r = (r', Registry.Completed result history) /\
    (length history <= length U + 1)%nat.
Proof. apply resolve_completes. Qed.

(** ** Invariants of the registry, in general

    A property of the registry that the two halves of
    [_doLoadSingleGrammar] keep is kept by everything [_loadGrammar] does. *)

Section Preservation.
Variable P : Registry.t -> Prop.
Hypothesis P_load : forall scope r, P r -> P (Registry._loadSingleGrammar scope r).2.
Hypothesis P_resume : forall p r, P r -> P (Registry._doLoadSingleGrammar_resume p r).

Lemma preserved_loadAll (q : list ScopeDependency) r : P r -> P (Registry.loadAll q r).2.
Proof.
  revert r. induction q as [| dep q IH]; intros r HP; cbn; [done |].
  pose proof (P_load (scopeName dep) r HP) as HP1.
  destruct (Registry._loadSingleGrammar (scopeName dep) r) as [p r1].
  specialize (IH r1 HP1).
  by destruct (Registry.loadAll q r1) as [ps r2].
Qed.

Lemma preserved_settleAll ps r : P r -> P (Registry.settleAll ps r).
Proof.
  revert r. induction ps as [| p ps IH]; intros r HP; [done |].
  cbn. apply IH. by apply P_resume.
Qed.

Lemma preserved_enterLoop init lang emb tt (seenFull seenPartial : gset string)
    (Q history : list ScopeDependency) r :
  P r -> P (Registry.enterLoop init lang emb tt seenFull seenPartial Q history r).1.
Proof.
  intros HP. unfold Registry.enterLoop. destruct Q as [| dep Q]; [done |].
  pose proof (preserved_loadAll (dep :: Q) r HP) as HP'.
  by destruct (Registry.loadAll (dep :: Q) r) as [ps r1].
Qed.

Lemma preserved_loadGrammar init lang emb tt r :
  P r -> P (Registry._loadGrammar init lang emb tt r).1.
Proof. apply preserved_enterLoop. Qed.

Lemma preserved_loadGrammar_resume frame outcome r :
  P r -> P (Registry._loadGrammar_resume frame outcome r).1.
Proof.
  intros HP. destruct outcome as [[] | reason]; [| done].
  rewrite _loadGrammar_resume_unfold.
  destruct (Registry.collectBatch _ _ _ _) as [deps | msg]; [| done].
  by apply preserved_enterLoop.
Qed.

Lemma preserved_run fuel r (a : Registry.Activation) :
  P r -> P (Registry.run fuel r a).1.
Proof.
  revert r a. induction fuel as [| fuel IH]; intros r a HP.
  - by destruct a.
  - destruct a as [frame | result history]; [| done]. cbn [Registry.run].
    pose proof (preserved_settleAll (Registry.awaited frame) r HP) as HP1.
    destruct (Registry.promiseAll _ _) as [outcome |]; [| done].
    pose proof (preserved_loadGrammar_resume frame outcome _ HP1) as HP2.
    destruct (Registry._loadGrammar_resume frame outcome _) as [r2 a'].
    by apply IH.
Qed.

Hypothesis P_addGrammar : forall g inj lang emb r,
  P r -> P (Registry.addGrammar g inj lang emb r).1.
Hypothesis P_setTheme : forall theme r, P r -> P (Registry.setTheme theme r).

Lemma preserved_step (w : Scheduler.World) (e : Scheduler.Event) :
  P (Scheduler.registry w) -> P (Scheduler.registry (Scheduler.step w e)).
Proof.
  intros HP.
  destruct e as [init lang emb tt | g inj lang emb | theme | scope | p | k];
    unfold Scheduler.step.
  - pose proof (preserved_loadGrammar init lang emb tt _ HP) as HP'.
    by destruct (Registry._loadGrammar init lang emb tt (Scheduler.registry w)).
  - by apply P_addGrammar.
  - by apply P_setTheme.
  - by apply P_load.
  - by apply P_resume.
  - destruct (Scheduler.activations w !! k) as [[frame | result history] |]; try done.
    destruct (Registry.promiseAll _ _) as [outcome |]; [| done].
    pose proof (preserved_loadGrammar_resume frame outcome _ HP) as HP'.
    by destruct (Registry._loadGrammar_resume frame outcome (Scheduler.registry w)).
Qed.

Lemma preserved_exec (w : Scheduler.World) (events : list Scheduler.Event) :
  P (Scheduler.registry w) -> P (Scheduler.registry (Scheduler.exec w events)).
Proof.
  revert w. induction events as [| e events IH]; intros w HP; [done |].
  cbn. apply IH. by apply preserved_step.
Qed.

End Preservation.

(** ** [addGrammar] *)

(** C10.  [addGrammar] hands the grammar and the given injection list to
    the store, and asks the store for the handle of the grammar's own scope
    name with a null token type map.  It makes no call of the loader and no
    promise, and leaves the cache and the locator as they were; in the
    store the theme and the entries of every other scope name are
    unchanged; and, as an event of the scheduler, it starts no resolution
    and advances none. *)
Theorem addGrammar_registers_only
    (rawGrammar : IRawGrammar) (injections : list string) (lang : Z)
    (emb : option IEmbeddedLanguagesMap) (r : Registry.t) (w : Scheduler.World) :
  let r' := (Registry.addGrammar rawGrammar injections lang emb r).1 in
  let result := (Registry.addGrammar rawGrammar injections lang emb r).2 in
  let store := Registry._syncRegistry r in
  let store' := Registry._syncRegistry r' in
  store' = SyncRegistry.addGrammar store rawGrammar (Some injections) /\
  result = SyncRegistry.grammarForScopeName store' (rawScopeName rawGrammar) lang emb None /\
  SyncRegistry.lookup store' (rawScopeName rawGrammar) = Some rawGrammar /\
  SyncRegistry.injections store' (rawScopeName rawGrammar) = Some injections /\
  Registry.fetches r' = Registry.fetches r /\
  Registry.promises r' = Registry.promises r /\
  Registry._ensureGrammarCache r' = Registry._ensureGrammarCache r /\
  Registry._locator r' = Registry._locator r /\
  SyncRegistry._theme store' = SyncRegistry._theme store /\
  (forall scope,
     scope <> rawScopeName rawGrammar ->
     SyncRegistry.lookup store' scope = SyncRegistry.lookup store scope /\
     SyncRegistry.injections store' scope = SyncRegistry.injections store scope) /\
  Scheduler.activations
    (Scheduler.step w (Scheduler.call_addGrammar rawGrammar injections lang emb))
  = Scheduler.activations w.
Proof.
  cbn. repeat split.
  - unfold SyncRegistry.lookup. cbn. by rewrite lookup_insert_eq.
  - unfold SyncRegistry.injections. cbn. by rewrite lookup_insert_eq.
  - unfold SyncRegistry.lookup. cbn. by rewrite lookup_insert_ne.
  - unfold SyncRegistry.injections. cbn. by rewrite lookup_insert_ne.
Qed.

(** ** The default locator *)






(** ** Missing grammars *)

Lemma _collectDependenciesForDep_absent (store : SyncRegistry.t) init
    (result : ScopeDependencyCollector) (dep : ScopeDependency) :
  SyncRegistry.lookup store (scopeName dep) = None ->
  (scopeName dep = init ->
   Registry._collectDependenciesForDep store init result dep
   = Throw (Registry.no_grammar_message init)) /\
  (scopeName dep <> init ->
   Registry._collectDependenciesForDep store init result dep = Return result).
Proof.
  intros Hnone. unfold Registry._collectDependenciesForDep. rewrite Hnone.
  split; intros Hs; [by rewrite decide_True | by rewrite decide_False].
Qed.

Lemma _collectDependenciesForDep_throw (store : SyncRegistry.t) init
    (result : ScopeDependencyCollector) (dep : ScopeDependency) message :
  Registry._collectDependenciesForDep store init result dep = Throw message ->
  message = Registry.no_grammar_message init /\
  scopeName dep = init /\
  SyncRegistry.lookup store init = None.
Proof.
  unfold Registry._collectDependenciesForDep.
  destruct (SyncRegistry.lookup store (scopeName dep)) as [g |] eqn:Hg.
  - by destruct (SyncRegistry.injections store (scopeName dep)).
  - destruct (decide (scopeName dep = init)) as [<- | Hne]; [| done].
    by intros [= <-].
Qed.

Lemma collectBatch_throw (store : SyncRegistry.t) init (q : list ScopeDependency)
    (c : ScopeDependencyCollector) message :
  Registry.collectBatch store init c q = Throw message ->
  message = Registry.no_grammar_message init /\
  (exists dep, dep ∈ q /\ scopeName dep = init) /\
  SyncRegistry.lookup store init = None.
Proof.
  revert c. induction q as [| dep q IH]; intros c; cbn; [done |].
  destruct (Registry._collectDependenciesForDep store init c dep) as [c1 | msg] eqn:E.
  - intros Hq. destruct (IH c1 Hq) as (? & (dep' & ? & ?) & ?).
    split; [done |]. split; [| done]. exists dep'. split; [by right | done].
  - intros [= <-].
    destruct (_collectDependenciesForDep_throw _ _ _ _ _ E) as (? & ? & ?).
    split; [done |]. split; [| done]. exists dep. split; [by left | done].
Qed.

(** An absent grammar of the initial scope anywhere in the batch ends the
    scan with the error. *)
Lemma collectBatch_fatal (store : SyncRegistry.t) init (q : list ScopeDependency)
    (c : ScopeDependencyCollector) (dep : ScopeDependency) :
  dep ∈ q -> scopeName dep = init ->
  SyncRegistry.lookup store (scopeName dep) = None ->
  Registry.collectBatch store init c q = Throw (Registry.no_grammar_message init).
Proof.
  intros Hin Hs Hnone. revert c.
  induction q as [| dep0 q IH]; intros c; [by apply elem_of_nil in Hin |].
  cbn.
  destruct (Registry._collectDependenciesForDep store init c dep0) as [c1 | msg] eqn:E.
  - apply elem_of_cons in Hin as [-> | Hin]; [| by apply IH].
    destruct (_collectDependenciesForDep_absent store init c dep0 Hnone) as [Hthrow _].
    rewrite (Hthrow Hs) in E. done.
  - by destruct (_collectDependenciesForDep_throw _ _ _ _ _ E) as (-> & _).
Qed.

(** An absent grammar of another scope counts for nothing. *)
Lemma collectBatch_drop (store : SyncRegistry.t) init (l1 l2 : list ScopeDependency)
    (c : ScopeDependencyCollector) (dep : ScopeDependency) :
  SyncRegistry.lookup store (scopeName dep) = None ->
  scopeName dep <> init ->
  Registry.collectBatch store init c (l1 ++ dep :: l2)
  = Registry.collectBatch store init c (l1 ++ l2).
Proof.
  intros Hnone Hne. revert c. induction l1 as [| x l1 IH]; intros c; cbn.
  - destruct (_collectDependenciesForDep_absent store init c dep Hnone) as [_ Hret].
    by rewrite (Hret Hne).
  - destruct (Registry._collectDependenciesForDep store init c x); [apply IH | done].
Qed.

Lemma enterLoop_cases init lang emb tt (seenFull seenPartial : gset string)
    (Q history : list ScopeDependency) r :
  (Q = [] /\
   Registry.enterLoop init lang emb tt seenFull seenPartial Q history r
   = (r, Registry.Completed
           (SyncRegistry.grammarForScopeName (Registry._syncRegistry r) init lang emb tt)
           history)) \/
  (exists frame,
     Registry.enterLoop init lang emb tt seenFull seenPartial Q history r
     = ((Registry.loadAll Q r).2, Registry.Suspended frame) /\
     Registry.initialScopeName frame = init /\
     Registry.initialLanguage frame = lang /\
     Registry.embeddedLanguages frame = emb /\
     Registry.tokenTypes frame = tt /\
     Registry.q frame = Q /\ Q <> []).
Proof.
  unfold Registry.enterLoop. destruct Q as [| dep Q]; [by left |].
  right. destruct (Registry.loadAll (dep :: Q) r) as [ps r1]. cbn. eauto 10.
Qed.

(** The three ways an iteration can go once the loads are in. *)
Lemma _loadGrammar_resume_cases frame r :
  (exists message,
     Registry.collectBatch (Registry._syncRegistry r) (Registry.initialScopeName frame)
       new_ScopeDependencyCollector (Registry.q frame) = Throw message /\
     Registry._loadGrammar_resume frame (resolves tt) r
     = (r, Registry.Completed (rejects message) (Registry.enqueued frame))) \/
  (exists deps,
     Registry.collectBatch (Registry._syncRegistry r) (Registry.initialScopeName frame)
       new_ScopeDependencyCollector (Registry.q frame) = Return deps /\
     Registry._loadGrammar_resume frame (resolves tt) r
     = (r, Registry.Completed
             (SyncRegistry.grammarForScopeName (Registry._syncRegistry r)
                (Registry.initialScopeName frame) (Registry.initialLanguage frame)
                (Registry.embeddedLanguages frame) (Registry.tokenTypes frame))
             (Registry.enqueued frame))) \/
  (exists deps frame',
     Registry.collectBatch (Registry._syncRegistry r) (Registry.initialScopeName frame)
       new_ScopeDependencyCollector (Registry.q frame) = Return deps /\
     Registry._loadGrammar_resume frame (resolves tt) r
     = ((Registry.loadAll (Registry.q frame') r).2, Registry.Suspended frame') /\
     Registry.initialScopeName frame' = Registry.initialScopeName frame /\
     Registry.initialLanguage frame' = Registry.initialLanguage frame /\
     Registry.embeddedLanguages frame' = Registry.embeddedLanguages frame /\
     Registry.tokenTypes frame' = Registry.tokenTypes frame).
Proof.
  rewrite _loadGrammar_resume_unfold.
  destruct (Registry.collectBatch _ _ _ _) as [deps | msg]; [| left; eauto].
  right. cbv zeta.
  set (s1 := foldl Registry.enqueueFull _ _).
  set (s2 := foldl (Registry.enqueuePartial _) _ _).
  destruct (enterLoop_cases (Registry.initialScopeName frame)
              (Registry.initialLanguage frame) (Registry.embeddedLanguages frame)
              (Registry.tokenTypes frame) s1.1 s2.1 s2.2
              (Registry.enqueued frame ++ s2.2) r)
    as [[HQ ->] | (frame' & -> & ? & ? & ? & ? & HQ & _)].
  - left. exists deps. split; [done |]. by rewrite HQ, app_nil_r.
  - right. exists deps, frame'. by rewrite HQ.
Qed.

(** How a call can fail: a load was rejected, or the initial scope has no
    grammar. *)
Lemma run_rejects fuel :
  forall r frame r' reason history,
    Registry.run fuel r (Registry.Suspended frame)
    = (r', Registry.Completed (rejects reason) history) ->
    (exists p, Registry.promises r' !! p = Some (Registry.rejected reason)) \/
    (reason = Registry.no_grammar_message (Registry.initialScopeName frame) /\
     SyncRegistry.lookup (Registry._syncRegistry r') (Registry.initialScopeName frame) = None).
Proof.
  induction fuel as [| fuel IH]; intros r frame r' reason history; [done |].
  cbn [Registry.run].
  set (r1 := Registry.settleAll (Registry.awaited frame) r).
  destruct (Registry.promiseAll _ _) as [[[] | e] |] eqn:Hall; [| | done].
  - destruct (_loadGrammar_resume_cases frame r1)
      as [(msg & Hdeps & ->) | [(deps & _ & ->) | (deps & frame' & _ & -> & Hinit & _)]].
    + rewrite run_completed. intros [= <- <- <-]. right.
      by destruct (collectBatch_throw _ _ _ _ _ Hdeps) as (? & _ & ?).
    + by rewrite run_completed.
    + intros Hrun. rewrite <- Hinit. by eapply IH.
  - cbn. rewrite run_completed. intros [= <- <- <-]. left.
    destruct (promiseAll_rejects _ _ _ Hall) as (p & _ & Hp). eauto.
Qed.

(** When a call succeeds, the store holds the initial scope's grammar. *)
Lemma run_resolves fuel :
  forall r frame r' handle history,
    cache_consistent r ->
    (exists dep, dep ∈ Registry.q frame /\ scopeName dep = Registry.initialScopeName frame) \/
    is_Some (SyncRegistry.lookup (Registry._syncRegistry r) (Registry.initialScopeName frame)) ->
    Registry.run fuel r (Registry.Suspended frame)
    = (r', Registry.Completed (resolves handle) history) ->
    is_Some (SyncRegistry.lookup (Registry._syncRegistry r')
               (Registry.initialScopeName frame)) /\
    resolves handle
    = SyncRegistry.grammarForScopeName (Registry._syncRegistry r')
        (Registry.initialScopeName frame) (Registry.initialLanguage frame)
        (Registry.embeddedLanguages frame) (Registry.tokenTypes frame).
Proof.
  induction fuel as [| fuel IH]; intros r frame r' handle history Hc Hor; [done |].
  cbn [Registry.run].
  set (r1 := Registry.settleAll (Registry.awaited frame) r).
  assert (Hc1 : cache_consistent r1) by by apply cache_consistent_settleAll.
  destruct (Registry.promiseAll _ _) as [[[] | e] |] eqn:Hall; [| | done].
  2: { cbn. by rewrite run_completed. }
  assert (Hpresent : forall deps,
            Registry.collectBatch (Registry._syncRegistry r1)
              (Registry.initialScopeName frame) new_ScopeDependencyCollector
              (Registry.q frame) = Return deps ->
            is_Some (SyncRegistry.lookup (Registry._syncRegistry r1)
                       (Registry.initialScopeName frame))).
  { intros deps Hdeps. destruct Hor as [(dep & Hin & Hs) | Hsome].
    - destruct (SyncRegistry.lookup (Registry._syncRegistry r1)
                  (Registry.initialScopeName frame)) as [g |] eqn:Hg; [eauto |].
      rewrite <- Hs in Hg.
      by rewrite (collectBatch_fatal _ _ _ _ dep Hin Hs Hg) in Hdeps.
    - by apply (extends_store _ _ (extends_settleAll (Registry.awaited frame) r)). }
  destruct (_loadGrammar_resume_cases frame r1)
    as [(msg & Hdeps & ->) | [(deps & Hdeps & ->) |
        (deps & frame' & Hdeps & -> & Hinit & Hlang & Hemb & Htt)]].
  - by rewrite run_completed.
  - rewrite run_completed. intros [= <- <- <-]. split; [by eapply Hpresent | done].
  - intros Hrun.
    destruct (loadAll_spec (Registry.q frame') r1 Hc1) as (Hc2 & _ & Hstore & _).
    rewrite <- Hinit, <- Hlang, <- Hemb, <- Htt.
    eapply IH; [exact Hc2 | | exact Hrun].
    right. rewrite Hinit, Hstore. by eapply Hpresent.
Qed.

(** ** A registry constructed with no options *)






Lemma no_rejection_load scope r :
  no_rejection r -> no_rejection (Registry._loadSingleGrammar scope r).2.
Proof.
  intros [Hloc Hq].
  destruct (Registry._ensureGrammarCache r !! scope) as [p |] eqn:Hp.
  - by rewrite (_loadSingleGrammar_hit _ _ _ Hp).
  - rewrite (_loadSingleGrammar_miss _ _ Hp). split; [done |].
    intros q state. cbn.
    intros Hq'. apply lookup_app_Some in Hq' as [Hq' | [_ Hq']]; [by eapply Hq |].
    apply list_lookup_singleton_Some in Hq' as [_ <-].
    by destruct (Hloc scope) as [value ->].
Qed.

Lemma no_rejection_resume p r :
  no_rejection r -> no_rejection (Registry._doLoadSingleGrammar_resume p r).
Proof.
  intros [Hloc Hq]. unfold Registry._doLoadSingleGrammar_resume.
  destruct (Registry.promises r !! p) as [[s [[g |] | e] | | e] |] eqn:Hp; try done.
  - split; [done |]. intros q state. cbn.
    destruct (decide (p = q)) as [<- | Hne].
    + rewrite list_lookup_insert_eq by (by eapply lookup_lt_Some). by intros [= <-].
    + rewrite list_lookup_insert_ne by done. apply Hq.
  - split; [done |]. intros q state. cbn.
    destruct (decide (p = q)) as [<- | Hne].
    + rewrite list_lookup_insert_eq by (by eapply lookup_lt_Some). by intros [= <-].
    + rewrite list_lookup_insert_ne by done. apply Hq.
  - by destruct (Hq p _ Hp).
Qed.

Lemma no_rejection_reachable locator (events : list Scheduler.Event) :
  never_rejects locator ->
  no_rejection (Scheduler.registry (Scheduler.exec (Scheduler.create locator) events)).
Proof.
  intros Hnever. apply (preserved_exec no_rejection).
  - apply no_rejection_load.
  - apply no_rejection_resume.
  - by intros g inj lang emb r [Hloc Hq].
  - by intros theme r [Hloc Hq].
  - split; [done |]. intros p state Hp. cbn in Hp. by rewrite lookup_nil in Hp.
Qed.

(** C2.  A dependency whose grammar is absent from the store.
    (1) [_collectDependenciesForDep] throws
    ["No grammar provided for <initialScopeName>"] when the dependency's
    scope is the initial scope, and otherwise returns with the collector
    untouched.
    (2) An iteration whose batch holds such a dependency of the initial
    scope rejects the promise of [_loadGrammar] with that message.
    (3) Taking an absent dependency of another scope out of the batch
    changes nothing in what the batch collects or throws.
    (4) When no load is rejected and the dependencies are bounded by a
    finite [U], the resolution always completes, and it fails exactly when
    the store has no grammar for the initial scope: whatever else is
    missing, the result is the handle of the initial scope. *)
Theorem missing_grammar_handling
    (U : list ScopeDependency)
    (locator : Registry.RegistryOptions) (events : list Scheduler.Event)
    (init : string) (lang : Z) (emb : option IEmbeddedLanguagesMap)
    (types : option ITokenTypeMap) (fuel : nat) :
  let r := Scheduler.registry (Scheduler.exec (Scheduler.create locator) events) in
  never_rejects locator ->
  bounded_by U r ->
  (length U + 1 < fuel)%nat ->
  (forall (store : SyncRegistry.t) initialScopeName result dep,
     SyncRegistry.lookup store (scopeName dep) = None ->
     (scopeName dep = initialScopeName ->
      Registry._collectDependenciesForDep store initialScopeName result dep
      = Throw (Registry.no_grammar_message initialScopeName)) /\
     (scopeName dep <> initialScopeName ->
      Registry._collectDependenciesForDep store initialScopeName result dep
      = Return result)) /\
  (forall frame r0 dep,
     dep ∈ Registry.q frame ->
     scopeName dep = Registry.initialScopeName frame ->
     SyncRegistry.lookup (Registry._syncRegistry r0) (scopeName dep) = None ->
     Registry._loadGrammar_resume frame (resolves tt) r0
     = (r0, Registry.Completed
              (rejects (Registry.no_grammar_message (Registry.initialScopeName frame)))
              (Registry.enqueued frame))) /\
  (forall (store : SyncRegistry.t) initialScopeName deps l1 l2 dep,
     SyncRegistry.lookup store (scopeName dep) = None ->
     scopeName dep <> initialScopeName ->
     Registry.collectBatch store initialScopeName deps (l1 ++ dep :: l2)
     = Registry.collectBatch store initialScopeName deps (l1 ++ l2)) /\
  exists r' result history,
    Registry.resolve fuel init lang emb types r = (r', Registry.Completed result history) /\
    ((SyncRegistry.lookup (Registry._syncRegistry r') init = None /\
      result = rejects (Registry.no_grammar_message init)) \/
     (is_Some (SyncRegistry.lookup (Registry._syncRegistry r') init) /\
      result = SyncRegistry.grammarForScopeName (Registry._syncRegistry r') init lang emb types)).
Proof.
  intros r Hnever Hb Hfuel.
  split; [intros; by apply _collectDependenciesForDep_absent |].
  split.
  { intros frame r0 dep Hin Hs Hnone.
    rewrite _loadGrammar_resume_unfold.
    by rewrite (collectBatch_fatal _ _ _ _ dep Hin Hs Hnone). }
  split; [intros; by apply collectBatch_drop |].
  destruct (resolve_completes U locator events init lang emb types fuel Hb Hfuel)
    as (r' & result & history & Hres & _).
  fold r in Hres. exists r', result, history. split; [done |].
  destruct (reachable_spec locator events) as [Hc _]. fold r in Hc.
  pose proof (no_rejection_reachable locator events Hnever) as Hn. fold r in Hn.
  unfold Registry.resolve in Hres.
  pose proof (_loadGrammar_spec init lang emb types r Hc) as (Hc1 & _ & _).
  pose proof (preserved_loadGrammar no_rejection no_rejection_load init lang emb types r Hn)
    as Hn1.
  destruct (_loadGrammar_suspended init lang emb types r)
    as (frame & Hframe & Hinit & Hlang & Hemb & Htt & Hq & _).
  destruct (Registry._loadGrammar init lang emb types r) as [r1 a]. cbn in *. subst a.
  pose proof (preserved_run no_rejection no_rejection_load no_rejection_resume
                fuel r1 (Registry.Suspended frame) Hn1) as Hn'.
  rewrite Hres in Hn'. cbn in Hn'.
  destruct result as [handle | reason].
  - right.
    destruct (run_resolves fuel r1 frame r' handle history Hc1) as [Hsome Hhandle].
    + left. exists (Full {| full_scopeName := init |}).
      rewrite Hq, Hinit. split; [by left | done].
    + done.
    + rewrite Hinit, Hlang, Hemb, Htt in *. done.
  - left.
    destruct (run_rejects fuel r1 frame r' reason history Hres) as [[p Hp] | [-> Hnone]].
    + by destruct Hn' as [_ Hcells]; specialize (Hcells p _ Hp).
    + by rewrite Hinit in *.
Qed.

(** ** Grammars that are present, and their injections *)

Lemma _collectDependenciesForDep_present (store : SyncRegistry.t) init
    (result : ScopeDependencyCollector) (dep : ScopeDependency) (g : IRawGrammar) :
  SyncRegistry.lookup store (scopeName dep) = Some g ->
  Registry._collectDependenciesForDep store init result dep
  = Return
      (foldl (fun res injection => add res (Full {| full_scopeName := injection |}))
         match dep with
         | Full _ => collectDependencies result g
         | Partial d => collectSpecificDependencies result g (include d)
         end
         (default [] (SyncRegistry.injections store (scopeName dep)))).
Proof.
  intros Hg. unfold Registry._collectDependenciesForDep. rewrite Hg.
  by destruct (SyncRegistry.injections store (scopeName dep)).
Qed.

Lemma _collectDependenciesForDep_full_mono (store : SyncRegistry.t) init
    (c c' : ScopeDependencyCollector) (dep : ScopeDependency) d :
  Registry._collectDependenciesForDep store init c dep = Return c' ->
  d ∈ full c -> d ∈ full c'.
Proof.
  destruct (SyncRegistry.lookup store (scopeName dep)) as [g |] eqn:Hg.
  - rewrite (_collectDependenciesForDep_present _ _ _ _ _ Hg). intros [= <-] Hd.
    apply elem_of_full_add_injections. left.
    destruct dep; unfold collectDependencies, collectSpecificDependencies;
      apply elem_of_full_foldl_add; by left.
  - unfold Registry._collectDependenciesForDep. rewrite Hg.
    destruct (decide _); [done |]. by intros [= <-].
Qed.

Lemma collectBatch_full_mono (store : SyncRegistry.t) init (q : list ScopeDependency)
    (c c' : ScopeDependencyCollector) d :
  Registry.collectBatch store init c q = Return c' -> d ∈ full c -> d ∈ full c'.
Proof.
  revert c. induction q as [| dep q IH]; intros c; cbn.
  - by intros [= <-].
  - destruct (Registry._collectDependenciesForDep store init c dep) as [c1 | msg] eqn:E;
      [| done].
    intros Hq Hd. eapply IH; [exact Hq |].
    by eapply _collectDependenciesForDep_full_mono.
Qed.

Lemma collectBatch_injection (store : SyncRegistry.t) init (q : list ScopeDependency)
    (c deps : ScopeDependencyCollector) (dep : ScopeDependency) g l scope :
  dep ∈ q ->
  SyncRegistry.lookup store (scopeName dep) = Some g ->
  SyncRegistry.injections store (scopeName dep) = Some l ->
  scope ∈ l ->
  Registry.collectBatch store init c q = Return deps ->
  {| full_scopeName := scope |} ∈ full deps.
Proof.
  intros Hin Hg Hl Hscope. revert c.
  induction q as [| dep0 q IH]; intros c; [by apply elem_of_nil in Hin |].
  cbn.
  destruct (Registry._collectDependenciesForDep store init c dep0) as [c1 | msg] eqn:E;
    [| done].
  intros Hq. apply elem_of_cons in Hin as [<- | Hin]; [| by eapply IH].
  eapply collectBatch_full_mono; [exact Hq |].
  rewrite (_collectDependenciesForDep_present _ _ _ _ _ Hg), Hl in E.
  injection E as <-. apply elem_of_full_add_injections. by right.
Qed.

Lemma enterLoop_history init lang emb types (seenFull seenPartial : gset string)
    (Q history : list ScopeDependency) r :
  Registry.history_of
    (Registry.enterLoop init lang emb types seenFull seenPartial Q history r).2 = history.
Proof.
  unfold Registry.enterLoop. destruct Q as [| dep Q]; [done |].
  by destruct (Registry.loadAll (dep :: Q) r).
Qed.

(** C8.  Grammars that are present.
    (1) For a dependency whose grammar is in the store,
    [_collectDependenciesForDep] runs [collectDependencies] on the grammar
    when the dependency is full and [collectSpecificDependencies] with the
    dependency's [include] when it is partial, and then adds a full
    dependency for every scope of the store's injection list of the
    dependency's scope; each of these scopes is then among the collector's
    full dependencies.
    (2) In an iteration of any call in any schedule that does not fail, an
    injection scope of a dependency of the batch whose grammar is present
    is, after the iteration, among the full dependencies that were
    enqueued.
    (3) In every call, every full dependency that was ever enqueued was
    enqueued exactly once, and the loader was called for its scope exactly
    once in the life of the registry; so an injection scope that several
    grammars declare is enqueued once and loaded once. *)
Theorem injections_enqueued_once
    (locator : Registry.RegistryOptions) (events : list Scheduler.Event) :
  let w := Scheduler.exec (Scheduler.create locator) events in
  (forall (store : SyncRegistry.t) init result dep g,
     SyncRegistry.lookup store (scopeName dep) = Some g ->
     let scanned :=
       match dep with
       | Full _ => collectDependencies result g
       | Partial d => collectSpecificDependencies result g (include d)
       end in
     let injections := default [] (SyncRegistry.injections store (scopeName dep)) in
     let result' :=
       foldl (fun res injection => add res (Full {| full_scopeName := injection |}))
             scanned injections in
     Registry._collectDependenciesForDep store init result dep = Return result' /\
     forall scope, scope ∈ injections -> {| full_scopeName := scope |} ∈ full result') /\
  (forall i frame dep g l scope r0 r' a',
     Scheduler.activations w !! i = Some (Registry.Suspended frame) ->
     dep ∈ Registry.q frame ->
     SyncRegistry.lookup (Registry._syncRegistry r0) (scopeName dep) = Some g ->
     SyncRegistry.injections (Registry._syncRegistry r0) (scopeName dep) = Some l ->
     scope ∈ l ->
     Registry._loadGrammar_resume frame (resolves tt) r0 = (r', a') ->
     (forall message history, a' <> Registry.Completed (rejects message) history) ->
     Full {| full_scopeName := scope |} ∈ Registry.history_of a') /\
  (forall i a scope,
     Scheduler.activations w !! i = Some a ->
     Full {| full_scopeName := scope |} ∈ Registry.history_of a ->
     (exists n,
        Registry.history_of a !! n = Some (Full {| full_scopeName := scope |}) /\
        forall m, Registry.history_of a !! m = Some (Full {| full_scopeName := scope |}) ->
                  m = n) /\
     (exists k,
        Registry.fetches (Scheduler.registry w) !! k = Some scope /\
        forall k', Registry.fetches (Scheduler.registry w) !! k' = Some scope -> k' = k)).
Proof.
  intros w. destruct (reachable_world_ok locator events) as [Hc Hacts].
  fold w in Hc, Hacts.
  split; [| split].
  - intros store init result dep g Hg scanned injections result'.
    split; [by apply _collectDependenciesForDep_present |].
    intros scope Hscope. apply elem_of_full_add_injections. by right.
  - intros i frame dep g l scope r0 r' a' Hi Hin Hg Hl Hscope Hres Hok.
    pose proof (frame_frontier _ _ (Hacts i _ Hi)) as Hfr.
    rewrite _loadGrammar_resume_unfold in Hres.
    destruct (Registry.collectBatch _ _ _ _) as [deps | msg] eqn:Hdeps.
    2: { injection Hres as <- <-. by destruct (Hok msg (Registry.enqueued frame)). }
    pose proof (collectBatch_injection _ _ _ _ _ _ _ _ _ Hin Hg Hl Hscope Hdeps) as Hfull.
    pose proof (frontier_step _ _ _ deps Hfr) as Hstep.
    cbv zeta in Hstep, Hres.
    set (s1 := foldl Registry.enqueueFull _ _) in *.
    set (s2 := foldl (Registry.enqueuePartial _) _ _) in *.
    destruct Hstep as (Hok' & _ & _ & _ & HallF & _).
    assert (Hhist : Registry.history_of a' = Registry.enqueued frame ++ s2.2).
    { rewrite <- (enterLoop_history (Registry.initialScopeName frame)
                    (Registry.initialLanguage frame) (Registry.embeddedLanguages frame)
                    (Registry.tokenTypes frame) s1.1 s2.1 s2.2
                    (Registry.enqueued frame ++ s2.2) r0).
      by rewrite Hres. }
    rewrite Hhist. apply (seenFull_history _ _ _ Hok').
    by apply (HallF _ Hfull).
  - intros i a scope Hi Hin.
    pose proof (Hacts i a Hi) as Hact.
    assert (Hnd : NoDup (Registry.history_of a)).
    { destruct a as [frame | result history]; cbn in *.
      - eapply frontier_ok_NoDup, frame_frontier, Hact.
      - destruct Hact as [(sF & sP & Hok) _]. by eapply frontier_ok_NoDup. }
    assert (Hld : is_Some (Registry._ensureGrammarCache (Scheduler.registry w) !! scope)).
    { destruct a as [frame | result history]; cbn in *.
      - by apply (frame_loaded _ _ Hact (Full {| full_scopeName := scope |})).
      - destruct Hact as [_ Hld]. by apply (Hld (Full {| full_scopeName := scope |})). }
    split.
    + apply list_elem_of_lookup in Hin as [n Hn]. exists n. split; [done |].
      intros m Hm. by apply (proj1 (NoDup_alt _) Hnd m n _ Hm Hn).
    + destruct Hld as [k Hk]. apply Hc in Hk. exists k. split; [done |].
      intros k' Hk'.
      by apply (proj1 (NoDup_alt _) (cache_consistent_NoDup _ Hc) k' k scope).
Qed.


End Facts.
End RegistryFacts.

(** ** The test grammars *)

Module FixtureFacts.
Import Invariants Fixture.
#[local] Existing Instance test_module.

Lemma test_within_sound U (g : TestGrammar) :
  test_within U g = true -> grammar_within U g.
Proof.
  unfold test_within. rewrite andb_true_iff, !forallb_forall.
  intros [Hinc Hrules]. split.
  - intros d Hd. apply list_elem_of_In in Hd.
    by eapply bool_decide_eq_true_1, Hinc.
  - intros rule d. cbn. unfold test_includesFrom.
    destruct (list_find _ _) as [[i [name deps]] |] eqn:Hfind;
      [| by intros ?%elem_of_nil].
    apply list_find_Some in Hfind as (Hi & _ & _).
    apply list_elem_of_lookup_2, list_elem_of_In in Hi.
    specialize (Hrules _ Hi). cbn in Hrules. rewrite forallb_forall in Hrules.
    intros Hd%list_elem_of_In. by eapply bool_decide_eq_true_1, Hrules.
Qed.

Lemma bounded_by_locator_of U (grammars : list TestGrammar)
    (table : option (list (string * list string))) :
  forallb (test_within U) grammars = true ->
  from_option (table_within U) true table = true ->
  bounded_by U (Registry.new (locator_of grammars table)).
Proof.
  rewrite forallb_forall. intros Hgs Htable.
  assert (Hload : forall scope g,
            Registry.loadGrammar (locator_of grammars table) scope = resolves (Some g) ->
            grammar_within U g).
  { intros scope g. cbn. intros [= Hfind].
    destruct (list_find _ _) as [[i g'] |] eqn:Hf; [| done].
    cbn in Hfind. injection Hfind as ->.
    apply list_find_Some in Hf as (Hi & _ & _).
    apply test_within_sound, Hgs, list_elem_of_In.
    by eapply list_elem_of_lookup_2. }
  split; cbn.
  - intros scope g. unfold SyncRegistry.lookup. cbn. by rewrite lookup_empty.
  - intros scope l. unfold SyncRegistry.injections. cbn. by rewrite lookup_empty.
  - exact Hload.
  - intros f scope. destruct table as [table |]; [| done]. cbn in *.
    intros [= <-] x.
    destruct (list_find _ _) as [[i [name l]] |] eqn:Hf; [| by intros ?%elem_of_nil].
    apply list_find_Some in Hf as (Hi & _ & _).
    unfold table_within in Htable. rewrite forallb_forall in Htable.
    apply list_elem_of_lookup_2, list_elem_of_In in Hi.
    specialize (Htable _ Hi). cbn in Htable. rewrite forallb_forall in Htable.
    intros Hx%list_elem_of_In. by eapply bool_decide_eq_true_1, Htable.
  - intros p scope g. by rewrite lookup_nil.
Qed.

(** Two grammars that include each other: the loop ends after both were
    enqueued. *)
Lemma resolution_terminates_witness :
  let r := Scheduler.registry (Scheduler.exec (Scheduler.create cycle_locator) []) in
  bounded_by cycle_universe r /\
  (length cycle_universe + 1 < 4)%nat /\
  exists r' result history,
    Registry.resolve 4 "A" 0 None None r = (r', Registry.Completed result history) /\
    (length history <= length cycle_universe + 1)%nat.
Proof.
  intros r.
  assert (Hb : bounded_by cycle_universe r)
    by (apply bounded_by_locator_of; reflexivity).
  assert (Hfuel : (length cycle_universe + 1 < 4)%nat) by (cbn; lia).
  split; [exact Hb |]. split; [exact Hfuel |].
  exact (RegistryFacts.resolution_terminates cycle_universe cycle_locator []
           "A" 0 None None 4 Hb Hfuel).
Defined.

(** The scenario of the specification: [source.a] includes [source.b] as
    a whole and the rule [stringRule] of [source.c], which declares the
    injection [source.d].  Each of the four is fetched once, and [source.c]
    is entered through the rule only. *)
Example scenario_resolution :
  let res := Registry.resolve 5 "source.a" 0 None None (Registry.new scenario_locator) in
  Registry.fetches res.1 = ["source.a"; "source.b"; "source.c"; "source.d"] /\
  Registry.history_of res.2
  = [whole "source.a"; whole "source.b"; rule_of "source.c" "stringRule";
     whole "source.d"] /\
  exists handle history, res.2 = Registry.Completed (resolves handle) history.
Proof.
  split; [by vm_compute |]. split; [by vm_compute |].
  eexists _, _. vm_compute. reflexivity.
Qed.

(** The cycle: both grammars are loaded once. *)
Example cycle_resolution :
  let res := Registry.resolve 4 "A" 0 None None (Registry.new cycle_locator) in
  Registry.fetches res.1 = ["A"; "B"] /\
  Registry.history_of res.2 = [whole "A"; whole "B"].
Proof. split; by vm_compute. Qed.

(** An injection scope that two visited grammars declare. *)
Example shared_injection_resolution :
  let res := Registry.resolve 5 "x" 0 None None (Registry.new shared_injection_locator) in
  Registry.fetches res.1 = ["x"; "y"; "inj"] /\
  Registry.history_of res.2 = [whole "x"; whole "y"; whole "inj"].
Proof. split; by vm_compute. Qed.

(** Overlapping calls: four fetches for four scopes, all promises
    fulfilled, and every call has gone through the same dependencies. *)
Example overlapping_calls_fetch_once :
  let w := Scheduler.exec (Scheduler.create scenario_locator) overlapping_calls in
  Registry.fetches (Scheduler.registry w)
  = ["source.a"; "source.c"; "source.b"; "source.d"] /\
  Registry.promises (Scheduler.registry w)
  = [Registry.fulfilled; Registry.fulfilled; Registry.fulfilled; Registry.fulfilled] /\
  Registry.history_of <$> Scheduler.activations w
  = [ [whole "source.a"; whole "source.b"; rule_of "source.c" "stringRule";
       whole "source.d"];
      [whole "source.a"; whole "source.b"; rule_of "source.c" "stringRule";
       whole "source.d"];
      [whole "source.c"; whole "source.d"] ].
Proof. split; [by vm_compute |]. split; by vm_compute. Qed.

(** [source.a] alone: the grammars it includes are missing, and the
    resolution completes with the handle of [source.a]. *)
Lemma missing_grammar_handling_witness :
  let r := Scheduler.registry (Scheduler.exec (Scheduler.create lonely_locator) []) in
  never_rejects lonely_locator /\
  bounded_by scenario_universe r /\
  (length scenario_universe + 1 < 5)%nat /\
  (exists r' result history,
     Registry.resolve 5 "source.a" 0 None None r
     = (r', Registry.Completed result history) /\
     ((SyncRegistry.lookup (Registry._syncRegistry r') "source.a" = None /\
       result = rejects (Registry.no_grammar_message "source.a")) \/
      (is_Some (SyncRegistry.lookup (Registry._syncRegistry r') "source.a") /\
       result = SyncRegistry.grammarForScopeName (Registry._syncRegistry r')
                  "source.a" 0 None None))) /\
  (exists handle history,
     (Registry.resolve 5 "source.a" 0 None None r).2
     = Registry.Completed (resolves handle) history /\
     SyncRegistry.lookup
       (Registry._syncRegistry (Registry.resolve 5 "source.a" 0 None None r).1)
       "source.b" = None).
Proof.
  intros r.
  assert (Hnever : never_rejects lonely_locator) by (intros scope; cbn; eauto).
  assert (Hb : bounded_by scenario_universe r)
    by (apply bounded_by_locator_of; reflexivity).
  assert (Hfuel : (length scenario_universe + 1 < 5)%nat) by (cbn; lia).
  split; [exact Hnever |]. split; [exact Hb |]. split; [exact Hfuel |].
  split.
  - exact (proj2 (proj2 (proj2
      (RegistryFacts.missing_grammar_handling scenario_universe lonely_locator []
         "source.a" 0 None None 5 Hnever Hb Hfuel)))).
  - eexists _, _. split; vm_compute; reflexivity.
Defined.



End FixtureFacts.

(* ===================================================================== *)
(** * Part V: further properties                                          *)
(* ===================================================================== *)

Module MetadataMore.
Import Metadata MetadataFacts.

(** Every bit of a 32-bit word lies in exactly one of the five fields. *)
Lemma covered_once (i : Z) :
  0 <= i < 32 ->
  exists f, covers f i = true /\ forall g, covers g i = true -> g = f.
Proof.
  intros Hi.
  assert (Hcases : i < 8 \/ 8 <= i < 11 \/ 11 <= i < 14 \/ 14 <= i < 23 \/ 23 <= i) by lia.
  assert (Hcov : forall f, covers f i = true <->
                           offset_of f <= i < offset_of f + width_of f).
  { intros f. unfold covers. rewrite andb_true_iff, Z.leb_le, Z.ltb_lt. lia. }
  destruct Hcases as [H | [H | [H | [H | H]]]];
    [exists LanguageId | exists TokenType | exists FontStyle
     | exists Foreground | exists Background];
    (split; [apply Hcov; unfold_layout; lia |]);
    intros g Hg; apply Hcov in Hg; destruct g; unfold_layout; (reflexivity || lia).
Qed.

(** X1.  The accessor of the source, [(metadata & MASK) >>> OFFSET], read
    as arithmetic: for every integer [metadata] it is the unsigned 32-bit
    value of [metadata], divided by [2 ^ OFFSET], modulo [2 ^ width]; so a
    field is never negative (not even the background, whose mask holds the
    sign bit) and never exceeds 255 for the language id, 7 for the token
    type and the font style, and 511 for the two colours. *)
Theorem get_is_div_mod (f : Field) (metadata : Z) :
  get f metadata = (ToUint32 metadata / 2 ^ offset_of f) mod 2 ^ width_of f /\
  0 <= get f metadata <= 2 ^ width_of f - 1 /\
  (2 ^ width_of LanguageId - 1 = 255 /\ 2 ^ width_of TokenType - 1 = 7 /\
   2 ^ width_of FontStyle - 1 = 7 /\ 2 ^ width_of Foreground - 1 = 511 /\
   2 ^ width_of Background - 1 = 511).
Proof.
  pose proof (offset_range f) as Hoff. pose proof (width_range f) as [Hw Hsum].
  assert (Heq : get f metadata
                = (ToUint32 metadata / 2 ^ offset_of f) mod 2 ^ width_of f).
  { apply Z.bits_inj'. intros i Hi.
    rewrite get_testbit, Z.testbit_mod_pow2 by lia.
    destruct (Z.ltb_spec i (width_of f)) as [Hlt | Hge]; simpl; [| reflexivity].
    rewrite Z.div_pow2_bits, ToUint32_testbit by lia.
    destruct (Z.ltb_spec (i + offset_of f) 32); [reflexivity | lia]. }
  split; [exact Heq |]. split; [| repeat split].
  rewrite Heq.
  pose proof (Z.mod_pos_bound (ToUint32 metadata / 2 ^ offset_of f) (2 ^ width_of f)) as Hb.
  assert (0 < 2 ^ width_of f) by (apply Z.pow_pos_nonneg; lia). lia.
Qed.

(** X2.  The five fields determine the word: two integers whose five
    fields read the same are the same unsigned 32-bit number, and two
    words of [0, 2^32) with the same fields are equal. *)
Theorem fields_determine_word (w1 w2 : Z) :
  (forall f, get f w1 = get f w2) ->
  ToUint32 w1 = ToUint32 w2 /\
  (0 <= w1 < 2 ^ 32 -> 0 <= w2 < 2 ^ 32 -> w1 = w2).
Proof.
  intros Hfields.
  assert (Heq : ToUint32 w1 = ToUint32 w2).
  { apply Z.bits_inj'. intros i Hi. rewrite !ToUint32_testbit.
    destruct (Z.ltb_spec i 32) as [Hlt | Hge]; simpl; [| reflexivity].
    destruct (covered_once i ltac:(lia)) as (f & Hf & _).
    unfold covers in Hf. apply andb_true_iff in Hf as [Hlo Hhi].
    apply Z.leb_le in Hlo. apply Z.ltb_lt in Hhi.
    pose proof (f_equal (fun v => Z.testbit v (i - offset_of f)) (Hfields f)) as Hbit.
    cbn beta in Hbit. rewrite !get_testbit in Hbit by lia.
    replace (i - offset_of f + offset_of f) with i in Hbit by lia.
    destruct (Z.ltb_spec (i - offset_of f) (width_of f)); [exact Hbit | lia]. }
  split; [exact Heq |].
  intros H1 H2. unfold ToUint32 in Heq.
  rewrite !Z.mod_small in Heq by lia. exact Heq.
Qed.

(** Two integers that differ by [2^32] read the same. *)
Lemma fields_determine_word_witness :
  (forall f, get f 5 = get f (5 + 2 ^ 32)) /\
  ToUint32 5 = ToUint32 (5 + 2 ^ 32) /\
  (0 <= 5 < 2 ^ 32 -> 0 <= 5 + 2 ^ 32 < 2 ^ 32 -> 5 = 5 + 2 ^ 32).
Proof.
  assert (H : forall f, get f 5 = get f (5 + 2 ^ 32)) by (intros f; destruct f; reflexivity).
  split; [exact H |].
  exact (fields_determine_word 5 (5 + 2 ^ 32) H).
Defined.

End MetadataMore.

Module RegistryMore.
Import Invariants Outcomes RegistryFacts.
Section Facts.
Context `{GrammarModule}.

Implicit Types (r : Registry.t) (scope : string) (p : nat).

(** ** Rejected loads *)

Lemma resolve_rejected_load init lang emb types reason fuel r :
  cache_consistent r ->
  Registry._ensureGrammarCache r !! init = None ->
  Registry.loadGrammar (Registry._locator r) init = rejects reason ->
  exists r',
    Registry.resolve (S fuel) init lang emb types r
    = (r', Registry.Completed (rejects reason) [Full {| full_scopeName := init |}]) /\
    Registry._syncRegistry r' = Registry._syncRegistry r /\
    Registry.fetches r' = Registry.fetches r ++ [init] /\
    Registry._ensureGrammarCache r' !! init = Some (length (Registry.promises r)) /\
    Registry.promises r' !! length (Registry.promises r) = Some (Registry.rejected reason).
Proof.
  intros Hc Hmiss Hrej.
  unfold Registry.resolve, Registry._loadGrammar, Registry.enterLoop.
  cbn [Registry.loadAll scopeName full_scopeName].
  rewrite (_loadSingleGrammar_miss r init Hmiss), Hrej.
  cbn [Registry.run Registry.awaited Registry.settleAll foldl].
  set (p := length (Registry.promises r)).
  unfold Registry._doLoadSingleGrammar_resume.
  cbn [Registry.promises].
  rewrite lookup_app_r, Nat.sub_diag by (subst p; lia).
  cbn [lookup list_lookup].
  cbn [Registry.with_promises Registry.promises Registry._locator Registry._syncRegistry
       Registry._ensureGrammarCache Registry.fetches Registry.promiseAll].
  assert (Hcell : <[p := Registry.rejected reason]>
                    (Registry.promises r ++ [Registry.pending init (rejects reason)]) !! p
                  = Some (Registry.rejected reason)).
  { apply list_lookup_insert_eq. rewrite length_app. cbn. subst p. lia. }
  rewrite Hcell. cbn [Registry._loadGrammar_resume]. rewrite run_completed.
  eexists. split; [reflexivity |]. cbn.
  split; [done |]. split; [done |]. split; [by rewrite lookup_insert_eq | done].
Qed.

(** X3.  A loader failure fails the resolution.  On a registry in any
    state it can reach, when the initial scope was never requested before
    and the loader's thenable for it rejects, [_loadGrammar] rejects with
    the loader's reason after its first iteration; the loader was called
    once for the scope, nothing was registered, and the rejected promise
    stays in the cache. *)
Theorem rejected_load_rejects_resolution
    (locator : Registry.RegistryOptions) (events : list Scheduler.Event)
    (init : string) (lang : Z) (emb : option IEmbeddedLanguagesMap)
    (types : option ITokenTypeMap) (reason : string) (fuel : nat) :
  let r := Scheduler.registry (Scheduler.exec (Scheduler.create locator) events) in
  Registry._ensureGrammarCache r !! init = None ->
  Registry.loadGrammar locator init = rejects reason ->
  exists r',
    Registry.resolve (S fuel) init lang emb types r
    = (r', Registry.Completed (rejects reason) [Full {| full_scopeName := init |}]) /\
    Registry._syncRegistry r' = Registry._syncRegistry r /\
    Registry.fetches r' = Registry.fetches r ++ [init] /\
    Registry._ensureGrammarCache r' !! init = Some (length (Registry.promises r)) /\
    Registry.promises r' !! length (Registry.promises r) = Some (Registry.rejected reason).
Proof.
  intros r Hmiss Hrej.
  destruct (reachable_spec locator events) as [Hc Hloc]. fold r in Hc, Hloc.
  apply resolve_rejected_load; [done | done | by rewrite Hloc].
Qed.

(** X4.  No retry.  Once the cached promise of the initial scope is
    rejected, every later [_loadGrammar] for that scope rejects with the
    same reason at its first iteration and leaves the registry exactly as
    it was: the loader is not called again. *)
Theorem failed_load_is_not_retried
    (locator : Registry.RegistryOptions) (events : list Scheduler.Event)
    (init : string) (lang : Z) (emb : option IEmbeddedLanguagesMap)
    (types : option ITokenTypeMap) (p : nat) (reason : string) (fuel : nat) :
  let r := Scheduler.registry (Scheduler.exec (Scheduler.create locator) events) in
  Registry._ensureGrammarCache r !! init = Some p ->
  Registry.promises r !! p = Some (Registry.rejected reason) ->
  Registry.resolve (S fuel) init lang emb types r
  = (r, Registry.Completed (rejects reason) [Full {| full_scopeName := init |}]).
Proof.
  intros r Hhit Hcell.
  unfold Registry.resolve, Registry._loadGrammar, Registry.enterLoop.
  cbn [Registry.loadAll scopeName full_scopeName].
  rewrite (_loadSingleGrammar_hit r init p Hhit).
  cbn [Registry.run Registry.awaited Registry.settleAll foldl].
  assert (Hsame : Registry._doLoadSingleGrammar_resume p r = r).
  { unfold Registry._doLoadSingleGrammar_resume. by rewrite Hcell. }
  rewrite Hsame. cbn [Registry.promiseAll]. rewrite Hcell.
  cbn [Registry._loadGrammar_resume Registry.enqueued]. by rewrite run_completed.
Qed.

(** ** The configuration of a call *)

Lemma same_frontier_refl (f : Registry.Frame) : same_frontier f f.
Proof. by repeat split. Qed.

Lemma enterLoop_same init lang emb types lang' emb' types'
    (seenFull seenPartial : gset string) (Q history : list ScopeDependency) r :
  let res := Registry.enterLoop init lang emb types seenFull seenPartial Q history r in
  let res' := Registry.enterLoop init lang' emb' types' seenFull seenPartial Q history r in
  res.1 = res'.1 /\ same_up_to_configuration res.2 res'.2.
Proof.
  unfold Registry.enterLoop. destruct Q as [| dep Q]; cbn zeta.
  - by cbn.
  - destruct (Registry.loadAll (dep :: Q) r) as [ps r1]. cbn. by repeat split.
Qed.

Lemma _loadGrammar_resume_same (f f' : Registry.Frame) outcome r :
  same_frontier f f' ->
  let res := Registry._loadGrammar_resume f outcome r in
  let res' := Registry._loadGrammar_resume f' outcome r in
  res.1 = res'.1 /\ same_up_to_configuration res.2 res'.2.
Proof.
  intros (Hinit & Hfull & Hpartial & Hq & _ & Henq).
  destruct outcome as [[] | reason]; cbn zeta.
  - rewrite !_loadGrammar_resume_unfold.
    rewrite <- Hinit, <- Hfull, <- Hpartial, <- Hq, <- Henq.
    destruct (Registry.collectBatch _ _ _ _) as [deps | message]; [| by cbn].
    cbv zeta. apply enterLoop_same.
  - cbn. by rewrite Henq.
Qed.

Lemma run_same fuel :
  forall r (a a' : Registry.Activation),
    same_up_to_configuration a a' ->
    (Registry.run fuel r a).1 = (Registry.run fuel r a').1 /\
    same_up_to_configuration (Registry.run fuel r a).2 (Registry.run fuel r a').2.
Proof.
  induction fuel as [| fuel IH]; intros r a a' Hsame.
  - destruct a, a'; by cbn in *.
  - destruct a as [f | res h], a' as [f' | res' h']; try done.
    cbn [Registry.run].
    pose proof Hsame as (_ & _ & _ & _ & Hawaited & _).
    rewrite <- Hawaited.
    set (r1 := Registry.settleAll (Registry.awaited f) r).
    destruct (Registry.promiseAll _ _) as [outcome |]; [| by cbn].
    destruct (_loadGrammar_resume_same f f' outcome r1 Hsame) as [Hr Ha].
    destruct (Registry._loadGrammar_resume f outcome r1) as [r2 a2].
    destruct (Registry._loadGrammar_resume f' outcome r1) as [r2' a2'].
    cbn in Hr, Ha. subst r2'. by apply IH.
Qed.

Lemma resolve_same fuel init lang emb types lang' emb' types' r :
  let res := Registry.resolve fuel init lang emb types r in
  let res' := Registry.resolve fuel init lang' emb' types' r in
  res.1 = res'.1 /\ same_up_to_configuration res.2 res'.2.
Proof.
  unfold Registry.resolve, Registry._loadGrammar.
  destruct (enterLoop_same init lang emb types lang' emb' types'
              {[init]} ∅ [Full {| full_scopeName := init |}]
              [Full {| full_scopeName := init |}] r) as [Hr Ha].
  destruct (Registry.enterLoop init lang emb types _ _ _ _ r) as [r1 a1].
  destruct (Registry.enterLoop init lang' emb' types' _ _ _ _ r) as [r1' a1'].
  cbn in Hr, Ha. subst r1'. by apply run_same.
Qed.

(** X5.  The configuration of a call (language id, embedded languages,
    token types) has no influence on what is loaded.  Two calls of
    [_loadGrammar] for the same scope on the same registry, run to the
    same point, leave the same registry (cache, promises, loader calls,
    store) and are in the same state: both suspended with the same queue
    and seen-sets, or both rejected with the same reason, or both resolved
    with a handle of the same grammar, after enqueuing the same
    dependencies.  In particular [loadGrammar],
    [loadGrammarWithConfiguration] and [loadGrammarWithEmbeddedLanguages]
    load the same grammars. *)
Theorem configuration_does_not_influence_loading
    (fuel : nat) (init : string) (r : Registry.t)
    (lang lang' : Z) (emb emb' : option IEmbeddedLanguagesMap)
    (types types' : option ITokenTypeMap)
    (configuration : IGrammarConfiguration) (embedded : IEmbeddedLanguagesMap) :
  let plain := Registry.loadGrammar_run fuel init r in
  let configured := loadGrammarWithConfiguration_run fuel init lang configuration r in
  let with_embedded := loadGrammarWithEmbeddedLanguages_run fuel init lang embedded r in
  let res := Registry.resolve fuel init lang emb types r in
  let res' := Registry.resolve fuel init lang' emb' types' r in
  (res.1 = res'.1 /\ same_up_to_configuration res.2 res'.2) /\
  (plain.1 = configured.1 /\ same_up_to_configuration plain.2 configured.2) /\
  (plain.1 = with_embedded.1 /\ same_up_to_configuration plain.2 with_embedded.2).
Proof.
  intros plain configured with_embedded res res'.
  split; [apply resolve_same |]. split; apply resolve_same.
Qed.

(** The configuration travels with the call unchanged. *)
Lemma run_configured fuel :
  forall r frame r' handle history,
    Registry.run fuel r (Registry.Suspended frame)
    = (r', Registry.Completed (resolves handle) history) ->
    SyncRegistry.grammar_scopeName handle = Registry.initialScopeName frame /\
    configured_with handle (Registry.initialLanguage frame)
      (Registry.embeddedLanguages frame) (Registry.tokenTypes frame).
Proof.
  induction fuel as [| fuel IH]; intros r frame r' handle history; [done |].
  cbn [Registry.run].
  set (r1 := Registry.settleAll (Registry.awaited frame) r).
  destruct (Registry.promiseAll _ _) as [[[] | e] |]; [| | done].
  - destruct (_loadGrammar_resume_cases frame r1)
      as [(msg & _ & ->) | [(deps & _ & ->)
          | (deps & frame' & _ & -> & Hinit & Hlang & Hemb & Htypes)]].
    + by rewrite run_completed.
    + rewrite run_completed. intros [= <- <- <-]. by cbn.
    + intros Hrun. rewrite <- Hinit, <- Hlang, <- Hemb, <- Htypes. by eapply IH.
  - cbn. by rewrite run_completed.
Qed.

(** X6.  What the handle of a resolved call was made with.  Whatever
    state the registry is in and however many iterations the call needs,
    the promise of each public entry point resolves only with the handle
    the store makes for the scope the call was given, with the
    configuration the entry point passes on: [loadGrammar] asks for
    language 0 and no maps, [loadGrammarWithEmbeddedLanguages] for the
    given language and map and no token types,
    [loadGrammarWithConfiguration] for the two maps of the configuration. *)
Theorem entry_points_pass_their_configuration
    (fuel : nat) (init : string) (r : Registry.t) (lang : Z)
    (configuration : IGrammarConfiguration) (embedded : IEmbeddedLanguagesMap) :
  (forall r' handle history,
     Registry.loadGrammar_run fuel init r
     = (r', Registry.Completed (resolves handle) history) ->
     SyncRegistry.grammar_scopeName handle = init /\
     configured_with handle 0 None None) /\
  (forall r' handle history,
     loadGrammarWithEmbeddedLanguages_run fuel init lang embedded r
     = (r', Registry.Completed (resolves handle) history) ->
     SyncRegistry.grammar_scopeName handle = init /\
     configured_with handle lang (Some embedded) None) /\
  (forall r' handle history,
     loadGrammarWithConfiguration_run fuel init lang configuration r
     = (r', Registry.Completed (resolves handle) history) ->
     SyncRegistry.grammar_scopeName handle = init /\
     configured_with handle lang (configuration_embeddedLanguages configuration)
       (configuration_tokenTypes configuration)).
Proof.
  assert (Hgen : forall lang0 emb types r' handle history,
            Registry.resolve fuel init lang0 emb types r
            = (r', Registry.Completed (resolves handle) history) ->
            SyncRegistry.grammar_scopeName handle = init /\
            configured_with handle lang0 emb types).
  { intros lang0 emb types r' handle history. unfold Registry.resolve.
    destruct (_loadGrammar_suspended init lang0 emb types r)
      as (frame & Hframe & Hinit & Hlang & Hemb & Htypes & _).
    destruct (Registry._loadGrammar init lang0 emb types r) as [r1 a].
    cbn in Hframe. subst a. intros Hrun.
    rewrite <- Hinit, <- Hlang, <- Hemb, <- Htypes. by eapply run_configured. }
  split; [| split]; intros r' handle history; apply Hgen.
Qed.

(** ** Promises and the loader *)

Lemma promise_faithful_load scope r :
  promise_faithful r -> promise_faithful (Registry._loadSingleGrammar scope r).2.
Proof.
  intros [Hlen Hf].
  destruct (Registry._ensureGrammarCache r !! scope) as [p |] eqn:Hp.
  - by rewrite (_loadSingleGrammar_hit _ _ _ Hp).
  - rewrite (_loadSingleGrammar_miss _ _ Hp). split; cbn.
    + rewrite !length_app. cbn. lia.
    + intros q state Hq.
      apply lookup_app_Some in Hq as [Hq | [Hge Hq]].
      * destruct (Hf q state Hq) as (scope0 & Hfetch & Hstate).
        exists scope0. split; [| done]. by apply lookup_app_l_Some.
      * apply list_lookup_singleton_Some in Hq as [Hq <-].
        assert (q = length (Registry.fetches r)) as -> by lia.
        exists scope. split; [| done].
        rewrite lookup_app_r, Nat.sub_diag by done. done.
Qed.

Lemma promise_faithful_resume p r :
  promise_faithful r -> promise_faithful (Registry._doLoadSingleGrammar_resume p r).
Proof.
  intros [Hlen Hf]. unfold Registry._doLoadSingleGrammar_resume.
  destruct (Registry.promises r !! p) as [[s [[g |] | e] | | e] |] eqn:Hp; try done.
  - destruct (Hf p _ Hp) as (scope & Hfetch & -> & Hloading).
    split; cbn; [by rewrite length_insert |].
    intros q state. destruct (decide (p = q)) as [<- | Hne].
    + rewrite list_lookup_insert_eq by (by eapply lookup_lt_Some). intros [= <-].
      exists scope. split; [done |]. exists (Some g). split; [done |].
      intros g' [= <-]. unfold SyncRegistry.lookup. cbn. rewrite lookup_insert_eq. eauto.
    + rewrite list_lookup_insert_ne by done. intros Hq.
      destruct (Hf q state Hq) as (scope0 & Hfetch0 & Hstate).
      exists scope0. split; [done |].
      destruct state as [s' loading | | reason]; [done | | done].
      destruct Hstate as (value & Hvalue & Hstore). exists value. split; [done |].
      intros g' Hg'. by apply lookup_addGrammar_is_Some, Hstore.
  - destruct (Hf p _ Hp) as (scope & Hfetch & -> & Hloading).
    split; cbn; [by rewrite length_insert |].
    intros q state. destruct (decide (p = q)) as [<- | Hne].
    + rewrite list_lookup_insert_eq by (by eapply lookup_lt_Some). intros [= <-].
      exists scope. split; [done |]. by exists None.
    + rewrite list_lookup_insert_ne by done. apply Hf.
  - destruct (Hf p _ Hp) as (scope & Hfetch & -> & Hloading).
    split; cbn; [by rewrite length_insert |].
    intros q state. destruct (decide (p = q)) as [<- | Hne].
    + rewrite list_lookup_insert_eq by (by eapply lookup_lt_Some). intros [= <-].
      by exists scope.
    + rewrite list_lookup_insert_ne by done. apply Hf.
Qed.

Lemma promise_faithful_addGrammar g inj lang emb r :
  promise_faithful r -> promise_faithful (Registry.addGrammar g inj lang emb r).1.
Proof.
  intros [Hlen Hf]. split; [done |]. cbn. intros q state Hq.
  destruct (Hf q state Hq) as (scope & Hfetch & Hstate).
  exists scope. split; [done |].
  destruct state as [s' loading | | reason]; [done | | done].
  destruct Hstate as (value & Hvalue & Hstore). exists value. split; [done |].
  intros g' Hg'. by apply lookup_addGrammar_is_Some, Hstore.
Qed.

Lemma promise_faithful_reachable locator (events : list Scheduler.Event) :
  promise_faithful (Scheduler.registry (Scheduler.exec (Scheduler.create locator) events)).
Proof.
  apply (preserved_exec promise_faithful).
  - apply promise_faithful_load.
  - apply promise_faithful_resume.
  - apply promise_faithful_addGrammar.
  - by intros theme r [Hlen Hf].
  - split; [done |]. intros p state Hp. cbn in Hp. by rewrite lookup_nil in Hp.
Qed.


(** ** How a call ends *)

Lemma loaded_extends r r' scope : extends r r' -> loaded r scope -> loaded r' scope.
Proof.
  intros He (p & Hcache & Hcell). exists p.
  split; [by apply (extends_cache _ _ He) | by apply (extends_settled _ _ He)].
Qed.

Lemma rejection_cause_extends r r' reason (history : list ScopeDependency) :
  extends r r' -> rejection_cause r reason history -> rejection_cause r' reason history.
Proof.
  intros He [(dep & p & Hin & Hcache & Hcell) | Hmissing]; [left | by right].
  exists dep, p. split; [done |].
  split; [by apply (extends_cache _ _ He) | by apply (extends_settled _ _ He)].
Qed.

Lemma activation_loaded_extends r r' (a : Registry.Activation) :
  extends r r' -> activation_loaded r a -> activation_loaded r' a.
Proof.
  intros He. destruct a as [f | [g | reason] h]; cbn; [| | done].
  - intros Hl dep Hin. destruct (Hl dep Hin) as [Hq | Hloaded]; [by left | right].
    by eapply loaded_extends.
  - intros Hl dep Hin. by eapply loaded_extends, Hl.
Qed.

Lemma activation_explained_extends r r' (a : Registry.Activation) :
  extends r r' -> activation_explained r a -> activation_explained r' a.
Proof.
  intros He. destruct a as [f | [g | reason] h]; cbn; [done | done |].
  by apply rejection_cause_extends.
Qed.

Lemma promiseAll_resolves (heap : list Registry.PromiseState) (ps : list nat) value :
  Registry.promiseAll heap ps = Some (resolves value) ->
  forall p, p ∈ ps -> heap !! p = Some Registry.fulfilled.
Proof.
  induction ps as [| q ps IH]; cbn; intros Hall p Hin.
  - by apply elem_of_nil in Hin.
  - destruct (heap !! q) as [[s loading | | reason] |] eqn:Hq.
    + by destruct (Registry.promiseAll heap ps) as [[] |].
    + apply elem_of_cons in Hin as [-> | Hin]; [done | by apply IH].
    + done.
    + by destruct (Registry.promiseAll heap ps) as [[] |].
Qed.

Lemma awaited_dependency r (frame : Registry.Frame) p :
  frame_ok r frame -> p ∈ Registry.awaited frame ->
  exists dep,
    dep ∈ Registry.q frame /\ dep ∈ Registry.enqueued frame /\
    Registry._ensureGrammarCache r !! scopeName dep = Some p.
Proof.
  intros Hok Hin. apply list_elem_of_lookup in Hin as [i Hi].
  destruct (Forall2_lookup_r _ _ _ _ _ (frame_awaited _ _ Hok) Hi) as (dep & Hdep & Hcache).
  exists dep. apply list_elem_of_lookup_2 in Hdep.
  split; [done |]. split; [| done].
  destruct (frame_batch _ _ Hok) as [k ->]. apply elem_of_app. by right.
Qed.

Lemma batch_dependency r (frame : Registry.Frame) dep :
  frame_ok r frame -> dep ∈ Registry.q frame ->
  exists p, p ∈ Registry.awaited frame /\
            Registry._ensureGrammarCache r !! scopeName dep = Some p.
Proof.
  intros Hok Hin. apply list_elem_of_lookup in Hin as [i Hi].
  destruct (Forall2_lookup_l _ _ _ _ _ (frame_awaited _ _ Hok) Hi) as (p & Hp & Hcache).
  exists p. split; [by eapply list_elem_of_lookup_2 | done].
Qed.

Lemma _loadGrammar_resume_outcome (frame : Registry.Frame) outcome r :
  cache_consistent r -> frame_ok r frame ->
  Registry.promiseAll (Registry.promises r) (Registry.awaited frame) = Some outcome ->
  activation_loaded r (Registry.Suspended frame) ->
  let res := Registry._loadGrammar_resume frame outcome r in
  activation_loaded res.1 res.2 /\ activation_explained res.1 res.2.
Proof.
  intros Hc Hok Hall Hloaded. destruct outcome as [[] | reason]; cbn zeta.
  - assert (Hevery : forall dep, dep ∈ Registry.enqueued frame -> loaded r (scopeName dep)).
    { intros dep Hin. destruct (Hloaded dep Hin) as [Hq | Hl]; [| done].
      destruct (batch_dependency r frame dep Hok Hq) as (p & Hp & Hcache).
      exists p. split; [done |]. by eapply promiseAll_resolves. }
    destruct (_loadGrammar_resume_cases frame r)
      as [(msg & Hdeps & Hres) | [(deps & _ & Hres) | (deps & frame' & _ & Hres & _)]].
    + rewrite Hres. cbn. split; [done |]. right.
      exists (Registry.initialScopeName frame).
      split; [apply (frame_first _ _ Hok) |].
      by destruct (collectBatch_throw _ _ _ _ _ Hdeps) as [-> _].
    + rewrite Hres. by cbn.
    + destruct (_loadGrammar_resume_step frame r _ frame' (frame_frontier _ _ Hok) Hres)
        as (_ & _ & _ & Henq & _).
      rewrite Hres. cbn. split; [| done].
      intros dep Hin. rewrite Henq in Hin. apply elem_of_app in Hin as [Hin | Hin].
      * right. destruct (loadAll_spec (Registry.q frame') r Hc) as (_ & He & _).
        by eapply loaded_extends, Hevery.
      * by left.
  - cbn. split; [done |]. left.
    destruct (promiseAll_rejects _ _ _ Hall) as (p & Hp & Hcell).
    destruct (awaited_dependency r frame p Hok Hp) as (dep & _ & Hin & Hcache).
    by exists dep, p.
Qed.

Lemma outcomes_step (w : Scheduler.World) (e : Scheduler.Event) :
  world_ok w ->
  (forall i a, Scheduler.activations w !! i = Some a ->
               activation_loaded (Scheduler.registry w) a /\
               activation_explained (Scheduler.registry w) a) ->
  forall i a, Scheduler.activations (Scheduler.step w e) !! i = Some a ->
              activation_loaded (Scheduler.registry (Scheduler.step w e)) a /\
              activation_explained (Scheduler.registry (Scheduler.step w e)) a.
Proof.
  intros [Hc Hok] Hout.
  destruct (step_spec w e Hc) as [_ He].
  assert (Hold : forall i a, Scheduler.activations w !! i = Some a ->
            activation_loaded (Scheduler.registry (Scheduler.step w e)) a /\
            activation_explained (Scheduler.registry (Scheduler.step w e)) a).
  { intros i a Hi. destruct (Hout i a Hi) as [Hl Hx].
    split; [by eapply activation_loaded_extends | by eapply activation_explained_extends]. }
  destruct e as [init lang emb tt | g inj lang emb | theme | scope | p | k];
    unfold Scheduler.step in *; try exact Hold.
  - destruct (_loadGrammar_suspended init lang emb tt (Scheduler.registry w))
      as (frame & Hframe & _ & _ & _ & _ & Hq & Henq).
    destruct (Registry._loadGrammar init lang emb tt (Scheduler.registry w)) as [r1 a1].
    cbn in *. subst a1. intros i a Hi.
    apply lookup_app_Some in Hi as [Hi | [_ Hi]]; [by eapply Hold |].
    apply list_lookup_singleton_Some in Hi as [_ <-]. cbn. split; [| done].
    intros dep Hin. left. by rewrite Hq, <- Henq.
  - destruct (Scheduler.activations w !! k) as [[frame | result history] |] eqn:Hk;
      try exact Hold.
    destruct (Registry.promiseAll _ _) as [outcome |] eqn:Hall; [| exact Hold].
    pose proof (_loadGrammar_resume_outcome frame outcome (Scheduler.registry w) Hc
                  (Hok k _ Hk) Hall (proj1 (Hout k _ Hk))) as Hnew.
    destruct (Registry._loadGrammar_resume frame outcome (Scheduler.registry w))
      as [r1 a1].
    cbn in *. intros i a Hi.
    apply list_lookup_insert_Some in Hi as [(<- & <- & _) | [_ Hi]]; [done |].
    by eapply Hold.
Qed.

Lemma outcomes_reachable locator (events : list Scheduler.Event) :
  let w := Scheduler.exec (Scheduler.create locator) events in
  forall i a, Scheduler.activations w !! i = Some a ->
              activation_loaded (Scheduler.registry w) a /\
              activation_explained (Scheduler.registry w) a.
Proof.
  induction events as [| e events IH] using rev_ind; cbn zeta.
  - intros i a Hi. cbn in Hi. by rewrite lookup_nil in Hi.
  - rewrite exec_app. cbn. apply outcomes_step; [apply reachable_world_ok | exact IH].
Qed.


(** X9.  A call is rejected for one of two causes only.  In every
    schedule, when the promise of [_loadGrammar] has been rejected, either
    the loader's thenable for one of the dependencies the call had put on
    its queue rejected, with the same reason, or the reason is the message
    ["No grammar provided for <scope>"] for the scope the call was made
    for.  A missing grammar of any other scope never rejects a call. *)
Theorem rejected_call_has_a_cause
    (locator : Registry.RegistryOptions) (events : list Scheduler.Event)
    (i : nat) (reason : string) (history : list ScopeDependency) :
  let w := Scheduler.exec (Scheduler.create locator) events in
  Scheduler.activations w !! i = Some (Registry.Completed (rejects reason) history) ->
  (exists dep,
     dep ∈ history /\
     Registry.loadGrammar locator (scopeName dep) = rejects reason) \/
  (exists init,
     history !! 0%nat = Some (Full {| full_scopeName := init |}) /\
     reason = Registry.no_grammar_message init).
Proof.
  intros w Hi.
  destruct (outcomes_reachable locator events i _ Hi) as [_ Hx].
  destruct Hx as [(dep & p & Hin & Hcache & Hcell) | Hmissing]; [left | by right].
  destruct (reachable_spec locator events) as [Hc Hloc]. fold w in Hc, Hloc.
  destruct (promise_faithful_reachable locator events) as [_ Hf]. fold w in Hf.
  destruct (Hf p _ Hcell) as (scope & Hfetch & Hrej).
  assert (scope = scopeName dep) as ->.
  { destruct Hc as [_ Hiff]. apply Hiff in Hcache. congruence. }
  exists dep. by rewrite <- Hloc.
Qed.

(** ** What the loader is asked for *)

Lemma _loadSingleGrammar_fetches scope r s :
  s ∈ Registry.fetches (Registry._loadSingleGrammar scope r).2 ->
  s ∈ Registry.fetches r \/ s = scope.
Proof.
  destruct (Registry._ensureGrammarCache r !! scope) as [p |] eqn:Hp.
  - rewrite (_loadSingleGrammar_hit _ _ _ Hp). by left.
  - rewrite (_loadSingleGrammar_miss _ _ Hp). cbn.
    rewrite elem_of_app, list_elem_of_singleton. tauto.
Qed.

Lemma loadAll_fetches (q : list ScopeDependency) r s :
  s ∈ Registry.fetches (Registry.loadAll q r).2 ->
  s ∈ Registry.fetches r \/ exists dep, dep ∈ q /\ scopeName dep = s.
Proof.
  revert r. induction q as [| dep q IH]; intros r; cbn; [by left |].
  pose proof (_loadSingleGrammar_fetches (scopeName dep) r s) as Hone.
  destruct (Registry._loadSingleGrammar (scopeName dep) r) as [p r1].
  specialize (IH r1).
  destruct (Registry.loadAll q r1) as [ps r2]. cbn in *.
  intros Hin. destruct (IH Hin) as [Hin1 | (d & Hd & Hs)].
  - destruct (Hone Hin1) as [? | ->]; [by left | right].
    exists dep. split; [by left | done].
  - right. exists d. split; [by right | done].
Qed.

Lemma enterLoop_fetches init lang emb types (seenFull seenPartial : gset string)
    (Q history : list ScopeDependency) r s :
  s ∈ Registry.fetches
        (Registry.enterLoop init lang emb types seenFull seenPartial Q history r).1 ->
  s ∈ Registry.fetches r \/ exists dep, dep ∈ Q /\ scopeName dep = s.
Proof.
  unfold Registry.enterLoop. destruct Q as [| dep Q]; [by left |].
  pose proof (loadAll_fetches (dep :: Q) r s) as Hall.
  by destruct (Registry.loadAll (dep :: Q) r) as [ps r1].
Qed.

Lemma _loadGrammar_resume_fetches (frame : Registry.Frame) outcome r :
  let res := Registry._loadGrammar_resume frame outcome r in
  (forall s, s ∈ Registry.fetches res.1 ->
     s ∈ Registry.fetches r \/
     exists dep, dep ∈ Registry.history_of res.2 /\ scopeName dep = s) /\
  (forall dep, dep ∈ Registry.enqueued frame -> dep ∈ Registry.history_of res.2).
Proof.
  destruct outcome as [[] | reason]; cbn zeta; [| by split; [left |]].
  rewrite _loadGrammar_resume_unfold.
  destruct (Registry.collectBatch _ _ _ _) as [deps | message]; [| by split; [left |]].
  cbv zeta.
  set (s1 := foldl Registry.enqueueFull _ _).
  set (s2 := foldl (Registry.enqueuePartial _) _ _).
  rewrite enterLoop_history. split.
  - intros s Hin. apply enterLoop_fetches in Hin as [? | (dep & Hdep & Hs)]; [by left |].
    right. exists dep. split; [| done]. apply elem_of_app. by right.
  - intros dep Hin. apply elem_of_app. by left.
Qed.

Lemma requested_step (w : Scheduler.World) (e : Scheduler.Event) (direct : list string) :
  (forall s, s ∈ Registry.fetches (Scheduler.registry w) ->
             s ∈ direct \/ requested w s) ->
  forall s, s ∈ Registry.fetches (Scheduler.registry (Scheduler.step w e)) ->
            s ∈ direct ++ direct_loads [e] \/ requested (Scheduler.step w e) s.
Proof.
  intros Hw s.
  assert (Hold : s ∈ Registry.fetches (Scheduler.registry w) ->
                 Scheduler.activations (Scheduler.step w e) = Scheduler.activations w ->
                 s ∈ direct ++ direct_loads [e] \/ requested (Scheduler.step w e) s).
  { intros Hin Hsame. destruct (Hw s Hin) as [? | (i & a & dep & Hi & Hdep)].
    - left. apply elem_of_app. by left.
    - right. exists i, a, dep. by rewrite Hsame. }
  destruct e as [init lang emb tt | g inj lang emb | theme | scope | p | k];
    unfold Scheduler.step in *.
  - pose proof (enterLoop_fetches init lang emb tt {[init]} ∅
                  [Full {| full_scopeName := init |}] [Full {| full_scopeName := init |}]
                  (Scheduler.registry w) s) as Hnew.
    destruct (_loadGrammar_suspended init lang emb tt (Scheduler.registry w))
      as (frame & Hframe & _ & _ & _ & _ & _ & Henq).
    unfold Registry._loadGrammar in *.
    destruct (Registry.enterLoop _ _ _ _ _ _ _ _ _) as [r1 a1]. cbn in *. subst a1.
    intros Hin. destruct (Hnew Hin) as [Hin0 | (dep & Hdep & Hs)].
    + destruct (Hw s Hin0) as [? | (i & a & dep & Hi & Hdep)].
      * left. apply elem_of_app. by left.
      * right. exists i, a, dep. split; [cbn; by apply lookup_app_l_Some | done].
    + right. exists (length (Scheduler.activations w)), (Registry.Suspended frame), dep.
      split; [| by cbn; rewrite Henq].
      cbn. rewrite lookup_app_r, Nat.sub_diag by done. done.
  - intros Hin. by apply Hold.
  - intros Hin. by apply Hold.
  - cbn. intros Hin. apply _loadSingleGrammar_fetches in Hin as [Hin | ->].
    + destruct (Hw s Hin) as [? | Hreq]; [| by right].
      left. apply elem_of_app. by left.
    + left. apply elem_of_app. right. by left.
  - cbn. destruct (_doLoadSingleGrammar_resume_fields p (Scheduler.registry w))
      as (_ & _ & -> & _).
    intros Hin. destruct (Hw s Hin) as [? | Hreq]; [| by right].
    left. apply elem_of_app. by left.
  - destruct (Scheduler.activations w !! k) as [[frame | result history] |] eqn:Hk;
      try (intros Hin; by apply Hold).
    destruct (Registry.promiseAll _ _) as [outcome |]; [| intros Hin; by apply Hold].
    destruct (_loadGrammar_resume_fetches frame outcome (Scheduler.registry w))
      as [Hnew Hgrow].
    destruct (Registry._loadGrammar_resume frame outcome (Scheduler.registry w))
      as [r1 a1].
    cbn in *.
    assert (Hat : <[k := a1]> (Scheduler.activations w) !! k = Some a1)
      by (apply list_lookup_insert_eq; by eapply lookup_lt_Some).
    intros Hin. destruct (Hnew s Hin) as [Hin0 | (dep & Hdep & Hs)].
    + destruct (Hw s Hin0) as [? | (i & a & dep & Hi & Hdep & Hs)].
      * left. apply elem_of_app. by left.
      * right. destruct (decide (i = k)) as [-> | Hne].
        -- exists k, a1, dep. split; [done |]. split; [| done].
           apply Hgrow. rewrite Hk in Hi. by injection Hi as <-.
        -- exists i, a, dep. split; [| done]. cbn. by rewrite list_lookup_insert_ne.
    + right. by exists k, a1, dep.
Qed.

Lemma direct_loads_snoc (events : list Scheduler.Event) (e : Scheduler.Event) :
  direct_loads (events ++ [e]) = direct_loads events ++ direct_loads [e].
Proof. unfold direct_loads. by rewrite omap_app. Qed.

(** X10.  The loader is called only for what was asked for.  In every
    schedule, every scope name the loader was called with was given to
    [_loadSingleGrammar] directly or was put on the queue of a call of
    [_loadGrammar]: the constructor, [setTheme], [addGrammar],
    [grammarForScopeName] and the continuations of the loads call the
    loader for nothing of their own. *)
Theorem loader_called_only_when_requested
    (locator : Registry.RegistryOptions) (events : list Scheduler.Event)
    (scope : string) :
  let w := Scheduler.exec (Scheduler.create locator) events in
  scope ∈ Registry.fetches (Scheduler.registry w) ->
  scope ∈ direct_loads events \/
  exists i a dep,
    Scheduler.activations w !! i = Some a /\
    dep ∈ Registry.history_of a /\ scopeName dep = scope.
Proof.
  cbn zeta. revert scope.
  induction events as [| e events IH] using rev_ind.
  - intros scope Hin. cbn in Hin. by apply elem_of_nil in Hin.
  - rewrite exec_app, direct_loads_snoc. cbn [Scheduler.exec foldl].
    by apply requested_step.
Qed.

(** ** Grammars that were added by hand, and grammars with another name *)

Lemma store_kept_load scope0 scope r :
  is_Some (SyncRegistry.lookup (Registry._syncRegistry r) scope0) ->
  is_Some (SyncRegistry.lookup
             (Registry._syncRegistry (Registry._loadSingleGrammar scope r).2) scope0).
Proof.
  destruct (Registry._ensureGrammarCache r !! scope) as [p |] eqn:Hp.
  - by rewrite (_loadSingleGrammar_hit _ _ _ Hp).
  - by rewrite (_loadSingleGrammar_miss _ _ Hp).
Qed.

Lemma store_kept_resume scope0 p r :
  is_Some (SyncRegistry.lookup (Registry._syncRegistry r) scope0) ->
  is_Some (SyncRegistry.lookup
             (Registry._syncRegistry (Registry._doLoadSingleGrammar_resume p r)) scope0).
Proof. apply (extends_store _ _ (extends_resume p r)). Qed.

Lemma fetched_kept_load scope0 scope r :
  scope0 ∈ Registry.fetches r ->
  scope0 ∈ Registry.fetches (Registry._loadSingleGrammar scope r).2.
Proof.
  destruct (Registry._ensureGrammarCache r !! scope) as [p |] eqn:Hp.
  - by rewrite (_loadSingleGrammar_hit _ _ _ Hp).
  - rewrite (_loadSingleGrammar_miss _ _ Hp). cbn. intros Hin. apply elem_of_app. by left.
Qed.

Lemma fetched_kept_resume scope0 p r :
  scope0 ∈ Registry.fetches r ->
  scope0 ∈ Registry.fetches (Registry._doLoadSingleGrammar_resume p r).
Proof. by destruct (_doLoadSingleGrammar_resume_fields p r) as (_ & _ & -> & _). Qed.

(** X11.  [addGrammar] and a later load of the same scope.  After
    [addGrammar(g)], now or at any later time, a call of [_loadGrammar]
    for [g]'s scope name still goes to the loader when the cache has no
    promise for the scope ([addGrammar] does not fill the cache); the
    store keeps a grammar for the scope; and the call, when it has ended,
    was rejected only if the loader's thenable for some scope rejected, with
    that reason, so never because the grammar of the initial scope is
    missing. *)
Theorem added_grammar_is_still_requested_and_never_missing
    (locator : Registry.RegistryOptions) (before after : list Scheduler.Event)
    (g : IRawGrammar) (injections : list string) (lang0 : Z)
    (emb0 : option IEmbeddedLanguagesMap)
    (fuel : nat) (lang : Z) (emb : option IEmbeddedLanguagesMap)
    (types : option ITokenTypeMap) :
  let events := before ++ Scheduler.call_addGrammar g injections lang0 emb0 :: after in
  let r := Scheduler.registry (Scheduler.exec (Scheduler.create locator) events) in
  let res := Registry.resolve fuel (rawScopeName g) lang emb types r in
  rawScopeName g ∈ Registry.fetches res.1 /\
  (Registry._ensureGrammarCache r !! rawScopeName g = None ->
   Registry.fetches (Registry._loadGrammar (rawScopeName g) lang emb types r).1
   = Registry.fetches r ++ [rawScopeName g]) /\
  is_Some (SyncRegistry.lookup (Registry._syncRegistry res.1) (rawScopeName g)) /\
  forall reason history,
    res.2 = Registry.Completed (rejects reason) history ->
    exists scope,
      scope ∈ Registry.fetches res.1 /\
      Registry.loadGrammar locator scope = rejects reason.
Proof.
  intros events r res.
  set (init := rawScopeName g).
  destruct (reachable_spec locator events) as [Hc Hloc]. fold r in Hc, Hloc.
  pose proof (promise_faithful_reachable locator events) as Hf. fold r in Hf.
  assert (Hstore : is_Some (SyncRegistry.lookup (Registry._syncRegistry r) init)).
  { subst r events. rewrite exec_app. cbn [Scheduler.exec foldl].
    set (w1 := Scheduler.step _ _).
    assert (H1 : is_Some (SyncRegistry.lookup
                            (Registry._syncRegistry (Scheduler.registry w1)) init)).
    { subst w1 init. unfold Scheduler.step, SyncRegistry.lookup. cbn.
      rewrite lookup_insert_eq. eauto. }
    assert (Hc1 : cache_consistent (Scheduler.registry w1)).
    { subst w1. apply step_spec. apply reachable_spec. }
    destruct (exec_spec w1 after Hc1) as [_ He]. by apply (extends_store _ _ He). }
  assert (Hmiss : Registry._ensureGrammarCache r !! init = None ->
            Registry.fetches (Registry._loadGrammar init lang emb types r).1
            = Registry.fetches r ++ [init]).
  { intros Hnone. unfold Registry._loadGrammar, Registry.enterLoop.
    cbn [Registry.loadAll scopeName full_scopeName].
    by rewrite (_loadSingleGrammar_miss r init Hnone). }
  assert (Hfetched : init ∈ Registry.fetches (Registry._loadGrammar init lang emb types r).1).
  { destruct (Registry._ensureGrammarCache r !! init) as [p |] eqn:Hp.
    - unfold Registry._loadGrammar, Registry.enterLoop.
      cbn [Registry.loadAll scopeName full_scopeName].
      rewrite (_loadSingleGrammar_hit r init p Hp). cbn.
      apply Hc in Hp. by eapply list_elem_of_lookup_2.
    - rewrite (Hmiss eq_refl). apply elem_of_app. right. by left. }
  pose proof (preserved_loadGrammar
                (fun r0 => is_Some (SyncRegistry.lookup (Registry._syncRegistry r0) init))
                (store_kept_load init) init lang emb types r Hstore) as Hstore1.
  pose proof (preserved_loadGrammar promise_faithful promise_faithful_load
                init lang emb types r Hf) as Hf1.
  pose proof (_loadGrammar_spec init lang emb types r Hc) as (_ & He1 & _).
  destruct (_loadGrammar_suspended init lang emb types r)
    as (frame & Hframe & Hinit & _).
  subst res. unfold Registry.resolve. fold init.
  destruct (Registry._loadGrammar init lang emb types r) as [r1 a]. cbn in *. subst a.
  pose proof (preserved_run
                (fun r0 => is_Some (SyncRegistry.lookup (Registry._syncRegistry r0) init))
                (store_kept_load init) (store_kept_resume init)
                fuel r1 (Registry.Suspended frame) Hstore1) as Hstore2.
  pose proof (preserved_run (fun r0 => init ∈ Registry.fetches r0)
                (fetched_kept_load init) (fetched_kept_resume init)
                fuel r1 (Registry.Suspended frame) Hfetched) as Hfetched2.
  pose proof (preserved_run promise_faithful promise_faithful_load promise_faithful_resume
                fuel r1 (Registry.Suspended frame) Hf1) as Hf2.
  assert (Hloc2 : Registry._locator (Registry.run fuel r1 (Registry.Suspended frame)).1
                  = locator).
  { pose proof (preserved_run (fun r0 => Registry._locator r0 = locator)) as Hp.
    apply Hp.
    - intros scope r0 H0. destruct (Registry._ensureGrammarCache r0 !! scope) as [p |] eqn:E.
      + by rewrite (_loadSingleGrammar_hit _ _ _ E).
      + by rewrite (_loadSingleGrammar_miss _ _ E).
    - intros p r0 H0.
      by destruct (_doLoadSingleGrammar_resume_fields p r0) as (-> & _).
    - by rewrite (extends_locator _ _ He1). }
  split; [done |]. split; [done |]. split; [done |].
  intros reason history Hres.
  destruct (Registry.run fuel r1 (Registry.Suspended frame)) as [r' a'] eqn:Hrun.
  cbn in *. subst a'.
  destruct (run_rejects fuel r1 frame r' reason history Hrun) as [[p Hp] | [_ Hnone]].
  - destruct Hf2 as [_ Hf2]. destruct (Hf2 p _ Hp) as (scope & Hfetch & Hrej).
    exists scope. split; [by eapply list_elem_of_lookup_2 | by rewrite <- Hloc2].
  - rewrite Hinit in Hnone. rewrite Hnone in Hstore2. by destruct Hstore2.
Qed.

(** X12.  A grammar with another name.  [_doLoadSingleGrammar] hands the
    grammar the loader gave to the store without the scope name it had
    asked for, so it is kept under the grammar's own name.  When the
    loader answers the request for the initial scope with a grammar of a
    different scope name, the load is fulfilled, the grammar is in the
    store under its own name, and the call is rejected after its first
    iteration with ["No grammar provided for <initial scope>"]. *)
Theorem misnamed_grammar_is_reported_missing
    (locator : Registry.RegistryOptions) (events : list Scheduler.Event)
    (init : string) (g : IRawGrammar) (lang : Z)
    (emb : option IEmbeddedLanguagesMap) (types : option ITokenTypeMap) (fuel : nat) :
  let r := Scheduler.registry (Scheduler.exec (Scheduler.create locator) events) in
  Registry._ensureGrammarCache r !! init = None ->
  SyncRegistry.lookup (Registry._syncRegistry r) init = None ->
  Registry.loadGrammar locator init = resolves (Some g) ->
  rawScopeName g <> init ->
  exists r',
    Registry.resolve (S fuel) init lang emb types r
    = (r', Registry.Completed (rejects (Registry.no_grammar_message init))
             [Full {| full_scopeName := init |}]) /\
    Registry.fetches r' = Registry.fetches r ++ [init] /\
    Registry.promises r' !! length (Registry.promises r) = Some Registry.fulfilled /\
    SyncRegistry.lookup (Registry._syncRegistry r') (rawScopeName g) = Some g /\
    SyncRegistry.lookup (Registry._syncRegistry r') init = None.
Proof.
  intros r Hmiss Hnone Hload Hname.
  destruct (reachable_spec locator events) as [Hc Hloc]. fold r in Hc, Hloc.
  unfold Registry.resolve, Registry._loadGrammar, Registry.enterLoop.
  cbn [Registry.loadAll scopeName full_scopeName].
  rewrite (_loadSingleGrammar_miss r init Hmiss), Hloc, Hload.
  cbn [Registry.run Registry.awaited Registry.settleAll foldl].
  set (p := length (Registry.promises r)).
  unfold Registry._doLoadSingleGrammar_resume.
  cbn [Registry.promises].
  rewrite lookup_app_r, Nat.sub_diag by (subst p; lia).
  cbn [lookup list_lookup].
  cbn [Registry.with_promises Registry.with_syncRegistry Registry.promises
       Registry._locator Registry._syncRegistry Registry._ensureGrammarCache
       Registry.fetches Registry.promiseAll].
  assert (Hcell : <[p := Registry.fulfilled]>
                    (Registry.promises r ++ [Registry.pending init (resolves (Some g))]) !! p
                  = Some Registry.fulfilled).
  { apply list_lookup_insert_eq. rewrite length_app. cbn. subst p. lia. }
  rewrite Hcell. rewrite _loadGrammar_resume_unfold.
  cbn [Registry._syncRegistry Registry.initialScopeName Registry.q Registry.enqueued].
  set (store' := SyncRegistry.addGrammar _ _ _).
  assert (Hnone' : SyncRegistry.lookup store' init = None).
  { subst store'. unfold SyncRegistry.lookup in *. cbn. by rewrite lookup_insert_ne. }
  rewrite (collectBatch_fatal store' init [Full {| full_scopeName := init |}] _
             (Full {| full_scopeName := init |})); [| by left | done | done].
  rewrite run_completed.
  eexists. split; [reflexivity |]. cbn.
  split; [done |]. split; [done |]. split; [| done].
  subst store'. unfold SyncRegistry.lookup. cbn. by rewrite lookup_insert_eq.
Qed.


(** ** The theme *)

Lemma setTheme_loadSingleGrammar theme scope r :
  Registry._loadSingleGrammar scope (Registry.setTheme theme r)
  = ((Registry._loadSingleGrammar scope r).1,
     Registry.setTheme theme (Registry._loadSingleGrammar scope r).2).
Proof.
  unfold Registry._loadSingleGrammar. cbn.
  by destruct (Registry._ensureGrammarCache r !! scope).
Qed.

Lemma setTheme_loadAll theme (q : list ScopeDependency) r :
  Registry.loadAll q (Registry.setTheme theme r)
  = ((Registry.loadAll q r).1, Registry.setTheme theme (Registry.loadAll q r).2).
Proof.
  revert r. induction q as [| dep q IH]; intros r; [done |].
  cbn [Registry.loadAll]. rewrite setTheme_loadSingleGrammar.
  destruct (Registry._loadSingleGrammar (scopeName dep) r) as [p r1].
  cbn [fst snd]. rewrite IH. by destruct (Registry.loadAll q r1).
Qed.

Lemma setTheme_resume theme p r :
  Registry._doLoadSingleGrammar_resume p (Registry.setTheme theme r)
  = Registry.setTheme theme (Registry._doLoadSingleGrammar_resume p r).
Proof.
  unfold Registry._doLoadSingleGrammar_resume. cbn.
  by destruct (Registry.promises r !! p) as [[s [[g |] | e] | | e] |].
Qed.

Lemma setTheme_settleAll theme ps r :
  Registry.settleAll ps (Registry.setTheme theme r)
  = Registry.setTheme theme (Registry.settleAll ps r).
Proof.
  revert r. induction ps as [| p ps IH]; intros r; [done |].
  cbn. rewrite setTheme_resume. apply IH.
Qed.

Lemma setTheme_collectBatch (store : SyncRegistry.t) theme init
    (q : list ScopeDependency) (c : ScopeDependencyCollector) :
  Registry.collectBatch (SyncRegistry.setTheme store theme) init c q
  = Registry.collectBatch store init c q.
Proof.
  revert c. induction q as [| dep q IH]; intros c; [done |].
  cbn [Registry.collectBatch].
  change (Registry._collectDependenciesForDep (SyncRegistry.setTheme store theme) init c dep)
    with (Registry._collectDependenciesForDep store init c dep).
  destruct (Registry._collectDependenciesForDep store init c dep); [apply IH | done].
Qed.

Lemma setTheme_enterLoop theme init lang emb types (seenFull seenPartial : gset string)
    (Q history : list ScopeDependency) r :
  let res := Registry.enterLoop init lang emb types seenFull seenPartial Q history r in
  Registry.enterLoop init lang emb types seenFull seenPartial Q history
    (Registry.setTheme theme r)
  = (Registry.setTheme theme res.1, res.2).
Proof.
  unfold Registry.enterLoop. destruct Q as [| dep Q]; [done |].
  rewrite setTheme_loadAll. by destruct (Registry.loadAll (dep :: Q) r).
Qed.

Lemma setTheme_loadGrammar_resume theme (frame : Registry.Frame) outcome r :
  let res := Registry._loadGrammar_resume frame outcome r in
  Registry._loadGrammar_resume frame outcome (Registry.setTheme theme r)
  = (Registry.setTheme theme res.1, res.2).
Proof.
  destruct outcome as [[] | reason]; [| done]. cbn zeta.
  rewrite !_loadGrammar_resume_unfold.
  change (Registry._syncRegistry (Registry.setTheme theme r))
    with (SyncRegistry.setTheme (Registry._syncRegistry r) (Some theme)).
  rewrite setTheme_collectBatch.
  destruct (Registry.collectBatch _ _ _ _) as [deps | message]; [| done].
  cbv zeta. apply setTheme_enterLoop.
Qed.

Lemma setTheme_run theme fuel :
  forall r (a : Registry.Activation),
    Registry.run fuel (Registry.setTheme theme r) a
    = (Registry.setTheme theme (Registry.run fuel r a).1, (Registry.run fuel r a).2).
Proof.
  induction fuel as [| fuel IH]; intros r a; [by destruct a |].
  destruct a as [frame | result history]; [| done].
  cbn [Registry.run]. rewrite setTheme_settleAll.
  set (r1 := Registry.settleAll (Registry.awaited frame) r).
  change (Registry.promises (Registry.setTheme theme r1)) with (Registry.promises r1).
  destruct (Registry.promiseAll _ _) as [outcome |]; [| done].
  rewrite setTheme_loadGrammar_resume.
  destruct (Registry._loadGrammar_resume frame outcome r1) as [r2 a2]. cbn [fst snd].
  apply IH.
Qed.

(** X13.  The theme has no part in loading.  [setTheme] changes nothing
    but the theme of the store: it makes no call of the loader and leaves
    the cache, the promises and the grammars as they are; and a call of
    [_loadGrammar] made after [setTheme] goes exactly as it would have
    gone without it, to the same result and the same registry with the new
    theme in its store. *)
Theorem setTheme_does_not_influence_loading
    (theme : IRawTheme) (fuel : nat) (init : string) (lang : Z)
    (emb : option IEmbeddedLanguagesMap) (types : option ITokenTypeMap)
    (r : Registry.t) :
  let r0 := Registry.setTheme theme r in
  let res := Registry.resolve fuel init lang emb types r in
  (Registry._ensureGrammarCache r0 = Registry._ensureGrammarCache r /\
   Registry.promises r0 = Registry.promises r /\
   Registry.fetches r0 = Registry.fetches r /\
   SyncRegistry._theme (Registry._syncRegistry r0) = Some theme /\
   forall scope,
     SyncRegistry.lookup (Registry._syncRegistry r0) scope
     = SyncRegistry.lookup (Registry._syncRegistry r) scope /\
     SyncRegistry.injections (Registry._syncRegistry r0) scope
     = SyncRegistry.injections (Registry._syncRegistry r) scope) /\
  Registry.resolve fuel init lang emb types r0 = (Registry.setTheme theme res.1, res.2).
Proof.
  intros r0 res. split; [done |].
  subst r0 res. unfold Registry.resolve, Registry._loadGrammar.
  rewrite setTheme_enterLoop.
  destruct (Registry.enterLoop init lang emb types _ _ _ _ r) as [r1 a1]. cbn [fst snd].
  apply setTheme_run.
Qed.

End Facts.
End RegistryMore.

(** ** The further properties on the test grammars *)

Module FixtureMore.
Import Invariants Outcomes Fixture MoreFixture.
#[local] Existing Instance test_module.

(** A loader that fails: the first call for a scope fails with the
    loader's reason. *)
Lemma rejected_load_rejects_resolution_witness :
  let r := Scheduler.registry (Scheduler.exec (Scheduler.create failing_locator) []) in
  Registry._ensureGrammarCache r !! "source.a" = None /\
  Registry.loadGrammar failing_locator "source.a" = rejects "network down" /\
  exists r',
    Registry.resolve 1 "source.a" 0 None None r
    = (r', Registry.Completed (rejects "network down") [whole "source.a"]) /\
    Registry._syncRegistry r' = Registry._syncRegistry r /\
    Registry.fetches r' = Registry.fetches r ++ ["source.a"] /\
    Registry._ensureGrammarCache r' !! "source.a" = Some (length (Registry.promises r)) /\
    Registry.promises r' !! length (Registry.promises r)
    = Some (Registry.rejected "network down").
Proof.
  intros r.
  assert (Hmiss : Registry._ensureGrammarCache r !! "source.a" = None)
    by (vm_compute; reflexivity).
  assert (Hrej : Registry.loadGrammar failing_locator "source.a" = rejects "network down")
    by reflexivity.
  split; [exact Hmiss |]. split; [exact Hrej |].
  exact (RegistryMore.rejected_load_rejects_resolution failing_locator []
           "source.a" 0 None None "network down" 0 Hmiss Hrej).
Defined.

(** The same registry after the failure: the second call fails at once. *)
Lemma failed_load_is_not_retried_witness :
  let r := Scheduler.registry
             (Scheduler.exec (Scheduler.create failing_locator) failed_once) in
  Registry._ensureGrammarCache r !! "source.a" = Some 0%nat /\
  Registry.promises r !! 0%nat = Some (Registry.rejected "network down") /\
  Registry.resolve 1 "source.a" 7 None None r
  = (r, Registry.Completed (rejects "network down") [whole "source.a"]).
Proof.
  intros r.
  assert (Hhit : Registry._ensureGrammarCache r !! "source.a" = Some 0%nat)
    by (vm_compute; reflexivity).
  assert (Hcell : Registry.promises r !! 0%nat = Some (Registry.rejected "network down"))
    by (vm_compute; reflexivity).
  split; [exact Hhit |]. split; [exact Hcell |].
  exact (RegistryMore.failed_load_is_not_retried failing_locator failed_once
           "source.a" 7 None None 0 "network down" 0 Hhit Hcell).
Defined.



(** The call on the failing loader was rejected. *)
Lemma rejected_call_has_a_cause_witness :
  let w := Scheduler.exec (Scheduler.create failing_locator) failed_once in
  Scheduler.activations w !! 0%nat
  = Some (Registry.Completed (rejects "network down") [whole "source.a"]) /\
  ((exists dep,
      dep ∈ [whole "source.a"] /\
      Registry.loadGrammar failing_locator (scopeName dep) = rejects "network down") \/
   (exists init,
      [whole "source.a"] !! 0%nat = Some (Full {| full_scopeName := init |}) /\
      "network down" = Registry.no_grammar_message init)).
Proof.
  intros w.
  assert (Hat : Scheduler.activations w !! 0%nat
                = Some (Registry.Completed (rejects "network down") [whole "source.a"]))
    by (vm_compute; reflexivity).
  split; [exact Hat |].
  exact (RegistryMore.rejected_call_has_a_cause failing_locator failed_once
           0 "network down" [whole "source.a"] Hat).
Defined.

(** The injection scope [source.d] was fetched because calls asked for it. *)
Lemma loader_called_only_when_requested_witness :
  let w := Scheduler.exec (Scheduler.create scenario_locator) overlapping_calls in
  "source.d" ∈ Registry.fetches (Scheduler.registry w) /\
  ("source.d" ∈ direct_loads overlapping_calls \/
   exists i a dep,
     Scheduler.activations w !! i = Some a /\
     dep ∈ Registry.history_of a /\ scopeName dep = "source.d").
Proof.
  intros w.
  assert (Hin : "source.d" ∈ Registry.fetches (Scheduler.registry w)).
  { apply (list_elem_of_lookup_2 _ 3%nat). vm_compute. reflexivity. }
  split; [exact Hin |].
  exact (RegistryMore.loader_called_only_when_requested scenario_locator
           overlapping_calls "source.d" Hin).
Defined.

(** A loader that answers the request for [source.a] with [source.b]. *)
Lemma misnamed_grammar_is_reported_missing_witness :
  let r := Scheduler.registry (Scheduler.exec (Scheduler.create misnaming_locator) []) in
  Registry._ensureGrammarCache r !! "source.a" = None /\
  SyncRegistry.lookup (Registry._syncRegistry r) "source.a" = None /\
  Registry.loadGrammar misnaming_locator "source.a" = resolves (Some source_b) /\
  rawScopeName source_b <> "source.a" /\
  exists r',
    Registry.resolve 1 "source.a" 0 None None r
    = (r', Registry.Completed (rejects (Registry.no_grammar_message "source.a"))
             [whole "source.a"]) /\
    Registry.fetches r' = Registry.fetches r ++ ["source.a"] /\
    Registry.promises r' !! length (Registry.promises r) = Some Registry.fulfilled /\
    SyncRegistry.lookup (Registry._syncRegistry r') (rawScopeName source_b)
    = Some source_b /\
    SyncRegistry.lookup (Registry._syncRegistry r') "source.a" = None.
Proof.
  intros r.
  assert (Hmiss : Registry._ensureGrammarCache r !! "source.a" = None)
    by (vm_compute; reflexivity).
  assert (Hnone : SyncRegistry.lookup (Registry._syncRegistry r) "source.a" = None)
    by (vm_compute; reflexivity).
  assert (Hload : Registry.loadGrammar misnaming_locator "source.a"
                  = resolves (Some source_b)) by reflexivity.
  assert (Hname : rawScopeName source_b <> "source.a") by (cbn; discriminate).
  split; [exact Hmiss |]. split; [exact Hnone |]. split; [exact Hload |].
  split; [exact Hname |].
  exact (RegistryMore.misnamed_grammar_is_reported_missing misnaming_locator []
           "source.a" source_b 0 None None 0 Hmiss Hnone Hload Hname).
Defined.

End FixtureMore.
